(** * TMP tile music player: the lyric synchroniser and the tile carousel

    A shallow embedding of the two pieces of [app.py] that carry logic,
    [LyricsTile] (LRC parsing, highlighting by playback position, click to
    seek) and [ScrollableAlbumArea] (the three-tile rotating window), with
    the Python built-ins they rely on, and the properties of the design
    document stated and settled against that embedding. Around them, the
    playlist of [AudioPlayer], the file drop of [AlbumTile] and the slots
    of the main window, [TilesPlayer], with what the code shows of them. *)

From Stdlib Require Import ZArith NArith List Bool Ascii String Lia.
From Stdlib Require Import Sorting.Sorted Sorting.Permutation.
From Stdlib Require Import Floats.SpecFloat.
Import ListNotations.

Local Open Scope string_scope.
Local Open Scope Z_scope.

(** ** Python exceptions and results *)

Inductive exn : Type :=
  | ValueError
  | OverflowError
  | ZeroDivisionError
  | IndexError
  | AttributeError.

Inductive result (A : Type) : Type :=
  | Ok (a : A)
  | Raise (e : exn).

Arguments Ok {A} a.
Arguments Raise {A} e.

Definition bind {A B : Type} (r : result A) (k : A -> result B) : result B :=
  match r with
  | Ok a => k a
  | Raise e => Raise e
  end.

Notation "x <- r ;; k" := (bind r (fun x => k))
  (at level 61, r at next level, right associativity).

(** ** The [str] methods used by the lyric parser

    A Python string is a sequence of code points; here a [string], each
    [ascii] read as a code point below 256. Texts with a code point from
    256 on are not represented. *)

Module PyStr.

(** [str.isspace] on one code point (the Unicode white-space code points
    below 256). *)
Definition isspace (c : ascii) : bool :=
  let n := N_of_ascii c in
  ((9 <=? n) && (n <=? 13) || (28 <=? n) && (n <=? 32)
   || (n =? 133) || (n =? 160))%N.

Fixpoint lstrip (s : string) : string :=
  match s with
  | EmptyString => EmptyString
  | String c s' => if isspace c then lstrip s' else s
  end.

Fixpoint rstrip (s : string) : string :=
  match s with
  | EmptyString => EmptyString
  | String c s' =>
      match rstrip s' with
      | EmptyString => if isspace c then EmptyString else String c EmptyString
      | r => String c r
      end
  end.

(** [s.strip()] *)
Definition strip (s : string) : string := rstrip (lstrip s).

(** [s.startswith(p)] *)
Fixpoint startswith (s p : string) {struct p} : bool :=
  match p with
  | EmptyString => true
  | String b p' =>
      match s with
      | EmptyString => false
      | String a s' => Ascii.eqb a b && startswith s' p'
      end
  end.

Fixpoint index_of (c : ascii) (s : string) : option nat :=
  match s with
  | EmptyString => None
  | String a s' =>
      if Ascii.eqb a c then Some O else option_map S (index_of c s')
  end.

(** [s.find(c)] for a one-character [c]: the first index, or -1. *)
Definition find (s : string) (c : ascii) : Z :=
  match index_of c s with
  | Some n => Z.of_nat n
  | None => -1
  end.

Fixpoint take (n : nat) (s : string) : string :=
  match n, s with
  | S n', String c s' => String c (take n' s')
  | _, _ => EmptyString
  end.

Fixpoint drop (n : nat) (s : string) : string :=
  match n, s with
  | S n', String _ s' => drop n' s'
  | _, _ => s
  end.

(** A slice bound as Python resolves it: a negative bound counts from
    the end, and the result is clamped to [0, len]. *)
Definition bound (len : Z) (i : Z) : Z :=
  let j := if i <? 0 then i + len else i in
  Z.max 0 (Z.min len j).

(** [s[lo:hi]], an omitted bound being [None]. *)
Definition slice (s : string) (lo hi : option Z) : string :=
  let len := Z.of_nat (String.length s) in
  let l := match lo with Some i => bound len i | None => 0 end in
  let h := match hi with Some i => bound len i | None => len end in
  take (Z.to_nat (h - l)) (drop (Z.to_nat l) s).

(** [s.split(sep)] for a one-character [sep]. *)
Fixpoint split (s : string) (sep : ascii) : list string :=
  match s with
  | EmptyString => [EmptyString]
  | String c s' =>
      if Ascii.eqb c sep then EmptyString :: split s' sep
      else match split s' sep with
           | h :: t => String c h :: t
           | [] => [String c EmptyString]
           end
  end.

End PyStr.

(** ** [float]: IEEE 754 binary64, and the conversions [float(str)],
    [int(float)] *)

Module PyFloat.

Definition prec : Z := 53.
Definition emax : Z := 1024.

Definition float : Type := spec_float.

Definition mul : float -> float -> float := SFmul prec emax.
Definition add : float -> float -> float := SFadd prec emax.

(** The float of a Python [int]: nearest, ties to even. *)
Definition of_int (n : Z) : float := binary_normalize prec emax n 0 false.

(** The nearest float (ties to even) to [(-1)^neg * m * 10^e]: what
    CPython's correctly rounded [strtod] returns for a decimal literal.
    For a negative exponent the quotient [m / 10^k] is rounded from its
    integer part and the position of the remainder. *)
Definition of_decimal (neg : bool) (m : N) (e : Z) : float :=
  match m with
  | N0 => S754_zero neg
  | Npos p =>
      match e with
      | Zneg k =>
          let '(q, e', l) :=
            SFdiv_core_binary prec emax (Zpos p) 0 (Zpos (Pos.pow 10 k)) 0 in
          binary_round_aux prec emax neg q e' l
      | _ => binary_normalize prec emax (cond_Zopp neg (Zpos p * 10 ^ e)) 0 neg
      end
  end.

Definition is_digit (c : ascii) : bool :=
  let n := N_of_ascii c in ((48 <=? n) && (n <=? 57))%N.

Definition digit_val (c : ascii) : N := (N_of_ascii c - 48)%N.

(** A maximal run of decimal digits: the number read so far, how many
    digits were read, and what follows them. *)
Fixpoint digits (s : string) (acc : N) (cnt : nat) : N * nat * string :=
  match s with
  | String c s' =>
      if is_digit c then digits s' (acc * 10 + digit_val c)%N (S cnt)
      else (acc, cnt, s)
  | EmptyString => (acc, cnt, s)
  end.

Definition sign (s : string) : bool * string :=
  match s with
  | String "-" s' => (true, s')
  | String "+" s' => (false, s')
  | _ => (false, s)
  end.

(** An exponent part [e[+-]digits]; when no digit follows, the [e] is
    not part of the number. *)
Definition exponent (s : string) : Z * string :=
  match s with
  | String c s' =>
      if (Ascii.eqb c "e" || Ascii.eqb c "E")%bool then
        let (eneg, s1) := sign s' in
        let '(v, n, s2) := digits s1 0%N O in
        match n with
        | O => (0, s)
        | S _ => (cond_Zopp eneg (Z.of_N v), s2)
        end
      else (0, s)
  | EmptyString => (0, s)
  end.

(** A decimal literal [[sign] digits [. digits] [exponent]] with at
    least one digit, and what follows it. (CPython refuses a literal of
    more than [10^9] digits; no such limit here.) *)
Definition parse_decimal (s : string) : option (float * string) :=
  let (neg, s1) := sign s in
  let '(m1, n1, s2) := digits s1 0%N O in
  let '(m2, n2, s3) :=
    match s2 with
    | String "." s' => digits s' m1 O
    | _ => (m1, O, s2)
    end in
  match (n1 + n2)%nat with
  | O => None
  | S _ =>
      let (ex, s4) := exponent s3 in
      Some (of_decimal neg m2 (ex - Z.of_nat n2), s4)
  end.

Definition tolower (c : ascii) : ascii :=
  let n := N_of_ascii c in
  if ((65 <=? n) && (n <=? 90))%N then ascii_of_N (n + 32) else c.

(** Whether [s] starts with the lower-case word [t], letter case apart. *)
Fixpoint imatch (s t : string) : bool :=
  match t, s with
  | EmptyString, _ => true
  | String b t', String a s' => Ascii.eqb (tolower a) b && imatch s' t'
  | String _ _, EmptyString => false
  end.

(** [[sign] (inf | infinity | nan)], and what follows it. *)
Definition parse_inf_or_nan (s : string) : option (float * string) :=
  let (neg, s1) := sign s in
  if imatch s1 "inf" then
    let s2 := PyStr.drop 3 s1 in
    Some (S754_infinity neg, if imatch s2 "inity" then PyStr.drop 5 s2 else s2)
  else if imatch s1 "nan" then Some (S754_nan, PyStr.drop 3 s1)
  else None.

(** The C white space [float] strips around the literal. *)
Definition c_isspace (c : ascii) : bool :=
  let n := N_of_ascii c in ((9 <=? n) && (n <=? 13) || (n =? 32))%N.

Fixpoint c_lstrip (s : string) : string :=
  match s with
  | EmptyString => EmptyString
  | String c s' => if c_isspace c then c_lstrip s' else s
  end.

Fixpoint c_rstrip (s : string) : string :=
  match s with
  | EmptyString => EmptyString
  | String c s' =>
      match c_rstrip s' with
      | EmptyString => if c_isspace c then EmptyString else String c EmptyString
      | r => String c r
      end
  end.

(** A literal between optional white space, and nothing else. *)
Definition from_string_inner (s : string) : result float :=
  match c_rstrip (c_lstrip s) with
  | EmptyString => Raise ValueError
  | body =>
      match parse_decimal body with
      | Some (x, EmptyString) => Ok x
      | Some (_, String _ _) => Raise ValueError
      | None =>
          match parse_inf_or_nan body with
          | Some (x, EmptyString) => Ok x
          | _ => Raise ValueError
          end
      end
  end.

(** Underscores are accepted between two digits only, and dropped. *)
Fixpoint drop_underscores (prev : ascii) (s : string) : result string :=
  match s with
  | EmptyString =>
      if Ascii.eqb prev "_" then Raise ValueError else Ok EmptyString
  | String c s' =>
      if Ascii.eqb c "_" then
        if is_digit prev then drop_underscores c s' else Raise ValueError
      else if (Ascii.eqb prev "_" && negb (is_digit c))%bool then
        Raise ValueError
      else
        r <- drop_underscores c s' ;; Ok (String c r)
  end.

(** Code points from 127 on: white space becomes a space, anything else
    (below 256 none is a decimal digit) ends the text with a [?]. *)
Fixpoint to_ascii (s : string) : string :=
  match s with
  | EmptyString => EmptyString
  | String c s' =>
      if (N_of_ascii c <? 127)%N then String c (to_ascii s')
      else if PyStr.isspace c then String " " (to_ascii s')
      else String "?" EmptyString
  end.

(** [float(s)] of a [str]. *)
Definition of_string (s : string) : result float :=
  let a := to_ascii s in
  match PyStr.index_of "_" a with
  | None => from_string_inner a
  | Some _ => d <- drop_underscores zero a ;; from_string_inner d
  end.

(** [int(x)] of a [float]: truncation toward zero; not a number and the
    infinities raise. *)
Definition to_int (x : float) : result Z :=
  match x with
  | S754_zero _ => Ok 0
  | S754_finite s m e =>
      Ok (cond_Zopp s (match e with
                       | Zneg k => Zpos m / Zpos (Pos.pow 2 k)
                       | _ => Zpos m * 2 ^ e
                       end))
  | S754_infinity _ => Raise OverflowError
  | S754_nan => Raise ValueError
  end.

(** *** Vocabulary of the rounding bounds *)

(** [2^110] times the value of a float that is not negative and whose
    exponent is above -110. *)
Definition scaled (x : float) : Z :=
  match x with
  | S754_finite false m e => Zpos m * 2 ^ (e + 110)
  | _ => 0
  end.

(** Positive zero, or a positive float with a mantissa of 53 digits and
    an exponent from -60 to 0. *)
Definition canonical (x : float) : bool :=
  match x with
  | S754_zero false => true
  | S754_finite false m e =>
      (Zpos (digits2_pos m) =? 53) && (-60 <=? e) && (e <=? 0)
  | _ => false
  end.

(** Positive zero, or a positive float with an exponent from [lo] to
    [hi]. *)
Definition within (lo hi : Z) (x : float) : Prop :=
  x = S754_zero false \/
  exists (m : positive) (e : Z), x = S754_finite false m e /\ lo <= e <= hi.

End PyFloat.

(** ** Lists as Python indexes and sorts them *)

(** [l[i]]: a negative index counts from the end; outside the list it
    raises [IndexError]. *)
Definition getitem {A : Type} (l : list A) (i : Z) : result A :=
  let len := Z.of_nat (List.length l) in
  let j := if i <? 0 then i + len else i in
  if (0 <=? j) && (j <? len) then
    match nth_error l (Z.to_nat j) with
    | Some a => Ok a
    | None => Raise IndexError
    end
  else Raise IndexError.

(** [a % b] on integers: the sign follows the divisor, and a zero divisor
    raises. *)
Definition py_mod (a b : Z) : result Z :=
  if b =? 0 then Raise ZeroDivisionError else Ok (a mod b).

Section StableSort.

Context {A : Type} (key : A -> Z).

(** Ascending order of the keys. *)
Definition le_by (a b : A) : Prop := key a <= key b.

(** [x] goes in front of the first element whose key is not below its
    own: coming from the left of the elements already placed, it stays
    in front of those with an equal key. *)
Fixpoint insert_by (x : A) (l : list A) : list A :=
  match l with
  | [] => [x]
  | y :: l' => if key x <=? key y then x :: l else y :: insert_by x l'
  end.

(** [l.sort(key=key)]: the sort is stable, so its result is the one of
    this insertion sort. *)
Definition sort_by (l : list A) : list A := fold_right insert_by [] l.

End StableSort.

(** ** [LyricsTile] *)

Module Lyrics.

(** An entry of [lyrics_lines]: [(time_in_ms, lyric_text)]. *)
Definition LyricLine : Type := (Z * string)%type.

Definition LF : ascii := "010"%char.

(** The body of the [try] in [parse_lrc_time]. *)
Definition parse_lrc_time_try (time_str : string) : result Z :=
  match PyStr.split (PyStr.slice time_str (Some 1) (Some (-1))) ":" with
  | [minutes; seconds] =>
      m <- PyFloat.of_string minutes ;;
      s <- PyFloat.of_string seconds ;;
      let total_seconds :=
        PyFloat.add (PyFloat.mul m (PyFloat.of_int 60)) s in
      PyFloat.to_int (PyFloat.mul total_seconds (PyFloat.of_int 1000))
  | _ => Raise ValueError
  end.

(** [parse_lrc_time]: whatever the body raises is caught and gives 0. *)
Definition parse_lrc_time (time_str : string) : Z :=
  match parse_lrc_time_try time_str with
  | Ok time_ms => time_ms
  | Raise _ => 0
  end.

Definition nonempty (s : string) : bool :=
  match s with
  | EmptyString => false
  | String _ _ => true
  end.

(** The [while text.startswith('[')] loop of [parse_lrc]: the tags kept
    so far and the text left. Every round removes the tag it read, so
    [fuel] above the length of [text] is never used up. *)
Fixpoint scan_tags (fuel : nat) (text : string) (time_tags : list Z)
  : list Z * string :=
  match fuel with
  | O => (time_tags, text)
  | S fuel' =>
      if PyStr.startswith text "[" then
        let time_end := PyStr.find text "]" in
        if time_end =? -1 then (time_tags, text)
        else
          let time_str := PyStr.slice text None (Some (time_end + 1)) in
          let time_ms := parse_lrc_time time_str in
          let time_tags' :=
            if time_ms >? 0 then (time_tags ++ [time_ms])%list else time_tags in
          scan_tags fuel'
            (PyStr.strip (PyStr.slice text (Some (time_end + 1)) None))
            time_tags'
      else (time_tags, text)
  end.

(** One round of the [for line in ...] loop: what the line appends to
    [lyrics_lines]. *)
Definition parse_line (line : string) : list LyricLine :=
  let line := PyStr.strip line in
  if negb (nonempty line) || negb (PyStr.startswith line "[") then []
  else
    let (time_tags, text) := scan_tags (S (String.length line)) line [] in
    flat_map (fun time_ms => if nonempty text then [(time_ms, text)] else [])
             time_tags.

(** [lyrics_lines] as the [for] loop leaves it, before the sort. *)
Definition collect_lines (lrc_text : string) : list LyricLine :=
  flat_map parse_line (PyStr.split lrc_text LF).

(** A [QLabel] of the lyric panel: its text and whether it carries the
    highlight style. *)
Record Label : Type := { caption : string; bold : bool }.

(** The caption of the placeholder label shown for a track with no line
    (the source's is in Chinese). *)
Definition no_lyrics : string := "No lyrics".

(** The fields of a [LyricsTile]; [player] is the position of the media
    player once the main window has attached one. *)
Record LyricsTile : Type := {
  lyrics_lines : list LyricLine;
  current_line : Z;
  lyrics_labels : list Label;
  player : option Z
}.

(** [LyricsTile.__init__] *)
Definition init : LyricsTile :=
  {| lyrics_lines := []; current_line := 0; lyrics_labels := [];
     player := None |}.

Definition update_lyrics_display (st : LyricsTile) : LyricsTile :=
  let labels :=
    map (fun l : LyricLine => {| caption := snd l; bold := false |})
        (lyrics_lines st) in
  {| lyrics_lines := lyrics_lines st;
     current_line := current_line st;
     lyrics_labels :=
       match lyrics_lines st with
       | [] => (labels ++ [{| caption := no_lyrics; bold := false |}])%list
       | _ :: _ => labels
       end;
     player := player st |}.

Definition set_lines (st : LyricsTile) (lines : list LyricLine) : LyricsTile :=
  {| lyrics_lines := lines; current_line := current_line st;
     lyrics_labels := lyrics_labels st; player := player st |}.

Definition parse_lrc (lrc_text : string) (st : LyricsTile) : LyricsTile :=
  let st := set_lines st [] in
  if negb (nonempty lrc_text) then st
  else
    let st := set_lines st (collect_lines lrc_text) in
    let st := set_lines st (sort_by fst (lyrics_lines st)) in
    update_lyrics_display st.

(** [update_lyrics] *)
Definition update_lyrics (text : string) (st : LyricsTile) : LyricsTile :=
  parse_lrc text
    {| lyrics_lines := lyrics_lines st; current_line := -1;
       lyrics_labels := lyrics_labels st; player := player st |}.

(** The scan of [update_position]: [current] is the local
    [current_line], [i] the index [enumerate] has reached. *)
Fixpoint locate_from (i current : Z) (lines : list LyricLine) (position : Z)
  : Z :=
  match lines with
  | [] => current
  | (time, _) :: rest =>
      if time >? position then current
      else locate_from (i + 1) i rest position
  end.

Definition locate (lines : list LyricLine) (position : Z) : Z :=
  locate_from 0 (-1) lines position.

Fixpoint highlight_from (i : Z) (current : Z) (labels : list Label)
  : list Label :=
  match labels with
  | [] => []
  | l :: rest =>
      {| caption := caption l; bold := i =? current |}
        :: highlight_from (i + 1) current rest
  end.

(** [update_position]. The label of the new current line is looked up to
    centre the scroll area on it; where the scroll bar lands depends on the
    geometry of the widgets and is left to the rendering. *)
Definition update_position (position : Z) (st : LyricsTile)
  : result LyricsTile :=
  match lyrics_lines st with
  | [] => Ok st
  | _ :: _ =>
      let current := locate (lyrics_lines st) position in
      if negb (current =? current_line st) then
        let labels := highlight_from 0 current (lyrics_labels st) in
        _ <- (if current >=? 0 then getitem labels current
              else Ok {| caption := EmptyString; bold := false |}) ;;
        Ok {| lyrics_lines := lyrics_lines st;
              current_line := current;
              lyrics_labels := labels;
              player := player st |}
      else Ok st
  end.

(** The body run for the label [i] that contains the click: the guarded
    [player.setPosition(lyrics_lines[i][0])]. *)
Definition seek_line (i : nat) (st : LyricsTile) : result LyricsTile :=
  if (i <? List.length (lyrics_lines st))%nat then
    line <- getitem (lyrics_lines st) (Z.of_nat i) ;;
    let time_ms := fst line in
    match player st with
    | Some _ =>
        Ok {| lyrics_lines := lyrics_lines st;
              current_line := current_line st;
              lyrics_labels := lyrics_labels st;
              player := Some time_ms |}
    | None => Ok st
    end
  else Ok st.

(** The first label, by index, whose rectangle contains the click. *)
Fixpoint first_hit (hit : nat -> bool) (i : nat) (labels : list Label)
  : option nat :=
  match labels with
  | [] => None
  | _ :: rest => if hit i then Some i else first_hit hit (S i) rest
  end.

(** [on_lyrics_click]; [hit i] says whether the rectangle of label [i]
    contains the position of the event. *)
Definition on_lyrics_click (hit : nat -> bool) (st : LyricsTile)
  : result LyricsTile :=
  match first_hit hit O (lyrics_labels st) with
  | Some i => seek_line i st
  | None => Ok st
  end.

(** *** Vocabulary of the properties *)

(** Ascending timestamps. *)
Definition sorted_by_time (lines : list LyricLine) : Prop :=
  StronglySorted (le_by fst) lines.

(** What the design document asks of a track: its lines are in
    ascending order, and the cursor of a track with no line is -1. The
    tile shows one label for each line of the track. *)
Definition track_ok (st : LyricsTile) : Prop :=
  sorted_by_time (lyrics_lines st) /\
  (lyrics_lines st = [] -> current_line st = -1) /\
  (lyrics_lines st <> [] ->
   List.length (lyrics_labels st) = List.length (lyrics_lines st)).

(** The cursor after [update_position], when it raised nothing. *)
Definition cursor_after (position : Z) (st : LyricsTile) : option Z :=
  match update_position position st with
  | Ok st' => Some (current_line st')
  | Raise _ => None
  end.

(** [r] is the index of the last line whose timestamp is at most
    [position], or -1 when no line qualifies. *)
Definition last_at_or_before (lines : list LyricLine) (position r : Z) : Prop :=
  (r = -1 /\ Forall (fun l : LyricLine => position < fst l) lines) \/
  (exists (n : nat) (l : LyricLine),
      r = Z.of_nat n /\ nth_error lines n = Some l /\ fst l <= position /\
      forall (m : nat) (l' : LyricLine),
        (n < m)%nat -> nth_error lines m = Some l' -> position < fst l').

(** How many lines, from the first on, have a timestamp at most
    [position] before one has not. *)
Fixpoint leading (lines : list LyricLine) (position : Z) : nat :=
  match lines with
  | [] => O
  | l :: rest => if fst l >? position then O else S (leading rest position)
  end.

(** The lines of a given timestamp, in the order of the list. *)
Definition at_time (t : Z) (lines : list LyricLine) : list LyricLine :=
  filter (fun l : LyricLine => fst l =? t) lines.

(** A bracketed tag, and a run of them. *)
Definition tag_of (body : string) : string := "[" ++ body ++ "]".

Definition tags_of (bodies : list string) : string :=
  fold_right (fun b rest => tag_of b ++ rest) EmptyString bodies.

(** The timestamps [parse_lrc] keeps of a run of tags. *)
Definition kept_times (bodies : list string) : list Z :=
  filter (fun t => t >? 0) (map (fun b => parse_lrc_time (tag_of b)) bodies).

(** The two-digit decimal numeral of a number below 100, and the tag
    [[mm:ss]]. *)
Definition digit (d : Z) : ascii := ascii_of_N (Z.to_N (48 + d)).

Definition two_digits (n : Z) : string :=
  String (digit (n / 10)) (String (digit (n mod 10)) EmptyString).

Definition tag_mm_ss (mm ss : Z) : string :=
  tag_of (two_digits mm ++ ":" ++ two_digits ss).

(** [[mm:ss.xx]], [xx] being hundredths of a second. *)
Definition seconds_field (ss xx : Z) : string :=
  two_digits ss ++ "." ++ two_digits xx.

Definition tag_mm_ss_xx (mm ss xx : Z) : string :=
  tag_of (two_digits mm ++ ":" ++ seconds_field ss xx).

(** [minutes*60 + seconds], times 1000, truncated, in exact arithmetic:
    the timestamp the design document gives [[mm:ss.xx]]. *)
Definition exact_ms (mm ss xx : Z) : Z :=
  ((mm * 60 + ss) * 100 + xx) * 1000 / 100.

(** [int(total_seconds * 1000)] inside the [try]/[except] of
    [parse_lrc_time], for the floats of the two fields. *)
Definition ms_of_floats (minutes seconds : PyFloat.float) : Z :=
  match PyFloat.to_int
          (PyFloat.mul
             (PyFloat.add (PyFloat.mul minutes (PyFloat.of_int 60)) seconds)
             (PyFloat.of_int 1000)) with
  | Ok time_ms => time_ms
  | Raise _ => 0
  end.

(** The tile once the main window has attached the media player. *)
Definition attached : LyricsTile :=
  {| lyrics_lines := []; current_line := 0; lyrics_labels := [];
     player := Some 0 |}.

(** A track of three lines at 0, 1000 and 5000 ms, with its labels. *)
Definition abc_track : LyricsTile :=
  update_lyrics_display
    {| lyrics_lines := [(0, "a"); (1000, "b"); (5000, "c")];
       current_line := -1; lyrics_labels := []; player := Some 0 |}.

(** The tile after a text with no time tag was loaded: no line, and
    the placeholder label. *)
Definition untimed : LyricsTile := update_lyrics "la la la" attached.

Definition with_player (st : LyricsTile) (time_ms : Z) : LyricsTile :=
  {| lyrics_lines := lyrics_lines st; current_line := current_line st;
     lyrics_labels := lyrics_labels st; player := Some time_ms |}.

Fixpoint below (n : nat) : list Z :=
  match n with
  | O => []
  | S k => Z.of_nat k :: below k
  end.

Definition no_colon (s : string) : bool :=
  match PyStr.index_of ":" s with
  | None => true
  | Some _ => false
  end.

(** The minutes field of a two-digit tag is read as a float whose
    product by 60 is the float of [60 * mm]. *)
Definition minutes_ok (mm : Z) : bool :=
  match PyFloat.of_string (two_digits mm) with
  | Ok f =>
      no_colon (two_digits mm) &&
      PyFloat.canonical (PyFloat.mul f (PyFloat.of_int 60)) &&
      (PyFloat.scaled (PyFloat.mul f (PyFloat.of_int 60)) =? 60 * mm * 2 ^ 110)
  | Raise _ => false
  end.

(** The seconds field [ss.xx] is read as a float within one part in
    [2^52] of [ss + xx / 100]. *)
Definition seconds_ok (ss xx : Z) : bool :=
  match PyFloat.of_string (seconds_field ss xx) with
  | Ok f =>
      no_colon (seconds_field ss xx) && PyFloat.canonical f &&
      (2 ^ 52 * Z.abs (100 * PyFloat.scaled f - (100 * ss + xx) * 2 ^ 110)
       <=? (100 * ss + xx) * 2 ^ 110)
  | Raise _ => false
  end.

End Lyrics.

(** ** [ScrollableAlbumArea] *)

Module Carousel.

(** What the carousel reads of an [AlbumTile]. *)
Record AlbumTile : Type := { title : string; music_path : option string }.

(** [tiles], [current_index], and the grid of the container as the last
    [update_visible_tiles] filled it: the [addWidget(tile, 0, column)]
    calls, in order, as [(column, tile)]. *)
Record ScrollableAlbumArea : Type := {
  tiles : list AlbumTile;
  current_index : Z;
  layout : list (Z * AlbumTile)
}.

(** [ScrollableAlbumArea.__init__] *)
Definition init : ScrollableAlbumArea :=
  {| tiles := []; current_index := 0; layout := [] |}.

Definition len (a : ScrollableAlbumArea) : Z := Z.of_nat (List.length (tiles a)).

(** The [for i in range(3)] loop of [update_visible_tiles], over the
    columns still to fill. *)
Fixpoint show_tiles (a : ScrollableAlbumArea) (columns : list Z)
         (grid : list (Z * AlbumTile)) : result (list (Z * AlbumTile)) :=
  match columns with
  | [] => Ok grid
  | i :: columns' =>
      idx <- py_mod (current_index a + i) (len a) ;;
      if idx <? len a then
        tile <- getitem (tiles a) idx ;;
        show_tiles a columns' (grid ++ [(i, tile)])%list
      else show_tiles a columns' grid
  end.

Definition update_visible_tiles (a : ScrollableAlbumArea)
  : result ScrollableAlbumArea :=
  grid <- show_tiles a [0; 1; 2] [] ;;
  Ok {| tiles := tiles a; current_index := current_index a; layout := grid |}.

Definition set_index (a : ScrollableAlbumArea) (i : Z) : ScrollableAlbumArea :=
  {| tiles := tiles a; current_index := i; layout := layout a |}.

Definition scroll_left (a : ScrollableAlbumArea) : result ScrollableAlbumArea :=
  if len a <=? 3 then Ok a
  else
    i <- py_mod (current_index a - 1) (len a) ;;
    update_visible_tiles (set_index a i).

Definition scroll_right (a : ScrollableAlbumArea) : result ScrollableAlbumArea :=
  if len a <=? 3 then Ok a
  else
    i <- py_mod (current_index a + 1) (len a) ;;
    update_visible_tiles (set_index a i).

(** The local [center_tile] of [play_current]; [None] when the method
    returns before choosing one. *)
Definition center_tile (a : ScrollableAlbumArea) : result (option AlbumTile) :=
  if len a <=? 3 then Ok None
  else
    center_idx <- py_mod (current_index a + 1) (len a) ;;
    t <- getitem (tiles a) center_idx ;;
    Ok (Some t).

(** [play_current]: the payloads of the [clicked] signals it emits. *)
Definition play_current (a : ScrollableAlbumArea) : result (list string) :=
  c <- center_tile a ;;
  match c with
  | Some {| music_path := Some (String ch p) |} => Ok [String ch p]
  | _ => Ok []
  end.

Definition add_tile (tile : AlbumTile) (a : ScrollableAlbumArea)
  : result ScrollableAlbumArea :=
  update_visible_tiles
    {| tiles := (tiles a ++ [tile])%list; current_index := current_index a;
       layout := layout a |}.

(** The tiles on show, by column. *)
Definition window (a : ScrollableAlbumArea) : list AlbumTile :=
  map snd (layout a).

(** The tile [i] places after [current_index], counting round the list:
    [items[(start_index + i) mod len]] of the design document. *)
Definition item (a : ScrollableAlbumArea) (i : Z) : option AlbumTile :=
  nth_error (tiles a) (Z.to_nat ((current_index a + i) mod len a)).

(** A carousel over the given tiles, at rest on the first one. *)
Definition holding (ts : list AlbumTile) : ScrollableAlbumArea :=
  {| tiles := ts; current_index := 0; layout := [] |}.

(** Five tiles of a music library, to run the carousel on. *)
Definition library_tile (name : string) : AlbumTile :=
  {| title := name; music_path := Some ("data/" ++ name) |}.

Definition item0 : AlbumTile := library_tile "a.mp3".
Definition item1 : AlbumTile := library_tile "b.mp3".
Definition item2 : AlbumTile := library_tile "c.mp3".
Definition item3 : AlbumTile := library_tile "d.mp3".
Definition item4 : AlbumTile := library_tile "e.mp3".

End Carousel.

(** ** File names: [str.lower], [str.endswith], [os.path.join] *)

Module FileName.

(** [c.lower()] for a code point below 256: the capital letters of ASCII
    and of Latin-1 move 32 places up, every other code point stays. *)
Definition lower_char (c : ascii) : ascii :=
  let n := N_of_ascii c in
  if ((65 <=? n) && (n <=? 90)
      || (192 <=? n) && (n <=? 222) && negb (n =? 215))%N
  then ascii_of_N (n + 32)
  else c.

(** [s.lower()] *)
Fixpoint lower (s : string) : string :=
  match s with
  | EmptyString => EmptyString
  | String c s' => String (lower_char c) (lower s')
  end.

(** [s.endswith(suffix)] *)
Definition endswith (s suffix : string) : bool :=
  (String.length suffix <=? String.length s)%nat &&
  String.eqb (PyStr.drop (String.length s - String.length suffix) s) suffix.

(** [s.endswith(suffixes)] for a tuple of suffixes. *)
Definition endswith_any (s : string) (suffixes : list string) : bool :=
  existsb (endswith s) suffixes.

Definition supported_formats : list string := [".mp3"; ".wav"; ".flac"].

(** [file.lower().endswith(('.mp3', '.wav', '.flac'))] *)
Definition supported (file : string) : bool :=
  endswith_any (lower file) supported_formats.

(** [path.split('/')[-1]] *)
Definition last_part (path : string) : result string :=
  getitem (PyStr.split path "/") (-1).

(** [os.path.join(a, b)] where the separator is [/]. *)
Definition join (a b : string) : string :=
  if PyStr.startswith b "/" then b
  else if negb (Lyrics.nonempty a) || endswith a "/" then a ++ b
  else a ++ "/" ++ b.

(** *** Vocabulary of the properties *)

(** No [/] in a name. *)
Definition no_slash (s : string) : Prop := PyStr.index_of "/" s = None.

End FileName.

(** ** [AlbumTile.dropEvent] *)

Module Album.

(** [dropEvent]. [files] are the local paths of the URLs the event
    carries ([toLocalFile]), [title] is the text of the label of the
    tile. *)
Definition dropEvent (files : list string) (t : Carousel.AlbumTile)
  : result Carousel.AlbumTile :=
  match files with
  | [] => Ok t
  | file_path :: _ =>
      if FileName.supported file_path then
        name <- FileName.last_part file_path ;;
        Ok {| Carousel.title := name;
              Carousel.music_path := Some file_path |}
      else Ok t
  end.

End Album.

(** ** Sequences of calls on the lyric tile and on the carousel *)

Module Calls.

(** [update_position] called for each position in turn, as the
    [positionChanged] signal of the player does. *)
Fixpoint update_positions (positions : list Z) (st : Lyrics.LyricsTile)
  : result Lyrics.LyricsTile :=
  match positions with
  | [] => Ok st
  | position :: rest =>
      st' <- Lyrics.update_position position st ;;
      update_positions rest st'
  end.

(** A call on the carousel: [add_tile], or one of the three buttons. *)
Inductive Call : Type :=
  | AddTile (tile : Carousel.AlbumTile)
  | ScrollLeft
  | ScrollRight
  | PlayCurrent.

Definition call (c : Call) (a : Carousel.ScrollableAlbumArea)
  : result Carousel.ScrollableAlbumArea :=
  match c with
  | AddTile tile => Carousel.add_tile tile a
  | ScrollLeft => Carousel.scroll_left a
  | ScrollRight => Carousel.scroll_right a
  | PlayCurrent => _ <- Carousel.play_current a ;; Ok a
  end.

Fixpoint calls (cs : list Call) (a : Carousel.ScrollableAlbumArea)
  : result Carousel.ScrollableAlbumArea :=
  match cs with
  | [] => Ok a
  | c :: rest => a' <- call c a ;; calls rest a'
  end.

(** The tiles a sequence of calls adds, in order. *)
Fixpoint added (cs : list Call) : list Carousel.AlbumTile :=
  match cs with
  | [] => []
  | AddTile tile :: rest => tile :: added rest
  | _ :: rest => added rest
  end.

(** [k] presses of a button. *)
Fixpoint times {A : Type} (k : nat) (f : A -> result A) (a : A) : result A :=
  match k with
  | O => Ok a
  | S k' => a' <- f a ;; times k' f a'
  end.

(** *** Vocabulary of the properties *)

Definition CR : ascii := "013"%char.

(** The text with every line end written as carriage return, line
    feed. *)
Fixpoint to_crlf (text : string) : string :=
  match text with
  | EmptyString => EmptyString
  | String c rest =>
      if Ascii.eqb c Lyrics.LF then String CR (String Lyrics.LF (to_crlf rest))
      else String c (to_crlf rest)
  end.

(** A text of two lines, the later one first. *)
Definition two_lines : string :=
  "[00:05] c" ++ String Lyrics.LF "[00:01]  b  ".


(** How many times a character occurs. *)
Fixpoint count (c : ascii) (s : string) : nat :=
  match s with
  | EmptyString => O
  | String a rest => if Ascii.eqb a c then S (count c rest) else count c rest
  end.

(** The labels show the lines in order, in bold the one the cursor is
    on and no other. *)
Definition shows (st : Lyrics.LyricsTile) : Prop :=
  map Lyrics.caption (Lyrics.lyrics_labels st) =
    map snd (Lyrics.lyrics_lines st) /\
  forall (i : nat) (l : Lyrics.Label),
    nth_error (Lyrics.lyrics_labels st) i = Some l ->
    Lyrics.bold l = (Z.of_nat i =? Lyrics.current_line st).

End Calls.

(** ** [AudioPlayer] *)

Module Audio.

(** [playlist], [current_index], and what the [QMediaPlayer] was asked:
    [loaded] holds the files handed to [player.setSource], each followed
    by [player.play()], the latest first. *)
Record AudioPlayer : Type := {
  playlist : list string;
  current_index : Z;
  loaded : list string
}.

(** [AudioPlayer.__init__] *)
Definition init : AudioPlayer :=
  {| playlist := []; current_index := -1; loaded := [] |}.

Definition len (a : AudioPlayer) : Z := Z.of_nat (List.length (playlist a)).

Definition add_song (path : string) (a : AudioPlayer) : AudioPlayer :=
  {| playlist := (playlist a ++ [path])%list;
     current_index := current_index a; loaded := loaded a |}.

Definition load_current_song (a : AudioPlayer) : result AudioPlayer :=
  if (0 <=? current_index a) && (current_index a <? len a) then
    path <- getitem (playlist a) (current_index a) ;;
    Ok {| playlist := playlist a; current_index := current_index a;
          loaded := path :: loaded a |}
  else Ok a.

Definition set_index (a : AudioPlayer) (i : Z) : AudioPlayer :=
  {| playlist := playlist a; current_index := i; loaded := loaded a |}.

Definition next_song (a : AudioPlayer) : result AudioPlayer :=
  match playlist a with
  | [] => Ok a
  | _ :: _ =>
      i <- py_mod (current_index a + 1) (len a) ;;
      load_current_song (set_index a i)
  end.

Definition prev_song (a : AudioPlayer) : result AudioPlayer :=
  match playlist a with
  | [] => Ok a
  | _ :: _ =>
      i <- py_mod (current_index a - 1) (len a) ;;
      load_current_song (set_index a i)
  end.

(** *** Vocabulary of the properties *)

(** The file the player was last asked to play. *)
Definition now_playing (a : AudioPlayer) : option string := hd_error (loaded a).

(** The song of the playlist at an index. *)
Definition song (a : AudioPlayer) (i : Z) : option string :=
  nth_error (playlist a) (Z.to_nat i).

(** A player that was given songs and has not played yet. *)
Definition fresh (songs : list string) : AudioPlayer :=
  fold_left (fun a path => add_song path a) songs init.

End Audio.

(** ** [TilesPlayer]: the main window *)

Module App.

(** What a [QLabel] shows: a text, or the picture made of some bytes. *)
Inductive Shown : Type :=
  | Text (s : string)
  | Pixmap (data : string).

(** What [load_metadata] stores under ['lyrics']: the [text] of the
    lyrics frame it found, a string for an unsynchronised frame, a list
    of pairs of a text and a time for a synchronised one. *)
Inductive LyricsValue : Type :=
  | LyricsStr (text : string)
  | LyricsList (entries : list (string * Z)).

(** The entries of the [metadata] dictionary of a tile, each present or
    not. *)
Record Metadata : Type := {
  md_title : option string;
  md_cover : option string;
  md_lyrics : option LyricsValue
}.

(** [self.metadata = {}] *)
Definition no_metadata : Metadata :=
  {| md_title := None; md_cover := None; md_lyrics := None |}.

(** What the main window reads of a tile beside its path: [metadata],
    and whether its [clicked] signal is connected to [play_album]. *)
Record TileData : Type := { metadata : Metadata; connected : bool }.

(** [music_path] and label of the [CurrentAlbumTile]. *)
Record CurrentAlbumTile : Type := {
  playing : option string;
  label : Shown
}.

(** The main window. [tile_data] holds, by index, the data of the tiles
    of [scroll_area]. *)
Record TilesPlayer : Type := {
  scroll_area : Carousel.ScrollableAlbumArea;
  tile_data : list TileData;
  lyrics : Lyrics.LyricsTile;
  current_album : CurrentAlbumTile;
  audio_player : Audio.AudioPlayer
}.

(** The captions of the current-album tile and of the drop tile (the
    source's are in Chinese). *)
Definition now_playing_caption : string := "Now playing".
Definition drop_here : string := "Drop music here".

(** [TilesPlayer.__init__] up to [load_music_library]: the tiles as
    [setup_ui] creates them, the player attached to the lyric tile. *)
Definition init : TilesPlayer :=
  {| scroll_area := Carousel.init;
     tile_data := [];
     lyrics := Lyrics.attached;
     current_album := {| playing := None; label := Text now_playing_caption |};
     audio_player := Audio.init |}.

(** [self.lyrics.update_lyrics(value)] for a value of the metadata.
    [update_lyrics] sets the cursor to -1; [parse_lrc] empties the track
    and returns when the value is false, as the empty string and the
    empty list are; on any other value it calls [split], which a string
    has and a list has not. *)
Definition lyrics_update_lyrics (value : LyricsValue) (st : Lyrics.LyricsTile)
  : result Lyrics.LyricsTile :=
  match value with
  | LyricsStr text => Ok (Lyrics.update_lyrics text st)
  | LyricsList [] =>
      Ok {| Lyrics.lyrics_lines := []; Lyrics.current_line := -1;
            Lyrics.lyrics_labels := Lyrics.lyrics_labels st;
            Lyrics.player := Lyrics.player st |}
  | LyricsList (_ :: _) => Raise AttributeError
  end.

(** [tile.music_path == music_path] *)
Definition same_path (music_path : string) (t : Carousel.AlbumTile) : bool :=
  match Carousel.music_path t with
  | Some p => String.eqb p music_path
  | None => false
  end.

(** The first tile of [scroll_area.tiles] with the given path, with its
    data. *)
Definition find_tile (music_path : string) (tp : TilesPlayer)
  : option (Carousel.AlbumTile * TileData) :=
  find (fun td => same_path music_path (fst td))
       (combine (Carousel.tiles (scroll_area tp)) (tile_data tp)).

Definition play_album (music_path : string) (tp : TilesPlayer)
  : result TilesPlayer :=
  shown <-
    match find_tile music_path tp with
    | Some (_, d) =>
        name <- FileName.last_part music_path ;;
        let title :=
          match md_title (metadata d) with Some t => t | None => name end in
        let label :=
          match md_cover (metadata d) with
          | Some data => Pixmap data
          | None => Text title
          end in
        let value :=
          match md_lyrics (metadata d) with
          | Some l => l
          | None => LyricsStr Lyrics.no_lyrics
          end in
        st <- lyrics_update_lyrics value (lyrics tp) ;;
        Ok ({| playing := Some music_path; label := label |}, st)
    | None => Ok (current_album tp, lyrics tp)
    end ;;
  player <-
    Audio.load_current_song
      {| Audio.playlist := [music_path]; Audio.current_index := 0;
         Audio.loaded := Audio.loaded (audio_player tp) |} ;;
  Ok {| scroll_area := scroll_area tp;
        tile_data := tile_data tp;
        lyrics := snd shown;
        current_album := fst shown;
        audio_player := player |}.

Inductive MediaStatus : Type :=
  | LoadedMedia
  | EndOfMedia
  | OtherStatus.

Definition with_audio (tp : TilesPlayer) (player : Audio.AudioPlayer)
  : TilesPlayer :=
  {| scroll_area := scroll_area tp; tile_data := tile_data tp;
     lyrics := lyrics tp; current_album := current_album tp;
     audio_player := player |}.

Definition with_lyrics (tp : TilesPlayer) (st : Lyrics.LyricsTile)
  : TilesPlayer :=
  {| scroll_area := scroll_area tp; tile_data := tile_data tp;
     lyrics := st; current_album := current_album tp;
     audio_player := audio_player tp |}.

Definition with_scroll_area (tp : TilesPlayer)
           (a : Carousel.ScrollableAlbumArea) : TilesPlayer :=
  {| scroll_area := a; tile_data := tile_data tp;
     lyrics := lyrics tp; current_album := current_album tp;
     audio_player := audio_player tp |}.

Definition on_status_changed (status : MediaStatus) (tp : TilesPlayer)
  : result TilesPlayer :=
  match status with
  | LoadedMedia => Ok tp
  | EndOfMedia =>
      player <- Audio.next_song (audio_player tp) ;;
      Ok (with_audio tp player)
  | OtherStatus => Ok tp
  end.

(** [scroll_area.add_tile(tile)] for a tile and its data. *)
Definition add_tile (tile : Carousel.AlbumTile) (d : TileData)
           (tp : TilesPlayer) : result TilesPlayer :=
  a <- Carousel.add_tile tile (scroll_area tp) ;;
  Ok {| scroll_area := a;
        tile_data := (tile_data tp ++ [d])%list;
        lyrics := lyrics tp; current_album := current_album tp;
        audio_player := audio_player tp |}.

Definition music_dir : string := "data".

(** [music_path != self.current_album.music_path] *)
Definition other_path (music_path : string) (tp : TilesPlayer) : bool :=
  match playing (current_album tp) with
  | Some p => negb (String.eqb music_path p)
  | None => true
  end.

(** The [for file in os.listdir(music_dir)] loop of
    [load_music_library]. [load_metadata] gives the metadata that the
    constructor of the tile reads from the file at a path. *)
Fixpoint add_library (load_metadata : string -> Metadata)
         (files : list string) (tp : TilesPlayer) : result TilesPlayer :=
  match files with
  | [] => Ok tp
  | file :: rest =>
      if FileName.supported file then
        let music_path := FileName.join music_dir file in
        if other_path music_path tp then
          tp' <- add_tile {| Carousel.title := file;
                             Carousel.music_path := Some music_path |}
                          {| metadata := load_metadata music_path;
                             connected := true |} tp ;;
          add_library load_metadata rest tp'
        else add_library load_metadata rest tp
      else add_library load_metadata rest tp
  end.

(** The tile that invites to drop music: no path, no metadata, and its
    signal connected to nothing. *)
Definition empty_tile : Carousel.AlbumTile :=
  {| Carousel.title := drop_here; Carousel.music_path := None |}.

(** [load_music_library]; [files] is what [os.listdir] returns. *)
Definition load_music_library (load_metadata : string -> Metadata)
           (files : list string) (tp : TilesPlayer) : result TilesPlayer :=
  tp' <- add_library load_metadata files tp ;;
  add_tile empty_tile {| metadata := no_metadata; connected := false |} tp'.

(** Whether the signal of the tile in the middle reaches [play_album]. *)
Definition center_connected (tp : TilesPlayer) : bool :=
  match py_mod (Carousel.current_index (scroll_area tp) + 1)
               (Carousel.len (scroll_area tp)) with
  | Ok i =>
      match nth_error (tile_data tp) (Z.to_nat i) with
      | Some d => connected d
      | None => false
      end
  | Raise _ => false
  end.

(** What the buttons of the carousel and of the controls, the media
    player and a click on the lyrics send to the window. The play/pause
    button and the sliders act on the media player alone, and a file
    dropped on a tile is not among these events. *)
Inductive Event : Type :=
  | ScrollLeft
  | ScrollRight
  | PlayCurrent
  | PrevSong
  | NextSong
  | PositionChanged (position : Z)
  | StatusChanged (status : MediaStatus)
  | LyricsClick (hit : nat -> bool).

(** The slot each event is connected to. *)
Definition handle (e : Event) (tp : TilesPlayer) : result TilesPlayer :=
  match e with
  | ScrollLeft =>
      a <- Carousel.scroll_left (scroll_area tp) ;; Ok (with_scroll_area tp a)
  | ScrollRight =>
      a <- Carousel.scroll_right (scroll_area tp) ;; Ok (with_scroll_area tp a)
  | PlayCurrent =>
      signals <- Carousel.play_current (scroll_area tp) ;;
      match signals with
      | music_path :: _ =>
          if center_connected tp then play_album music_path tp else Ok tp
      | [] => Ok tp
      end
  | PrevSong =>
      player <- Audio.prev_song (audio_player tp) ;; Ok (with_audio tp player)
  | NextSong =>
      player <- Audio.next_song (audio_player tp) ;; Ok (with_audio tp player)
  | PositionChanged position =>
      st <- Lyrics.update_position position (lyrics tp) ;; Ok (with_lyrics tp st)
  | StatusChanged status => on_status_changed status tp
  | LyricsClick hit =>
      st <- Lyrics.on_lyrics_click hit (lyrics tp) ;; Ok (with_lyrics tp st)
  end.

Fixpoint run (events : list Event) (tp : TilesPlayer) : result TilesPlayer :=
  match events with
  | [] => Ok tp
  | e :: rest => tp' <- handle e tp ;; run rest tp'
  end.

(** The window once constructed, for a listing of the music directory. *)
Definition start (load_metadata : string -> Metadata) (files : list string)
  : result TilesPlayer :=
  load_music_library load_metadata files init.

(** *** Vocabulary of the properties *)

(** The tiles that [load_music_library] makes of a listing when nothing
    is playing. *)
Definition library (files : list string) : list Carousel.AlbumTile :=
  map (fun file =>
         {| Carousel.title := file;
            Carousel.music_path := Some (FileName.join music_dir file) |})
      (filter FileName.supported files).

(** Whether the lyrics of a tile are a list with an entry: the value on
    which [parse_lrc] raises. *)
Definition list_lyrics (m : Metadata) : bool :=
  match md_lyrics m with
  | Some (LyricsList (_ :: _)) => true
  | _ => false
  end.

(** A window whose carousel holds one tile of the library, with the
    given metadata, before anything was played. *)
Definition one_tile (d : Metadata) : TilesPlayer :=
  {| scroll_area := Carousel.holding [Carousel.item0];
     tile_data := [{| metadata := d; connected := true |}];
     lyrics := Lyrics.attached;
     current_album := {| playing := None; label := Text now_playing_caption |};
     audio_player := Audio.init |}.

(** What holds of the window between two events, for a listing of the
    music directory none of whose files carries lyrics that are a list
    with an entry: the tiles are those of the library and the drop tile,
    none with such lyrics, the index of the carousel is on one of them,
    the lyric panel has a label for each line, the playlist is empty or
    holds one song at index 0, and every file of the playlist or handed
    to the media player is the path of a tile of the library. *)
Definition steady (files : list string) (tp : TilesPlayer) : Prop :=
  Carousel.tiles (scroll_area tp) = (library files ++ [empty_tile])%list /\
  Forall (fun d => list_lyrics (metadata d) = false) (tile_data tp) /\
  0 <= Carousel.current_index (scroll_area tp)
    < Carousel.len (scroll_area tp) /\
  (Lyrics.lyrics_lines (lyrics tp) <> [] ->
   List.length (Lyrics.lyrics_labels (lyrics tp)) =
   List.length (Lyrics.lyrics_lines (lyrics tp))) /\
  (Audio.playlist (audio_player tp) = [] \/
   exists p, Audio.playlist (audio_player tp) = [p] /\
             Audio.current_index (audio_player tp) = 0) /\
  Forall (fun p => In (Some p) (map Carousel.music_path (library files)))
         (Audio.playlist (audio_player tp) ++ Audio.loaded (audio_player tp)).

End App.

(** * Properties *)

(** ** Indexing *)

Lemma getitem_in_range {A : Type} (l : list A) (i : Z) :
  0 <= i < Z.of_nat (List.length l) ->
  exists x, getitem l i = Ok x /\ nth_error l (Z.to_nat i) = Some x.
Proof.
  intros Hi. unfold getitem.
  destruct (Z.ltb_spec i 0) as [Hneg | _]; [lia |].
  destruct (Z.leb_spec 0 i) as [_ | Hneg]; [| lia].
  destruct (Z.ltb_spec i (Z.of_nat (List.length l))) as [_ | Hbig]; [| lia].
  simpl. destruct (nth_error l (Z.to_nat i)) as [x |] eqn:Hnth.
  - exists x. split; reflexivity.
  - apply nth_error_None in Hnth. lia.
Qed.

Lemma py_mod_pos (a b : Z) : 0 < b -> py_mod a b = Ok (a mod b).
Proof.
  intros Hb. unfold py_mod. destruct (Z.eqb_spec b 0); [lia | reflexivity].
Qed.

(** ** The carousel *)

Module CarouselFacts.

Import Carousel.

Lemma item_defined (a : ScrollableAlbumArea) (i : Z) :
  0 < len a ->
  exists t, item a i = Some t /\
            getitem (tiles a) ((current_index a + i) mod len a) = Ok t.
Proof.
  intros Hlen. unfold item.
  destruct (getitem_in_range (tiles a) ((current_index a + i) mod len a))
    as [t [Hget Hnth]].
  - apply Z.mod_pos_bound. exact Hlen.
  - exists t. split; assumption.
Qed.

Lemma show_tiles_step (a : ScrollableAlbumArea) (i : Z) (columns : list Z)
      (grid : list (Z * AlbumTile)) (t : AlbumTile) :
  0 < len a -> item a i = Some t ->
  show_tiles a (i :: columns) grid = show_tiles a columns (grid ++ [(i, t)]).
Proof.
  intros Hlen Hitem. simpl. rewrite py_mod_pos by exact Hlen. simpl.
  pose proof (Z.mod_pos_bound (current_index a + i) (len a) Hlen) as Hb.
  destruct (Z.ltb_spec ((current_index a + i) mod len a) (len a)); [| lia].
  destruct (item_defined a i Hlen) as [t' [Hitem' Hget]].
  rewrite Hget. simpl. congruence.
Qed.

(** With at least one tile, [update_visible_tiles] fills the three
    columns with the tiles at [current_index], [current_index + 1] and
    [current_index + 2], each taken modulo the number of tiles. *)
Lemma update_visible_tiles_window (a : ScrollableAlbumArea) :
  0 < len a ->
  exists t0 t1 t2,
    item a 0 = Some t0 /\ item a 1 = Some t1 /\ item a 2 = Some t2 /\
    update_visible_tiles a =
      Ok {| tiles := tiles a; current_index := current_index a;
            layout := [(0, t0); (1, t1); (2, t2)] |}.
Proof.
  intros Hlen.
  destruct (item_defined a 0 Hlen) as [t0 [H0 _]].
  destruct (item_defined a 1 Hlen) as [t1 [H1 _]].
  destruct (item_defined a 2 Hlen) as [t2 [H2 _]].
  exists t0, t1, t2. repeat split; try assumption.
  unfold update_visible_tiles.
  rewrite (show_tiles_step a 0 _ _ t0 Hlen H0).
  rewrite (show_tiles_step a 1 _ _ t1 Hlen H1).
  rewrite (show_tiles_step a 2 _ _ t2 Hlen H2).
  reflexivity.
Qed.

(** On a carousel with no tile the modulo of [update_visible_tiles]
    divides by zero; [add_tile] and the scroll methods never call it
    there. *)
Lemma update_visible_tiles_empty (a : ScrollableAlbumArea) :
  tiles a = [] -> update_visible_tiles a = Raise ZeroDivisionError.
Proof.
  intros Hnil. unfold update_visible_tiles. simpl. unfold len.
  rewrite Hnil. reflexivity.
Qed.

Lemma len_set_index (a : ScrollableAlbumArea) (i : Z) :
  len (set_index a i) = len a.
Proof. reflexivity. Qed.

(** A scroll step to index [i] keeps the tiles and lands on [i]. *)
Lemma scroll_to (a : ScrollableAlbumArea) (i : Z) :
  3 < len a ->
  exists b, update_visible_tiles (set_index a i) = Ok b /\
            tiles b = tiles a /\ current_index b = i /\
            (exists t0 t1 t2,
                item b 0 = Some t0 /\ item b 1 = Some t1 /\
                item b 2 = Some t2 /\ window b = [t0; t1; t2]).
Proof.
  intros Hlen.
  destruct (update_visible_tiles_window (set_index a i))
    as [t0 [t1 [t2 [H0 [H1 [H2 Hupd]]]]]].
  - rewrite len_set_index. lia.
  - eexists. split; [exact Hupd |]. simpl. repeat split.
    exists t0, t1, t2. repeat split; assumption.
Qed.

(** C6. With three tiles or fewer [scroll_left] and [scroll_right]
    leave the carousel as it is; with more, they keep the tiles and set
    [current_index] to [(current_index - 1) mod len], respectively
    [(current_index + 1) mod len]. *)
Theorem scroll_left_right (a : ScrollableAlbumArea) :
  (len a <= 3 -> scroll_left a = Ok a /\ scroll_right a = Ok a) /\
  (3 < len a ->
   exists l r,
     scroll_left a = Ok l /\ scroll_right a = Ok r /\
     tiles l = tiles a /\
     current_index l = (current_index a - 1) mod len a /\
     tiles r = tiles a /\
     current_index r = (current_index a + 1) mod len a).
Proof.
  split; intros Hlen; unfold scroll_left, scroll_right.
  - destruct (Z.leb_spec (len a) 3); [split; reflexivity | lia].
  - destruct (Z.leb_spec (len a) 3); [lia |].
    rewrite !py_mod_pos by lia. simpl.
    destruct (scroll_to a ((current_index a - 1) mod len a) Hlen)
      as [l [Hl [Htl [Hil _]]]].
    destruct (scroll_to a ((current_index a + 1) mod len a) Hlen)
      as [r [Hr [Htr [Hir _]]]].
    exists l, r. repeat split; assumption.
Qed.

Lemma scroll_left_right_witness :
  (len (holding [item0; item1]) <= 3 /\
   scroll_left (holding [item0; item1]) = Ok (holding [item0; item1]) /\
   scroll_right (holding [item0; item1]) = Ok (holding [item0; item1])) /\
  (3 < len (holding [item0; item1; item2; item3; item4]) /\
   exists l r,
     scroll_left (holding [item0; item1; item2; item3; item4]) = Ok l /\
     scroll_right (holding [item0; item1; item2; item3; item4]) = Ok r /\
     tiles l = [item0; item1; item2; item3; item4] /\
     current_index l = (0 - 1) mod 5 /\
     tiles r = [item0; item1; item2; item3; item4] /\
     current_index r = (0 + 1) mod 5).
Proof.
  split.
  - split.
    + vm_compute. discriminate.
    + apply (proj1 (scroll_left_right (holding [item0; item1]))).
      vm_compute. discriminate.
  - split.
    + reflexivity.
    + apply (proj2 (scroll_left_right
                      (holding [item0; item1; item2; item3; item4]))).
      reflexivity.
Defined.

(** C7, where the code departs from it. With two tiles the three
    columns are filled with the first tile, the second, and the first
    again, and with one tile with that tile three times: the window is
    not the set of tiles without repetition. The test [idx < len] that
    would leave a column empty never fails, [idx] being a remainder
    modulo [len]. *)
Theorem update_visible_tiles_few_tiles (t0 t1 : AlbumTile) :
  (exists b, update_visible_tiles (holding [t0; t1]) = Ok b /\
             window b = [t0; t1; t0]) /\
  (exists b, update_visible_tiles (holding [t0]) = Ok b /\
             window b = [t0; t0; t0]).
Proof.
  split; eexists; split; reflexivity.
Qed.

(** With exactly three tiles, at rest, the window is the three tiles in
    the order they were added. *)
Lemma update_visible_tiles_three_tiles (t0 t1 t2 : AlbumTile) :
  exists b, update_visible_tiles (holding [t0; t1; t2]) = Ok b /\
            window b = [t0; t1; t2].
Proof.
  eexists; split; reflexivity.
Qed.

(** C8 as stated fails: a carousel holding one tile has no centre. *)
Lemma center_tile_one_tile :
  tiles (holding [item0]) <> [] /\ center_tile (holding [item0]) = Ok None.
Proof.
  split; [discriminate | reflexivity].
Qed.

(** C8, amended. [play_current] chooses a centre only when the carousel
    holds more than three tiles: it is then the tile one place after
    [current_index] (modulo the number of tiles), the one in the middle
    column of the window; with three tiles or fewer, none or some,
    nothing is chosen and no signal is emitted. *)
Theorem center_tile_spec (a : ScrollableAlbumArea) :
  (len a <= 3 -> center_tile a = Ok None /\ play_current a = Ok []) /\
  (3 < len a ->
   exists t,
     center_tile a = Ok (Some t) /\ item a 1 = Some t /\
     forall b, update_visible_tiles a = Ok b -> nth_error (window b) 1 = Some t).
Proof.
  split; intros Hlen; unfold play_current, center_tile.
  - destruct (Z.leb_spec (len a) 3); [split; reflexivity | lia].
  - destruct (Z.leb_spec (len a) 3); [lia |].
    rewrite py_mod_pos by lia. simpl.
    destruct (item_defined a 1) as [t [Hitem Hget]]; [lia |].
    rewrite Hget. simpl. exists t. repeat split; [exact Hitem |].
    intros b Hb.
    destruct (update_visible_tiles_window a)
      as [t0 [t1 [t2 [_ [H1 [_ Hupd]]]]]]; [lia |].
    rewrite Hupd in Hb. injection Hb as <-. simpl. congruence.
Qed.

Lemma center_tile_spec_witness :
  (len (holding [item0; item1; item2]) <= 3 /\
   center_tile (holding [item0; item1; item2]) = Ok None /\
   play_current (holding [item0; item1; item2]) = Ok []) /\
  (3 < len (holding [item0; item1; item2; item3]) /\
   exists t,
     center_tile (holding [item0; item1; item2; item3]) = Ok (Some t) /\
     item (holding [item0; item1; item2; item3]) 1 = Some t /\
     forall b,
       update_visible_tiles (holding [item0; item1; item2; item3]) = Ok b ->
       nth_error (window b) 1 = Some t).
Proof.
  split.
  - split.
    + vm_compute. discriminate.
    + apply (proj1 (center_tile_spec (holding [item0; item1; item2]))).
      vm_compute. discriminate.
  - split.
    + reflexivity.
    + apply (proj2 (center_tile_spec (holding [item0; item1; item2; item3]))).
      reflexivity.
Defined.

(** C9 as stated fails: from five tiles at rest, one [scroll_right]
    and then two [scroll_left] do not show the first three tiles
    again. *)
Lemma right_then_two_lefts :
  (r <- scroll_right (holding [item0; item1; item2; item3; item4]) ;;
   l <- scroll_left r ;;
   l' <- scroll_left l ;;
   Ok (window l'))
  <> Ok [item0; item1; item2].
Proof.
  vm_compute. discriminate.
Qed.

(** C9, amended. Five tiles at rest show the first three; after
    [scroll_right] the second to the fourth; one [scroll_left] from
    there shows the first three again, and a second one wraps round to
    the last tile followed by the first two. *)
Theorem five_tiles_rotation (t0 t1 t2 t3 t4 : AlbumTile) :
  exists a0 a1 a2 a3,
    update_visible_tiles (holding [t0; t1; t2; t3; t4]) = Ok a0 /\
    window a0 = [t0; t1; t2] /\
    scroll_right a0 = Ok a1 /\ window a1 = [t1; t2; t3] /\
    scroll_left a1 = Ok a2 /\ window a2 = [t0; t1; t2] /\
    scroll_left a2 = Ok a3 /\ window a3 = [t4; t0; t1] /\
    current_index a3 = 4.
Proof.
  do 4 eexists. repeat split; reflexivity.
Qed.

End CarouselFacts.

(** ** The stable sort *)

Section StableSortFacts.

Context {A : Type} (key : A -> Z).

Lemma insert_by_Forall (P : A -> Prop) (x : A) (l : list A) :
  P x -> Forall P l -> Forall P (insert_by key x l).
Proof.
  intros Hx Hl. induction Hl as [| y l Hy Hl IH]; simpl.
  - constructor; [exact Hx | constructor].
  - destruct (key x <=? key y).
    + constructor; [exact Hx |]. constructor; assumption.
    + constructor; assumption.
Qed.

Lemma insert_by_sorted (x : A) (l : list A) :
  StronglySorted (le_by key) l -> StronglySorted (le_by key) (insert_by key x l).
Proof.
  intros Hs. induction Hs as [| y l Hs IH Hy]; simpl.
  - constructor; constructor.
  - destruct (Z.leb_spec (key x) (key y)) as [Hxy | Hyx].
    + constructor.
      * constructor; assumption.
      * constructor; [exact Hxy |].
        eapply Forall_impl; [| exact Hy].
        intros z Hz. unfold le_by in *. lia.
    + constructor; [exact IH |].
      apply insert_by_Forall; [unfold le_by; lia | exact Hy].
Qed.

Lemma sort_by_sorted (l : list A) : StronglySorted (le_by key) (sort_by key l).
Proof.
  induction l as [| x l IH]; simpl.
  - constructor.
  - apply insert_by_sorted. exact IH.
Qed.

(** Inserting [x] puts it in front of the elements of its own key. *)
Lemma filter_insert_by (t : Z) (x : A) (l : list A) :
  filter (fun y => key y =? t) (insert_by key x l) =
  filter (fun y => key y =? t) (x :: l).
Proof.
  induction l as [| y l IH]; simpl; [reflexivity |].
  destruct (Z.leb_spec (key x) (key y)) as [Hxy | Hyx]; [reflexivity |].
  simpl. rewrite IH. simpl.
  destruct (Z.eqb_spec (key x) t), (Z.eqb_spec (key y) t);
    try reflexivity; lia.
Qed.

(** Stability: the elements of one key come out in the order they went
    in. *)
Lemma sort_by_stable (t : Z) (l : list A) :
  filter (fun y => key y =? t) (sort_by key l) =
  filter (fun y => key y =? t) l.
Proof.
  induction l as [| x l IH]; simpl; [reflexivity |].
  rewrite filter_insert_by. simpl. rewrite IH. reflexivity.
Qed.

Lemma insert_by_perm (x : A) (l : list A) :
  Permutation (insert_by key x l) (x :: l).
Proof.
  induction l as [| y l IH]; simpl; [apply Permutation_refl |].
  destruct (key x <=? key y); [apply Permutation_refl |].
  eapply Permutation_trans; [apply perm_skip; exact IH | apply perm_swap].
Qed.

Lemma sort_by_perm (l : list A) : Permutation (sort_by key l) l.
Proof.
  induction l as [| x l IH]; simpl; [constructor |].
  eapply Permutation_trans; [apply insert_by_perm |].
  apply perm_skip. exact IH.
Qed.

(** A list in ascending key order is determined by the lists of its
    elements of each key: whatever stable sort Python runs, its result
    is [sort_by]. *)
Lemma sorted_stable_unique (l1 l2 : list A) :
  StronglySorted (le_by key) l1 -> StronglySorted (le_by key) l2 ->
  (forall t, filter (fun y => key y =? t) l1 = filter (fun y => key y =? t) l2) ->
  l1 = l2.
Proof.
  intros H1. revert l2.
  induction H1 as [| x l1 H1 IH Hx]; intros l2 H2 Hf.
  - destruct l2 as [| y l2]; [reflexivity |].
    specialize (Hf (key y)). simpl in Hf.
    rewrite Z.eqb_refl in Hf. discriminate.
  - destruct H2 as [| y l2 H2 Hy].
    + specialize (Hf (key x)). simpl in Hf.
      rewrite Z.eqb_refl in Hf. discriminate.
    + assert (Hin : forall (a : A) (l l' : list A),
                 filter (fun z => key z =? key a) (a :: l) =
                 filter (fun z => key z =? key a) l' ->
                 exists b, In b l' /\ key b = key a).
      { intros a l l' He. simpl in He. rewrite Z.eqb_refl in He.
        assert (Ha : In a (filter (fun z => key z =? key a) l'))
          by (rewrite <- He; left; reflexivity).
        apply filter_In in Ha. destruct Ha as [Ha _].
        exists a. split; [exact Ha | reflexivity]. }
      assert (Hxy : key x = key y).
      { destruct (Hin x l1 (y :: l2) (Hf (key x))) as [b [[<- | Hb] Hk]].
        - symmetry. exact Hk.
        - destruct (Hin y l2 (x :: l1) (eq_sym (Hf (key y))))
            as [c [[<- | Hc] Hk']].
          + exact Hk'.
          + rewrite Forall_forall in Hx, Hy.
            specialize (Hx c Hc). specialize (Hy b Hb).
            unfold le_by in *. lia. }
      pose proof (Hf (key x)) as Hfx. simpl in Hfx.
      rewrite <- Hxy, Z.eqb_refl in Hfx.
      injection Hfx as Hhead Htail. subst y. f_equal.
      apply IH; [exact H2 |].
      intros t. specialize (Hf t). simpl in Hf.
      destruct (key x =? t); [injection Hf as Hf |]; exact Hf.
Qed.

End StableSortFacts.

(** ** The lyric track: order, position, seek *)

Module LyricsFacts.

Import Lyrics.

Lemma parse_lrc_lines (lrc_text : string) (st : LyricsTile) :
  lyrics_lines (parse_lrc lrc_text st) = sort_by fst (collect_lines lrc_text).
Proof.
  unfold parse_lrc. destruct lrc_text as [| c s]; reflexivity.
Qed.

Lemma parse_lrc_current_line (lrc_text : string) (st : LyricsTile) :
  current_line (parse_lrc lrc_text st) = current_line st.
Proof.
  unfold parse_lrc. destruct lrc_text as [| c s]; reflexivity.
Qed.

(** C5. Whatever the text, the lines [parse_lrc] leaves are in
    ascending order of timestamp, and those of one timestamp are in the
    order in which the parsing loop produced them. *)
Theorem parse_lrc_sorted_stable (lrc_text : string) (st : LyricsTile) :
  sorted_by_time (lyrics_lines (parse_lrc lrc_text st)) /\
  (forall t, at_time t (lyrics_lines (parse_lrc lrc_text st)) =
             at_time t (collect_lines lrc_text)) /\
  Permutation (lyrics_lines (parse_lrc lrc_text st)) (collect_lines lrc_text).
Proof.
  rewrite parse_lrc_lines. split; [| split].
  - apply (sort_by_sorted (A := LyricLine)).
  - intros t. apply (sort_by_stable (A := LyricLine)).
  - apply sort_by_perm.
Qed.

(** The scan stops at the first line past [position]. *)
Lemma locate_from_leading (i : Z) (lines : list LyricLine) (position : Z) :
  locate_from i (i - 1) lines position =
  i - 1 + Z.of_nat (leading lines position).
Proof.
  revert i. induction lines as [| [time text] rest IH]; intros i; simpl.
  - lia.
  - destruct (time >? position); [lia |].
    replace i with (i + 1 - 1) at 2 by lia. rewrite IH. lia.
Qed.

Lemma locate_leading (lines : list LyricLine) (position : Z) :
  locate lines position = Z.of_nat (leading lines position) - 1.
Proof.
  unfold locate. rewrite (locate_from_leading 0). lia.
Qed.

Lemma leading_le_length (lines : list LyricLine) (position : Z) :
  (leading lines position <= List.length lines)%nat.
Proof.
  induction lines as [| l rest IH]; simpl; [lia |].
  destruct (fst l >? position); simpl; lia.
Qed.

Lemma leading_at_or_before (lines : list LyricLine) (position : Z)
      (n : nat) (l : LyricLine) :
  (n < leading lines position)%nat -> nth_error lines n = Some l ->
  fst l <= position.
Proof.
  revert n. induction lines as [| h rest IH]; intros n Hn Hnth; simpl in *.
  - lia.
  - destruct (Z.gtb_spec (fst h) position) as [Hgt | Hle]; [lia |].
    destruct n as [| n]; simpl in Hnth.
    + injection Hnth as <-. exact Hle.
    + apply (IH n); [lia | exact Hnth].
Qed.

Lemma leading_after (lines : list LyricLine) (position : Z)
      (m : nat) (l : LyricLine) :
  sorted_by_time lines ->
  (leading lines position <= m)%nat -> nth_error lines m = Some l ->
  position < fst l.
Proof.
  intros Hs. revert m.
  induction Hs as [| h rest Hs IH Hh]; intros m Hm Hnth; simpl in *.
  - destruct m; discriminate.
  - destruct (Z.gtb_spec (fst h) position) as [Hgt | Hle].
    + destruct m as [| m]; simpl in Hnth.
      * injection Hnth as <-. lia.
      * apply nth_error_In in Hnth. rewrite Forall_forall in Hh.
        specialize (Hh l Hnth). unfold le_by in Hh. lia.
    + destruct m as [| m]; [lia |]. simpl in Hnth.
      apply (IH m); [lia | exact Hnth].
Qed.

(** On lines in ascending order the scan of [update_position] finds
    the last line at or before [position]. *)
Lemma locate_last (lines : list LyricLine) (position : Z) :
  sorted_by_time lines ->
  last_at_or_before lines position (locate lines position).
Proof.
  intros Hs. rewrite locate_leading.
  destruct (leading lines position) as [| k] eqn:Hk.
  - left. split; [reflexivity |].
    apply Forall_forall. intros l Hin.
    apply In_nth_error in Hin. destruct Hin as [m Hm].
    apply (leading_after lines position m l Hs); [lia | exact Hm].
  - right.
    pose proof (leading_le_length lines position) as Hlen.
    destruct (nth_error lines k) as [l |] eqn:Hnth.
    + exists k, l. repeat split.
      * lia.
      * exact Hnth.
      * apply (leading_at_or_before lines position k l); [lia | exact Hnth].
      * intros m l' Hm Hnth'.
        apply (leading_after lines position m l' Hs); [lia | exact Hnth'].
    + apply nth_error_None in Hnth. lia.
Qed.

Lemma length_highlight_from (i current : Z) (labels : list Label) :
  List.length (highlight_from i current labels) = List.length labels.
Proof.
  revert i. induction labels as [| l labels IH]; intros i; simpl;
    [reflexivity | rewrite IH; reflexivity].
Qed.

Lemma locate_range (lines : list LyricLine) (position : Z) :
  -1 <= locate lines position < Z.of_nat (List.length lines).
Proof.
  rewrite locate_leading.
  pose proof (leading_le_length lines position). lia.
Qed.

(** On a tile with one label for each line [update_position] raises
    nothing: the lines stay, the labels stay as many, and the cursor is
    where the scan stopped. *)
Lemma update_position_ok (position : Z) (st : LyricsTile) :
  lyrics_lines st <> [] ->
  List.length (lyrics_labels st) = List.length (lyrics_lines st) ->
  exists st',
    update_position position st = Ok st' /\
    lyrics_lines st' = lyrics_lines st /\
    current_line st' = locate (lyrics_lines st) position /\
    List.length (lyrics_labels st') = List.length (lyrics_labels st).
Proof.
  intros Hne Hlen. unfold update_position.
  destruct (lyrics_lines st) as [| l rest] eqn:Hl; [contradiction |].
  destruct (Z.eqb_spec (locate (l :: rest) position) (current_line st))
    as [Heq | Hneq]; simpl negb; cbv iota.
  - exists st. repeat split; [exact Hl | symmetry; exact Heq].
  - pose proof (locate_range (l :: rest) position) as Hr.
    destruct (Z.geb_spec (locate (l :: rest) position) 0) as [Hge | Hlt].
    + destruct (getitem_in_range
                  (highlight_from 0 (locate (l :: rest) position)
                                  (lyrics_labels st))
                  (locate (l :: rest) position)) as [x [Hget _]].
      * rewrite length_highlight_from, Hlen. lia.
      * rewrite Hget. simpl. eexists. repeat split. simpl.
        apply length_highlight_from.
    + simpl. eexists. repeat split. simpl. apply length_highlight_from.
Qed.

Lemma update_position_no_line (position : Z) (st : LyricsTile) :
  lyrics_lines st = [] -> update_position position st = Ok st.
Proof.
  intros Hnil. unfold update_position. rewrite Hnil. reflexivity.
Qed.

(** [update_lyrics] installs a track as the design document describes
    one, and [update_position] keeps it so. *)
Lemma update_lyrics_track_ok (text : string) (st : LyricsTile) :
  track_ok (update_lyrics text st).
Proof.
  unfold track_ok, update_lyrics. split; [| split].
  - rewrite parse_lrc_lines. apply (sort_by_sorted (A := LyricLine)).
  - intros _. rewrite parse_lrc_current_line. reflexivity.
  - rewrite parse_lrc_lines. unfold parse_lrc.
    destruct text as [| c text]; simpl nonempty; cbv iota; simpl negb;
      cbv iota.
    + intros Hne. contradiction.
    + unfold update_lyrics_display. simpl.
      destruct (sort_by fst (collect_lines (String c text))) as [| l rest];
        intros Hne; [contradiction |].
      simpl. rewrite length_map. reflexivity.
Qed.

Lemma update_position_track_ok (position : Z) (st st' : LyricsTile) :
  track_ok st -> update_position position st = Ok st' -> track_ok st'.
Proof.
  intros [Hs [Hc Hl]] Hupd.
  destruct (lyrics_lines st) as [| l rest] eqn:Hlines.
  - rewrite update_position_no_line in Hupd by exact Hlines.
    injection Hupd as <-. unfold track_ok. rewrite Hlines.
    repeat split; [exact Hs | exact Hc | intros Hne; contradiction].
  - destruct (update_position_ok position st) as [st2 [H2 [Hl2 [_ Hlab]]]].
    + rewrite Hlines. discriminate.
    + rewrite Hlines. apply Hl. discriminate.
    + rewrite H2 in Hupd. injection Hupd as <-. unfold track_ok.
      rewrite Hl2, Hlab, Hlines. repeat split.
      * exact Hs.
      * discriminate.
      * intros _. apply Hl. discriminate.
Qed.

(** A tile on which no track was loaded yet has no line and its cursor
    at 0, which [update_position] leaves there. *)
Lemma update_position_init (position : Z) :
  cursor_after position init = Some 0.
Proof. reflexivity. Qed.

Lemma cursor_after_lines (position : Z) (st : LyricsTile) :
  sorted_by_time (lyrics_lines st) -> lyrics_lines st <> [] ->
  List.length (lyrics_labels st) = List.length (lyrics_lines st) ->
  exists r,
    cursor_after position st = Some r /\
    last_at_or_before (lyrics_lines st) position r.
Proof.
  intros Hs Hne Hl. unfold cursor_after.
  destruct (update_position_ok position st Hne Hl)
    as [st' [Hupd [_ [Hcur _]]]].
  rewrite Hupd. exists (current_line st'). split; [reflexivity |].
  rewrite Hcur. apply locate_last. exact Hs.
Qed.

Lemma cursor_after_no_line (position : Z) (st : LyricsTile) :
  lyrics_lines st = [] -> cursor_after position st = Some (current_line st).
Proof.
  intros Hnil. unfold cursor_after.
  rewrite update_position_no_line by exact Hnil. reflexivity.
Qed.

Lemma before_all (lines : list LyricLine) (position r : Z) :
  last_at_or_before lines position r -> position < 0 ->
  Forall (fun l : LyricLine => 0 <= fst l) lines -> r = -1.
Proof.
  intros Hlast Hneg Hall.
  destruct Hlast as [[Hm _] | [n [l [_ [Hnth [Hle _]]]]]]; [exact Hm |].
  apply nth_error_In in Hnth. rewrite Forall_forall in Hall.
  specialize (Hall l Hnth). simpl in Hall. lia.
Qed.

(** Position updates, one after the other, keep a track a track: none
    raises, and the lines stay. *)
Lemma update_positions_track_ok (positions : list Z) :
  forall st : LyricsTile,
    track_ok st ->
    exists st',
      Calls.update_positions positions st = Ok st' /\
      track_ok st' /\ lyrics_lines st' = lyrics_lines st.
Proof.
  induction positions as [| p ps IH]; intros st Hok.
  - exists st. repeat split; apply Hok.
  - assert (Hstep : exists st1, update_position p st = Ok st1 /\
                                lyrics_lines st1 = lyrics_lines st).
    { pose proof Hok as [_ [_ Hlabels]].
      destruct (lyrics_lines st) as [| l rest] eqn:Hlines.
      - exists st. rewrite update_position_no_line by exact Hlines.
        split; [reflexivity | exact Hlines].
      - destruct (update_position_ok p st) as [st1 [H1 [Hl1 _]]].
        + rewrite Hlines. discriminate.
        + rewrite Hlines. apply Hlabels. discriminate.
        + exists st1. split; [exact H1 |]. rewrite Hl1. exact Hlines. }
    destruct Hstep as [st1 [H1 Hl1]].
    destruct (IH st1 (update_position_track_ok p st st1 Hok H1))
      as [st2 [H2 [Hok2 Hl2]]].
    exists st2. cbn [Calls.update_positions]. rewrite H1. cbn [bind].
    split; [exact H2 |]. split; [exact Hok2 | congruence].
Qed.

(** A tile on which no text was loaded yet has no line and its cursor at
    0: [update_position] returns at once and the cursor is not -1. *)
Lemma fresh_tile_cursor :
  lyrics_lines init = [] /\ cursor_after 1500 init = Some 0 /\
  lyrics_lines attached = [] /\ cursor_after 1500 attached = Some 0.
Proof. repeat split. Qed.

(** C1. On every track that has a line (lines in ascending order, one
    label for each) and for every position, [update_position] leaves the
    cursor on the index of the last line whose timestamp is at most the
    position, and on -1 when no line qualifies: so for a negative
    position when no timestamp is negative. On a track with no line it
    returns at once and the cursor stays where it was. After
    [update_lyrics], whatever the text and whatever position updates
    came in between, the cursor is the index of that last line, and -1
    when the text gave no line. *)
Theorem update_position_locates (position : Z) :
  (forall st : LyricsTile,
      sorted_by_time (lyrics_lines st) -> lyrics_lines st <> [] ->
      List.length (lyrics_labels st) = List.length (lyrics_lines st) ->
      exists r,
        cursor_after position st = Some r /\
        last_at_or_before (lyrics_lines st) position r /\
        (position < 0 ->
         Forall (fun l : LyricLine => 0 <= fst l) (lyrics_lines st) ->
         r = -1)) /\
  (forall st : LyricsTile,
      lyrics_lines st = [] ->
      cursor_after position st = Some (current_line st)) /\
  (forall (text : string) (st0 : LyricsTile) (before : list Z),
      exists st r,
        Calls.update_positions before (update_lyrics text st0) = Ok st /\
        lyrics_lines st = lyrics_lines (update_lyrics text st0) /\
        cursor_after position st = Some r /\
        last_at_or_before (lyrics_lines st) position r /\
        (lyrics_lines st = [] -> r = -1) /\
        (position < 0 ->
         Forall (fun l : LyricLine => 0 <= fst l) (lyrics_lines st) ->
         r = -1)).
Proof.
  split; [| split].
  - intros st Hs Hne Hl.
    destruct (cursor_after_lines position st Hs Hne Hl) as [r [Hr Hlast]].
    exists r. split; [exact Hr |]. split; [exact Hlast |].
    apply before_all. exact Hlast.
  - intros st. apply cursor_after_no_line.
  - intros text st0 before.
    destruct (update_positions_track_ok before (update_lyrics text st0)
                (update_lyrics_track_ok text st0))
      as [st [Hrun [[Hs [Hc Hl]] Hlines]]].
    assert (Hlast : exists r, cursor_after position st = Some r /\
                              last_at_or_before (lyrics_lines st) position r /\
                              (lyrics_lines st = [] -> r = -1)).
    { destruct (lyrics_lines st) as [| l rest] eqn:El.
      - exists (current_line st). rewrite cursor_after_no_line by exact El.
        split; [reflexivity |]. rewrite (Hc eq_refl).
        split; [| reflexivity]. left. split; [reflexivity | constructor].
      - destruct (cursor_after_lines position st) as [r [Hr Hlast]].
        + rewrite El. exact Hs.
        + rewrite El. discriminate.
        + rewrite El. apply Hl. discriminate.
        + exists r. split; [exact Hr |]. rewrite El in Hlast.
          split; [exact Hlast | discriminate]. }
    destruct Hlast as [r [Hr [Hlast Hnil]]].
    exists st, r. split; [exact Hrun |]. split; [exact Hlines |].
    split; [exact Hr |]. split; [exact Hlast |]. split; [exact Hnil |].
    apply before_all. exact Hlast.
Qed.

Lemma update_position_locates_witness :
  (sorted_by_time (lyrics_lines abc_track) /\
   lyrics_lines abc_track <> [] /\
   List.length (lyrics_labels abc_track)
   = List.length (lyrics_lines abc_track) /\
   exists r,
     cursor_after 1500 abc_track = Some r /\
     last_at_or_before (lyrics_lines abc_track) 1500 r) /\
  (lyrics_lines untimed = [] /\ cursor_after 1500 untimed = Some (-1)).
Proof.
  assert (Hs : sorted_by_time (lyrics_lines abc_track)).
  { repeat constructor; unfold le_by; simpl; lia. }
  assert (Hne : lyrics_lines abc_track <> []) by discriminate.
  split.
  - split; [exact Hs |]. split; [exact Hne |]. split; [reflexivity |].
    destruct (proj1 (update_position_locates 1500) abc_track Hs Hne eq_refl)
      as [r [Hr [Hlast _]]].
    exists r. split; assumption.
  - split; [reflexivity |].
    exact (proj1 (proj2 (update_position_locates 1500)) untimed eq_refl).
Defined.

(** The positions the design document tries on that track. *)
Example update_position_abc :
  cursor_after 1500 abc_track = Some 1 /\
  cursor_after 0 abc_track = Some 0 /\
  cursor_after (-1) abc_track = Some (-1).
Proof. repeat split. Qed.

(** *** Click to seek *)

Lemma seek_line_in_range (i : nat) (st : LyricsTile) (l : LyricLine) :
  nth_error (lyrics_lines st) i = Some l ->
  seek_line i st =
  Ok (match player st with
      | Some _ => with_player st (fst l)
      | None => st
      end).
Proof.
  intros Hnth. unfold seek_line.
  assert (Hlt : (i < List.length (lyrics_lines st))%nat)
    by (apply nth_error_Some; congruence).
  destruct (Nat.ltb_spec i (List.length (lyrics_lines st))); [| lia].
  destruct (getitem_in_range (lyrics_lines st) (Z.of_nat i))
    as [x [Hget Hx]]; [lia |].
  rewrite Nat2Z.id in Hx. rewrite Hget. simpl.
  assert (x = l) by congruence. subst x.
  destruct (player st); reflexivity.
Qed.

(** A click changes neither the lines, nor the cursor, nor the labels. *)
Lemma on_lyrics_click_track_ok (hit : nat -> bool) (st st' : LyricsTile) :
  track_ok st -> on_lyrics_click hit st = Ok st' -> track_ok st'.
Proof.
  intros Hok Hclick. unfold on_lyrics_click in Hclick.
  destruct (first_hit hit 0 (lyrics_labels st)) as [i |];
    [| injection Hclick as <-; exact Hok].
  destruct (nth_error (lyrics_lines st) i) as [l |] eqn:Hnth.
  - rewrite (seek_line_in_range i st l Hnth) in Hclick.
    injection Hclick as <-. destruct (player st); exact Hok.
  - apply nth_error_None in Hnth. unfold seek_line in Hclick.
    destruct (Nat.ltb_spec i (List.length (lyrics_lines st))); [lia |].
    injection Hclick as <-. exact Hok.
Qed.




End LyricsFacts.

(** ** Strings *)

Module PyStrFacts.

Import PyStr.

Lemma length_app (a b : string) :
  String.length (a ++ b) = (String.length a + String.length b)%nat.
Proof.
  induction a as [| c a IH]; simpl; [reflexivity | rewrite IH; reflexivity].
Qed.

Lemma app_assoc (a b c : string) : (a ++ b) ++ c = a ++ (b ++ c).
Proof.
  induction a as [| x a IH]; simpl; [reflexivity | rewrite IH; reflexivity].
Qed.

Lemma app_empty_r (a : string) : a ++ "" = a.
Proof.
  induction a as [| x a IH]; simpl; [reflexivity | rewrite IH; reflexivity].
Qed.

Lemma take_app (a b : string) : take (String.length a) (a ++ b) = a.
Proof.
  induction a as [| c a IH]; simpl.
  - destruct b; reflexivity.
  - rewrite IH. reflexivity.
Qed.

Lemma take_length (s : string) : take (String.length s) s = s.
Proof.
  rewrite <- (app_empty_r s) at 2. apply take_app.
Qed.

Lemma drop_app (a b : string) : drop (String.length a) (a ++ b) = b.
Proof.
  induction a as [| c a IH]; simpl; [destruct b; reflexivity | exact IH].
Qed.

Lemma length_take_le (n : nat) (s : string) :
  (String.length (take n s) <= String.length s)%nat.
Proof.
  revert s. induction n as [| n IH]; intros [| c s]; simpl; try lia.
  specialize (IH s). lia.
Qed.

Lemma length_drop (n : nat) (s : string) :
  String.length (drop n s) = (String.length s - n)%nat.
Proof.
  revert s. induction n as [| n IH]; intros [| c s]; simpl; try lia.
  apply IH.
Qed.

Lemma length_lstrip_le (s : string) :
  (String.length (lstrip s) <= String.length s)%nat.
Proof.
  induction s as [| c s IH]; simpl; [lia |].
  destruct (isspace c); simpl; lia.
Qed.

Lemma length_rstrip_le (s : string) :
  (String.length (rstrip s) <= String.length s)%nat.
Proof.
  induction s as [| c s IH]; simpl; [lia |].
  destruct (rstrip s) as [| d r]; [destruct (isspace c) |]; simpl in *; lia.
Qed.

Lemma length_strip_le (s : string) :
  (String.length (strip s) <= String.length s)%nat.
Proof.
  unfold strip.
  pose proof (length_rstrip_le (lstrip s)). pose proof (length_lstrip_le s).
  lia.
Qed.

(** *** Slices *)

Lemma slice_to (t rest : string) :
  slice (t ++ rest) None (Some (Z.of_nat (String.length t))) = t.
Proof.
  unfold slice, bound. rewrite length_app.
  destruct (Z.ltb_spec (Z.of_nat (String.length t)) 0); [lia |].
  rewrite Z.min_r by lia. rewrite Z.max_r by lia.
  rewrite Z.sub_0_r, Nat2Z.id. simpl.
  replace (drop 0 (t ++ rest)) with (t ++ rest) by (destruct (t ++ rest); reflexivity).
  apply take_app.
Qed.

Lemma slice_from (t rest : string) :
  slice (t ++ rest) (Some (Z.of_nat (String.length t))) None = rest.
Proof.
  unfold slice, bound. rewrite length_app.
  destruct (Z.ltb_spec (Z.of_nat (String.length t)) 0); [lia |].
  rewrite Z.min_r by lia. rewrite Z.max_r by lia.
  rewrite Nat2Z.id, drop_app.
  replace (Z.to_nat _) with (String.length rest) by lia.
  apply take_length.
Qed.

(** [s[1:-1]] takes the brackets off a tag. *)
Lemma slice_inner (c d : ascii) (body : string) :
  slice (String c (body ++ String d "")) (Some 1) (Some (-1)) = body.
Proof.
  unfold slice, bound. simpl String.length. rewrite length_app. simpl String.length.
  change (1 <? 0) with false. change (-1 <? 0) with true. cbv iota.
  rewrite Z.min_r by lia. rewrite Z.max_r by lia.
  rewrite Z.min_r by lia. rewrite Z.max_r by lia.
  change (Z.to_nat 1) with 1%nat. simpl drop.
  replace (Z.to_nat _) with (String.length body) by lia.
  apply take_app.
Qed.

Lemma length_slice_from (s : string) (k : Z) :
  0 <= k -> s <> "" ->
  (String.length (slice s (Some (k + 1)%Z) None) < String.length s)%nat.
Proof.
  intros Hk Hs. unfold slice, bound.
  assert (Hlen : (0 < String.length s)%nat) by (destruct s; [contradiction | simpl; lia]).
  destruct (Z.ltb_spec (k + 1) 0); [lia |].
  set (l := Z.max 0 (Z.min (Z.of_nat (String.length s)) (k + 1))).
  assert (1 <= l) by (unfold l; lia).
  pose proof (length_take_le (Z.to_nat (Z.of_nat (String.length s) - l))
                (drop (Z.to_nat l) s)) as Ht.
  rewrite length_drop in Ht. lia.
Qed.

(** *** [find] and [split] *)

Lemma find_range (s : string) (c : ascii) :
  find s c = -1 \/ 0 <= find s c < Z.of_nat (String.length s).
Proof.
  unfold find.
  assert (H : forall n, index_of c s = Some n -> (n < String.length s)%nat).
  { induction s as [| a s IH]; simpl; intros n Hn; [discriminate |].
    destruct (Ascii.eqb a c).
    - injection Hn as <-. lia.
    - destruct (index_of c s) as [k |]; [| discriminate].
      injection Hn as <-. specialize (IH k eq_refl). lia. }
  destruct (index_of c s) as [n |]; [right | left; reflexivity].
  specialize (H n eq_refl). lia.
Qed.

Lemma index_of_app (a b : string) (c : ascii) :
  index_of c a = None ->
  index_of c (a ++ String c b) = Some (String.length a).
Proof.
  induction a as [| x a IH]; simpl; intros Ha.
  - rewrite Ascii.eqb_refl. reflexivity.
  - destruct (Ascii.eqb x c); [discriminate |].
    destruct (index_of c a); [discriminate |].
    rewrite IH by reflexivity. reflexivity.
Qed.

Lemma split_none (s : string) (c : ascii) :
  index_of c s = None -> split s c = [s].
Proof.
  induction s as [| x s IH]; simpl; intros Hs; [reflexivity |].
  destruct (Ascii.eqb x c); [discriminate |].
  destruct (index_of c s); [discriminate |].
  rewrite IH by reflexivity. reflexivity.
Qed.

Lemma split_app (a b : string) (c : ascii) :
  index_of c a = None -> split (a ++ String c b) c = a :: split b c.
Proof.
  induction a as [| x a IH]; simpl; intros Ha.
  - rewrite Ascii.eqb_refl. reflexivity.
  - destruct (Ascii.eqb x c); [discriminate |].
    destruct (index_of c a); [discriminate |].
    rewrite IH by reflexivity. reflexivity.
Qed.

(** *** [strip] *)

Lemma rstrip_app (a b : string) :
  b <> "" -> rstrip b = b -> rstrip (a ++ b) = a ++ b.
Proof.
  intros Hb Hr. induction a as [| c a IH]; simpl; [exact Hr |].
  rewrite IH. destruct (a ++ b) as [| d r] eqn:Hab; [| reflexivity].
  destruct a; simpl in Hab; [contradiction | discriminate].
Qed.

(** A text that [strip] leaves alone starts and ends with no white
    space. *)
Lemma strip_fixed (s : string) :
  strip s = s -> lstrip s = s /\ rstrip s = s.
Proof.
  intros Hs. unfold strip in Hs.
  assert (Hl : lstrip s = s).
  { destruct s as [| c s]; [reflexivity |]. simpl in *.
    destruct (isspace c); [| reflexivity].
    pose proof (length_rstrip_le (lstrip s)) as H1.
    pose proof (length_lstrip_le s) as H2.
    rewrite Hs in H1. simpl in H1. lia. }
  split; [exact Hl |]. rewrite Hl in Hs. exact Hs.
Qed.

Lemma strip_bracket (s : string) :
  rstrip (String "[" s) = String "[" s -> strip (String "[" s) = String "[" s.
Proof.
  intros Hr. unfold strip. simpl lstrip. change (isspace "[") with false.
  cbv iota. exact Hr.
Qed.

End PyStrFacts.

(** ** The tag loop of [parse_lrc] *)

Module ParseFacts.

Import PyStr PyStrFacts Lyrics.

Lemma startswith_nonempty (text p : string) :
  startswith text (String "[" p) = true -> text <> "".
Proof.
  destruct text; [discriminate | discriminate].
Qed.

(** The loop ends before its fuel does: above the length of the text,
    the amount of fuel does not matter. *)
Lemma scan_tags_fuel (n m : nat) (text : string) (time_tags : list Z) :
  (String.length text < n)%nat -> (String.length text < m)%nat ->
  scan_tags n text time_tags = scan_tags m text time_tags.
Proof.
  revert m text time_tags.
  induction n as [| n IH]; intros m text time_tags Hn Hm; [lia |].
  destruct m as [| m]; [lia |]. cbn [scan_tags].
  destruct (startswith text "[") eqn:Hsw; [| reflexivity].
  destruct (Z.eqb_spec (find text "]") (-1)) as [Hf | Hf]; [reflexivity |].
  assert (Hlen : (String.length
                    (strip (slice text (Some (find text "]" + 1)%Z) None))
                  < String.length text)%nat).
  { pose proof (length_strip_le
                  (slice text (Some (find text "]" + 1)) None)) as H1.
    pose proof (length_slice_from text (find text "]")) as H2.
    destruct (find_range text "]") as [Hr | Hr]; [contradiction |].
    specialize (H2 (proj1 Hr) (startswith_nonempty text "" Hsw)). lia. }
  apply IH; lia.
Qed.

(** With that much fuel the loop ends the way the source's does: on a
    text that does not start with a bracket, or that has no closing
    one. *)
Lemma scan_tags_exit (n : nat) (text : string) (time_tags : list Z) :
  (String.length text < n)%nat ->
  startswith (snd (scan_tags n text time_tags)) "[" = false \/
  find (snd (scan_tags n text time_tags)) "]" = -1.
Proof.
  revert text time_tags.
  induction n as [| n IH]; intros text time_tags Hn; [lia |].
  cbn [scan_tags].
  destruct (startswith text "[") eqn:Hsw; [| left; exact Hsw].
  destruct (Z.eqb_spec (find text "]") (-1)) as [Hf | Hf];
    [right; exact Hf |].
  apply IH.
  pose proof (length_strip_le
                (slice text (Some (find text "]" + 1)) None)) as H1.
  pose proof (length_slice_from text (find text "]")) as H2.
  destruct (find_range text "]") as [Hr | Hr]; [contradiction |].
  specialize (H2 (proj1 Hr) (startswith_nonempty text "" Hsw)). lia.
Qed.

Lemma tag_of_app (body rest : string) :
  tag_of body ++ rest = String "[" (body ++ String "]" rest).
Proof.
  unfold tag_of. simpl. rewrite app_assoc. reflexivity.
Qed.

Lemma length_tag_of (body : string) :
  String.length (tag_of body) = S (S (String.length body)).
Proof.
  unfold tag_of. simpl. rewrite length_app. simpl. lia.
Qed.

(** One round of the loop on a text that starts with a closed tag. *)
Lemma scan_tags_step (fuel : nat) (body rest : string) (time_tags : list Z) :
  index_of "]" body = None ->
  scan_tags (S fuel) (tag_of body ++ rest) time_tags =
  scan_tags fuel (strip rest)
            (if parse_lrc_time (tag_of body) >? 0
             then time_tags ++ [parse_lrc_time (tag_of body)]
             else time_tags)%list.
Proof.
  intros Hbody. cbn [scan_tags].
  assert (Hfind : find (tag_of body ++ rest) "]" + 1 =
                  Z.of_nat (String.length (tag_of body))).
  { rewrite tag_of_app, length_tag_of. unfold find. simpl.
    rewrite (index_of_app body rest "]" Hbody). simpl. lia. }
  assert (Hsw : startswith (tag_of body ++ rest) "[" = true)
    by (rewrite tag_of_app; reflexivity).
  rewrite Hsw.
  pose proof (length_tag_of body) as Hlen.
  destruct (Z.eqb_spec (find (tag_of body ++ rest) "]") (-1)) as [Hf | _];
    [lia |].
  rewrite Hfind, slice_to, slice_from. reflexivity.
Qed.

Lemma tags_of_cons (body : string) (bodies : list string) :
  tags_of (body :: bodies) = tag_of body ++ tags_of bodies.
Proof. reflexivity. Qed.

Lemma tags_of_app (before after : list string) :
  tags_of (before ++ after) = tags_of before ++ tags_of after.
Proof.
  induction before as [| b before IH]; [reflexivity |].
  rewrite <- List.app_comm_cons, !tags_of_cons, IH, app_assoc. reflexivity.
Qed.

Lemma tags_of_end (body : string) (bodies : list string) :
  exists x, tags_of (body :: bodies) = String "[" (x ++ "]").
Proof.
  revert body. induction bodies as [| b bodies IH]; intros body.
  - exists body. simpl. rewrite app_empty_r. reflexivity.
  - destruct (IH b) as [x Hx]. rewrite tags_of_cons, Hx, tag_of_app.
    exists (body ++ String "]" (String "[" x)).
    rewrite app_assoc. reflexivity.
Qed.

Lemma length_tags_of (bodies : list string) :
  (List.length bodies <= String.length (tags_of bodies))%nat.
Proof.
  induction bodies as [| b bodies IH]; simpl; [lia |].
  rewrite length_app. lia.
Qed.

(** A run of tags in front of a stripped text is itself stripped. *)
Lemma strip_tags (bodies : list string) (text : string) :
  strip text = text -> strip (tags_of bodies ++ text) = tags_of bodies ++ text.
Proof.
  intros Hs. destruct bodies as [| b bodies]; [exact Hs |].
  destruct (tags_of_end b bodies) as [x Hx]. rewrite Hx.
  change (String "[" (x ++ "]") ++ text) with (String "[" ((x ++ "]") ++ text)).
  apply strip_bracket.
  destruct text as [| c text].
  - rewrite app_empty_r.
    apply (rstrip_app (String "[" x) "]"); [discriminate | reflexivity].
  - change (String "[" ((x ++ "]") ++ String c text))
      with ((String "[" (x ++ "]")) ++ String c text).
    apply rstrip_app; [discriminate |].
    apply strip_fixed. exact Hs.
Qed.

Lemma kept_times_cons (body : string) (bodies : list string) :
  kept_times (body :: bodies) =
  if parse_lrc_time (tag_of body) >? 0
  then parse_lrc_time (tag_of body) :: kept_times bodies
  else kept_times bodies.
Proof. reflexivity. Qed.

(** The loop over a run of closed tags in front of a text that is not a
    tag: the positive timestamps are kept, in order, and the text is
    left. *)
Lemma scan_tags_tags (bodies : list string) (text : string) :
  Forall (fun b => index_of "]" b = None) bodies ->
  strip text = text -> startswith text "[" = false ->
  forall (fuel : nat) (time_tags : list Z),
    (List.length bodies < fuel)%nat ->
    scan_tags fuel (tags_of bodies ++ text) time_tags =
    ((time_tags ++ kept_times bodies)%list, text).
Proof.
  intros Hb Hs Hsw.
  induction Hb as [| b bodies Hb Hbs IH]; intros fuel time_tags Hfuel.
  - destruct fuel as [| fuel]; [simpl in Hfuel; lia |].
    cbn [scan_tags tags_of fold_right append]. rewrite Hsw, List.app_nil_r. reflexivity.
  - destruct fuel as [| fuel]; [lia |]. simpl in Hfuel.
    rewrite tags_of_cons, app_assoc, (scan_tags_step _ _ _ _ Hb).
    rewrite (strip_tags bodies text Hs), IH by lia.
    rewrite kept_times_cons.
    destruct (parse_lrc_time (tag_of b) >? 0); [| reflexivity].
    rewrite <- List.app_assoc. reflexivity.
Qed.

Lemma flat_map_text (text : string) (time_tags : list Z) :
  flat_map (fun time_ms : Z => if nonempty text then [(time_ms, text)] else [])
           time_tags =
  if nonempty text then map (fun time_ms => (time_ms, text)) time_tags else [].
Proof.
  induction time_tags as [| t time_tags IH]; simpl.
  - destruct (nonempty text); reflexivity.
  - rewrite IH. destruct (nonempty text); reflexivity.
Qed.

(** A line made of closed tags and a text gives one entry for each tag
    of positive timestamp, in the order of the tags, each with the whole
    text; and none when the text is empty. *)
Lemma parse_line_tags (bodies : list string) (text : string) :
  Forall (fun b => index_of "]" b = None) bodies ->
  strip text = text -> startswith text "[" = false ->
  parse_line (tags_of bodies ++ text) =
  if nonempty text
  then map (fun time_ms => (time_ms, text)) (kept_times bodies)
  else [].
Proof.
  intros Hb Hs Hsw. unfold parse_line.
  rewrite (strip_tags bodies text Hs).
  destruct bodies as [| b bodies].
  - simpl tags_of. simpl append. rewrite Hsw.
    rewrite orb_true_r. destruct (nonempty text); reflexivity.
  - destruct (tags_of_end b bodies) as [x Hx].
    assert (Hne : nonempty (tags_of (b :: bodies) ++ text) = true)
      by (rewrite Hx; reflexivity).
    assert (Hst : startswith (tags_of (b :: bodies) ++ text) "[" = true)
      by (rewrite Hx; reflexivity).
    rewrite Hne, Hst. cbn [negb orb].
    rewrite (scan_tags_tags (b :: bodies) text Hb Hs Hsw).
    + apply flat_map_text.
    + pose proof (length_tags_of (b :: bodies)) as Hl.
      rewrite length_app. lia.
Qed.

(** A text of one line is parsed as that line. *)
Lemma collect_lines_one_line (line : string) :
  index_of LF line = None -> collect_lines line = parse_line line.
Proof.
  intros Hlf. unfold collect_lines. rewrite (split_none line LF Hlf).
  simpl. apply List.app_nil_r.
Qed.

End ParseFacts.

(** ** Rounding in double precision *)

Module FloatFacts.

Import PyFloat.

Lemma digits2_size (p : positive) : digits2_pos p = Pos.size p.
Proof.
  induction p as [p IH | p IH |]; simpl; [rewrite IH | rewrite IH |];
    reflexivity.
Qed.

(** A positive number of [d] binary digits lies in [[2^(d-1), 2^d)]. *)
Lemma digits_bounds (p : positive) :
  2 ^ (Zpos (digits2_pos p) - 1) <= Zpos p < 2 ^ Zpos (digits2_pos p).
Proof.
  rewrite digits2_size.
  pose proof (Pos.size_gt p) as Hgt. pose proof (Pos.size_le p) as Hle.
  apply Pos2Z.pos_lt_pos in Hgt. apply Pos2Z.pos_le_pos in Hle.
  rewrite Pos2Z.inj_pow in Hgt, Hle.
  change (Zpos p~0) with (2 * Zpos p) in Hle.
  replace (Zpos (Pos.size p)) with (Zpos (Pos.size p) - 1 + 1) in Hle by lia.
  rewrite Z.pow_add_r in Hle by lia. change (2 ^ 1) with 2 in Hle.
  change (Zpos 2) with 2 in *. lia.
Qed.

Lemma digits_unique (p : positive) (k : Z) :
  2 ^ (k - 1) <= Zpos p < 2 ^ k -> Zpos (digits2_pos p) = k.
Proof.
  intros [Hlo Hhi]. pose proof (digits_bounds p) as [Dlo Dhi].
  assert (Hk : 0 < k).
  { destruct (Z.ltb_spec 0 k) as [H | H]; [exact H |].
    destruct (Z.eqb_spec k 0) as [-> | Hne].
    - simpl in Hhi. lia.
    - rewrite (Z.pow_neg_r 2 k) in Hhi by lia. lia. }
  destruct (Z.lt_trichotomy (Zpos (digits2_pos p)) k) as [Hlt | [Heq | Hgt]].
  - assert (2 ^ Zpos (digits2_pos p) <= 2 ^ (k - 1))
      by (apply Z.pow_le_mono_r; lia).
    lia.
  - exact Heq.
  - assert (2 ^ k <= 2 ^ (Zpos (digits2_pos p) - 1))
      by (apply Z.pow_le_mono_r; lia).
    lia.
Qed.

Lemma shr_1_m (mrs : shr_record) :
  0 <= shr_m mrs -> shr_m (shr_1 mrs) = shr_m mrs / 2.
Proof.
  destruct mrs as [m r s]. simpl. intros Hm.
  destruct m as [| p | p]; [reflexivity | | lia].
  destruct p as [p | p |]; simpl shr_m.
  - rewrite Pos2Z.inj_xI. apply Z.div_unique with (r := 1); lia.
  - rewrite Pos2Z.inj_xO. apply Z.div_unique with (r := 0); lia.
  - reflexivity.
Qed.

Lemma iter_shr_m (p : positive) (mrs : shr_record) :
  0 <= shr_m mrs ->
  shr_m (iter_pos shr_1 p mrs) = shr_m mrs / 2 ^ Zpos p.
Proof.
  revert mrs. induction p as [p IH | p IH |]; intros mrs Hm; simpl iter_pos.
  - assert (H1 : 0 <= shr_m (shr_1 mrs))
      by (rewrite shr_1_m by exact Hm; apply Z.div_pos; lia).
    assert (H2 : 0 <= shr_m (iter_pos shr_1 p (shr_1 mrs)))
      by (rewrite IH by exact H1; apply Z.div_pos; [exact H1 | lia]).
    rewrite IH, IH, shr_1_m by assumption.
    rewrite !Z.div_div by lia.
    rewrite (Pos2Z.inj_xI p), Z.add_1_r, Z.pow_succ_r, Z.pow_twice_r by lia.
    reflexivity.
  - assert (H1 : 0 <= shr_m (iter_pos shr_1 p mrs))
      by (rewrite IH by exact Hm; apply Z.div_pos; [exact Hm | lia]).
    rewrite IH, IH by assumption.
    rewrite Z.div_div by lia.
    rewrite (Pos2Z.inj_xO p), Z.pow_twice_r. reflexivity.
  - apply shr_1_m. exact Hm.
Qed.

Lemma round_nearest_even_range (m : Z) (l : location) :
  round_nearest_even m l = m \/ round_nearest_even m l = m + 1.
Proof.
  destruct l as [| c]; simpl; [left; reflexivity |].
  destruct c; [destruct (Z.even m) | |]; auto.
Qed.

Lemma binary_round_aux_eq (sx : bool) (mx ex : Z) (lx : location) :
  binary_round_aux prec emax sx mx ex lx =
  let p1 := shr_fexp prec emax mx ex lx in
  let p2 := shr_fexp prec emax
              (round_nearest_even (shr_m (fst p1)) (loc_of_shr_record (fst p1)))
              (snd p1) loc_Exact in
  match shr_m (fst p2) with
  | Z0 => S754_zero sx
  | Zpos m =>
      if snd p2 <=? emax - prec then S754_finite sx m (snd p2)
      else S754_infinity sx
  | Zneg _ => S754_nan
  end.
Proof.
  unfold binary_round_aux.
  destruct (shr_fexp prec emax mx ex lx) as [mrs' e']. cbn [fst snd].
  destruct (shr_fexp prec emax
              (round_nearest_even (shr_m mrs') (loc_of_shr_record mrs')) e'
              loc_Exact) as [mrs'' e''].
  reflexivity.
Qed.

(** Away from the ends of the exponent range, an exact mantissa is
    shifted right by the number of digits it has above 53. *)
Lemma shr_fexp_exact (m : positive) (e : Z) :
  -1000 <= e -> Zpos (digits2_pos m) + e <= 1000 ->
  shr_fexp prec emax (Zpos m) e loc_Exact =
  match Zpos (digits2_pos m) - 53 with
  | Zpos p =>
      (iter_pos shr_1 p {| shr_m := Zpos m; shr_r := false; shr_s := false |},
       e + Zpos p)
  | _ => ({| shr_m := Zpos m; shr_r := false; shr_s := false |}, e)
  end.
Proof.
  intros He Hd. unfold shr_fexp, shr, fexp, emin, prec, emax.
  cbn [Zdigits2 shr_record_of_loc].
  rewrite Z.max_l by lia.
  replace (Zpos (digits2_pos m) + e - 53 - e)
    with (Zpos (digits2_pos m) - 53) by lia.
  destruct (Zpos (digits2_pos m) - 53); reflexivity.
Qed.

(** Rounding a mantissa of at least 53 digits, away from the ends of the
    exponent range: the result is finite, and off by at most one part in
    [2^52]. *)
Lemma round_rel (m : positive) (e : Z) :
  53 <= Zpos (digits2_pos m) -> -1000 <= e ->
  Zpos (digits2_pos m) + e <= 900 ->
  exists (m' : positive) (e' : Z),
    binary_round_aux prec emax false (Zpos m) e loc_Exact =
    S754_finite false m' e' /\
    e <= e' <= e + Zpos (digits2_pos m) - 52 /\
    2 ^ 52 * Z.abs (Zpos m' * 2 ^ (e' - e) - Zpos m) <= Zpos m.
Proof.
  intros Hd He Hde. rewrite binary_round_aux_eq.
  rewrite (shr_fexp_exact m e) by lia.
  pose proof (digits_bounds m) as [Hlo Hhi].
  destruct (Zpos (digits2_pos m) - 53) as [| p | p] eqn:Hn; [| | lia].
  - (* no digit to drop *)
    cbn [fst snd shr_m loc_of_shr_record round_nearest_even].
    rewrite (shr_fexp_exact m e) by lia. rewrite Hn.
    cbn [fst snd shr_m]. unfold emax, prec.
    destruct (Z.leb_spec e (1024 - 53)); [| lia].
    exists m, e. split; [reflexivity |]. split; [lia |].
    rewrite Z.sub_diag. change (2 ^ 0) with 1.
    rewrite Z.mul_1_r, Z.sub_diag. simpl. lia.
  - (* [p] digits dropped *)
    cbn [fst snd].
    set (mrs1 := iter_pos shr_1 p
                   {| shr_m := Zpos m; shr_r := false; shr_s := false |}).
    assert (Hm1 : shr_m mrs1 = Zpos m / 2 ^ Zpos p)
      by (unfold mrs1; rewrite iter_shr_m by (simpl; lia); reflexivity).
    assert (Hpow : 2 ^ (Zpos (digits2_pos m) - 1) = 2 ^ 52 * 2 ^ Zpos p).
    { replace (Zpos (digits2_pos m) - 1) with (52 + Zpos p) by lia.
      apply Z.pow_add_r; lia. }
    assert (Hpow' : 2 ^ Zpos (digits2_pos m) = 2 ^ 53 * 2 ^ Zpos p).
    { replace (Zpos (digits2_pos m)) with (53 + Zpos p) at 1 by lia.
      apply Z.pow_add_r; lia. }
    assert (Hp : 0 < 2 ^ Zpos p) by (apply Z.pow_pos_nonneg; lia).
    assert (Hr : 2 ^ 52 <= shr_m mrs1 < 2 ^ 53).
    { rewrite Hm1. split.
      - apply Z.div_le_lower_bound; lia.
      - apply Z.div_lt_upper_bound; lia. }
    pose proof (Z.mul_div_le (Zpos m) (2 ^ Zpos p) Hp) as Hfl.
    pose proof (Z.mul_succ_div_gt (Zpos m) (2 ^ Zpos p) Hp) as Hce.
    rewrite <- Hm1 in Hfl, Hce.
    destruct (round_nearest_even_range (shr_m mrs1) (loc_of_shr_record mrs1))
      as [Hrn | Hrn]; rewrite Hrn.
    + (* rounded down *)
      destruct (shr_m mrs1) as [| q | q] eqn:Hq; [simpl in Hr; lia | | lia].
      assert (Hdq : Zpos (digits2_pos q) = 53)
        by (apply digits_unique; change (53 - 1) with 52; exact Hr).
      rewrite (shr_fexp_exact q (e + Zpos p)) by lia.
      rewrite Hdq. change (53 - 53) with 0. cbn [fst snd shr_m].
      unfold emax, prec.
      destruct (Z.leb_spec (e + Zpos p) (1024 - 53)); [| lia].
      exists q, (e + Zpos p). split; [reflexivity |]. split; [lia |].
      replace (e + Zpos p - e) with (Zpos p) by lia.
      rewrite Z.abs_neq by lia. lia.
    + (* rounded up *)
      destruct (shr_m mrs1 + 1) as [| q | q] eqn:Hq; [lia | | lia].
      destruct (Z.eq_dec (Zpos q) (2 ^ 53)) as [Htop | Hnot].
      * (* up to the next power of two *)
        assert (Hdq : Zpos (digits2_pos q) = 54)
          by (apply digits_unique; rewrite Htop; simpl; lia).
        rewrite (shr_fexp_exact q (e + Zpos p)) by lia.
        rewrite Hdq. change (54 - 53) with 1.
        assert (Hq' : q = 9007199254740992%positive)
          by (apply Pos2Z.inj; rewrite Htop; reflexivity).
        subst q. cbn [iter_pos shr_1 fst snd shr_m]. unfold emax, prec.
        destruct (Z.leb_spec (e + Zpos p + 1) (1024 - 53)); [| lia].
        exists 4503599627370496%positive, (e + Zpos p + 1).
        split; [reflexivity |]. split; [lia |].
        replace (e + Zpos p + 1 - e) with (Zpos p + 1) by lia.
        rewrite Z.pow_add_r by lia. change (2 ^ 1) with 2.
        change (Zpos 4503599627370496) with (2 ^ 52).
        change (Zpos 9007199254740992) with (2 ^ 53) in Hq.
        change (2 ^ 53) with (2 ^ 52 * 2) in Hq.
        rewrite Z.abs_eq by nia. nia.
      * assert (Hdq : Zpos (digits2_pos q) = 53)
          by (apply digits_unique; change (53 - 1) with 52; lia).
        rewrite (shr_fexp_exact q (e + Zpos p)) by lia.
        rewrite Hdq. change (53 - 53) with 0. cbn [fst snd shr_m].
        unfold emax, prec.
        destruct (Z.leb_spec (e + Zpos p) (1024 - 53)); [| lia].
        exists q, (e + Zpos p). split; [reflexivity |]. split; [lia |].
        replace (e + Zpos p - e) with (Zpos p) by lia.
        rewrite Z.abs_eq by nia. nia.
Qed.

Lemma pos_iter_xO (d m : positive) :
  Zpos (Pos.iter xO m d) = Zpos m * 2 ^ Zpos d.
Proof.
  rewrite Pos2Nat.inj_iter. rewrite <- (positive_nat_Z d).
  induction (Pos.to_nat d) as [| n IH].
  - simpl. lia.
  - rewrite Nat2Z.inj_succ, Z.pow_succ_r by lia. cbn [nat_rect].
    rewrite (Pos2Z.inj_xO (nat_rect _ m (fun _ => xO) n)), IH. lia.
Qed.

Lemma shl_align_val (m : positive) (e e' : Z) :
  e' <= e -> Zpos (fst (shl_align m e e')) = Zpos m * 2 ^ (e - e').
Proof.
  intros Hle. unfold shl_align.
  destruct (e' - e) as [| d | d] eqn:Hd; cbn [fst].
  - replace (e - e') with 0 by lia. simpl. lia.
  - lia.
  - rewrite pos_iter_xO. replace (e - e') with (Zpos d) by lia. reflexivity.
Qed.

Lemma digits_lower (m : positive) (k : Z) :
  2 ^ (k - 1) <= Zpos m -> k <= Zpos (digits2_pos m).
Proof.
  intros Hm. pose proof (digits_bounds m) as [_ Hhi].
  destruct (Z.le_gt_cases k (Zpos (digits2_pos m))) as [H | H]; [exact H |].
  assert (2 ^ Zpos (digits2_pos m) <= 2 ^ (k - 1))
    by (apply Z.pow_le_mono_r; lia).
  lia.
Qed.

Lemma digits_upper (m : positive) (k : Z) :
  0 <= k -> Zpos m < 2 ^ k -> Zpos (digits2_pos m) <= k.
Proof.
  intros Hk Hm. pose proof (digits_bounds m) as [Hlo _].
  destruct (Z.le_gt_cases (Zpos (digits2_pos m)) k) as [H | H]; [exact H |].
  assert (2 ^ k <= 2 ^ (Zpos (digits2_pos m) - 1))
    by (apply Z.pow_le_mono_r; lia).
  lia.
Qed.

Lemma canonical_finite (m : positive) (e : Z) :
  canonical (S754_finite false m e) = true ->
  Zpos (digits2_pos m) = 53 /\ -60 <= e <= 0.
Proof.
  unfold canonical. intros H.
  apply andb_prop in H. destruct H as [H He2].
  apply andb_prop in H. destruct H as [Hd He1].
  apply Z.eqb_eq in Hd. apply Z.leb_le in He1, He2. lia.
Qed.

Lemma scaled_nonneg (x : float) : 0 <= scaled x.
Proof.
  destruct x as [s | s | | s m e]; unfold scaled; try lia.
  destruct s; [lia |].
  destruct (Z.le_gt_cases 0 (e + 110)).
  - assert (0 < 2 ^ (e + 110)) by (apply Z.pow_pos_nonneg; lia).
    apply Z.mul_nonneg_nonneg; lia.
  - rewrite Z.pow_neg_r by lia. lia.
Qed.

(** Rounding the exact sum of mantissas [m] at exponent [e]. *)
Lemma binary_normalize_rel (m : positive) (e : Z) :
  53 <= Zpos (digits2_pos m) -> -1000 <= e ->
  Zpos (digits2_pos m) + e <= 900 ->
  exists (m' : positive) (e' : Z),
    binary_normalize prec emax (Zpos m) e false = S754_finite false m' e' /\
    e <= e' <= e + Zpos (digits2_pos m) - 52 /\
    2 ^ 52 * Z.abs (Zpos m' * 2 ^ (e' - e) - Zpos m) <= Zpos m.
Proof.
  intros Hd He Hde. unfold binary_normalize, binary_round.
  assert (Hal : shl_align m e (fexp prec emax (Zpos (digits2_pos m) + e))
                = (m, e)).
  { unfold shl_align, fexp, emin, prec, emax. rewrite Z.max_l by lia.
    destruct (Zpos (digits2_pos m) + e - 53 - e) eqn:Hs;
      [reflexivity | reflexivity | lia]. }
  rewrite Hal. apply round_rel; assumption.
Qed.

(** The sum of two canonical floats is off the exact sum by at most one
    part in [2^52]. *)
Lemma add_rel (x y : float) :
  canonical x = true -> canonical y = true ->
  within (-60) 60 (add x y) /\
  2 ^ 52 * Z.abs (scaled (add x y) - (scaled x + scaled y))
  <= scaled x + scaled y.
Proof.
  intros Hx Hy.
  destruct x as [[|] | sx | | [|] mx ex]; try discriminate Hx;
    destruct y as [[|] | sy | | [|] my ey]; try discriminate Hy.
  - split; [left; reflexivity | simpl; lia].
  - destruct (canonical_finite my ey Hy) as [_ He].
    pose proof (scaled_nonneg (S754_finite false my ey)) as Hn.
    split; [right; exists my, ey; split; [reflexivity | lia] |].
    change (add (S754_zero false) (S754_finite false my ey))
      with (S754_finite false my ey).
    change (scaled (S754_zero false)) with 0.
    rewrite Z.add_0_l, Z.sub_diag. simpl Z.abs. lia.
  - destruct (canonical_finite mx ex Hx) as [_ He].
    pose proof (scaled_nonneg (S754_finite false mx ex)) as Hn.
    split; [right; exists mx, ex; split; [reflexivity | lia] |].
    change (add (S754_finite false mx ex) (S754_zero false))
      with (S754_finite false mx ex).
    change (scaled (S754_zero false)) with 0.
    rewrite Z.add_0_r, Z.sub_diag. simpl Z.abs. lia.
  - destruct (canonical_finite mx ex Hx) as [Hdx Hex].
    destruct (canonical_finite my ey Hy) as [Hdy Hey].
    unfold add, SFadd. cbn [cond_Zopp].
    set (ez := Z.min ex ey).
    assert (Hez : ez <= ex /\ ez <= ey /\ -60 <= ez) by (unfold ez; lia).
    pose proof (shl_align_val mx ex ez (proj1 Hez)) as Ha.
    pose proof (shl_align_val my ey ez (proj1 (proj2 Hez))) as Hb.
    set (a := fst (shl_align mx ex ez)) in *.
    set (b := fst (shl_align my ey ez)) in *.
    change (Zpos a + Zpos b) with (Zpos (a + b)).
    pose proof (digits_bounds mx) as [Hxl Hxh].
    pose proof (digits_bounds my) as [Hyl Hyh].
    rewrite Hdx in Hxl, Hxh. rewrite Hdy in Hyl, Hyh.
    change (53 - 1) with 52 in *.
    assert (Hpx : 1 <= 2 ^ (ex - ez) <= 2 ^ 60).
    { split; [apply (Z.pow_le_mono_r 2 0); lia | apply Z.pow_le_mono_r; lia]. }
    assert (Hpy : 1 <= 2 ^ (ey - ez) <= 2 ^ 60).
    { split; [apply (Z.pow_le_mono_r 2 0); lia | apply Z.pow_le_mono_r; lia]. }
    assert (Hsum : Zpos (a + b) = Zpos a + Zpos b) by reflexivity.
    assert (Hlo : 2 ^ 52 <= Zpos (a + b)) by nia.
    assert (Hhi : Zpos (a + b) < 2 ^ 114).
    { change (2 ^ 114) with (2 ^ 53 * 2 ^ 60 + 2 ^ 53 * 2 ^ 60). nia. }
    assert (Hd1 : 53 <= Zpos (digits2_pos (a + b)))
      by (apply digits_lower; exact Hlo).
    assert (Hd2 : Zpos (digits2_pos (a + b)) <= 114)
      by (apply digits_upper; [lia | exact Hhi]).
    destruct (binary_normalize_rel (a + b) ez) as [m' [e' [Hr [He' Hb']]]];
      [lia | lia | lia |].
    rewrite Hr. split.
    + right. exists m', e'. split; [reflexivity |].
      assert (Zpos (digits2_pos (a + b)) + ez <= 54).
      { apply Z.le_trans with (Zpos (digits2_pos (a + b)) + ez); [lia |].
        assert (Hv : Zpos (a + b) * 2 ^ (ez + 60) < 2 ^ 114).
        { rewrite Hsum, Ha, Hb.
          rewrite Z.mul_add_distr_r, <- !Z.mul_assoc, <- !Z.pow_add_r by lia.
          replace (ex - ez + (ez + 60)) with (ex + 60) by lia.
          replace (ey - ez + (ez + 60)) with (ey + 60) by lia.
          assert (2 ^ (ex + 60) <= 2 ^ 60) by (apply Z.pow_le_mono_r; lia).
          assert (2 ^ (ey + 60) <= 2 ^ 60) by (apply Z.pow_le_mono_r; lia).
          change (2 ^ 114) with (2 ^ 53 * 2 ^ 60 + 2 ^ 53 * 2 ^ 60). nia. }
        pose proof (digits_bounds (a + b)) as [Dl _].
        assert (Hcmp : 2 ^ (Zpos (digits2_pos (a + b)) - 1 + (ez + 60)) < 2 ^ 114).
        { rewrite Z.pow_add_r by lia.
          assert (0 < 2 ^ (ez + 60)) by (apply Z.pow_pos_nonneg; lia). nia. }
        apply Z.pow_lt_mono_r_iff in Hcmp; lia. }
      lia.
    + cbn [scaled].
      replace (e' + 110) with ((e' - ez) + (ez + 110)) by lia.
      replace (ex + 110) with ((ex - ez) + (ez + 110)) by lia.
      replace (ey + 110) with ((ey - ez) + (ez + 110)) by lia.
      rewrite (Z.pow_add_r 2 (e' - ez) (ez + 110)) by lia.
      rewrite (Z.pow_add_r 2 (ex - ez) (ez + 110)) by lia.
      rewrite (Z.pow_add_r 2 (ey - ez) (ez + 110)) by lia.
      rewrite Hsum, Ha, Hb in Hb'.
      assert (Hu : 0 < 2 ^ (ez + 110)) by (apply Z.pow_pos_nonneg; lia).
      set (u := 2 ^ (ez + 110)) in *.
      set (X := Zpos mx * 2 ^ (ex - ez)) in *.
      set (Y := Zpos my * 2 ^ (ey - ez)) in *.
      set (R := Zpos m' * 2 ^ (e' - ez)) in *.
      replace (Zpos m' * (2 ^ (e' - ez) * u) -
               (Zpos mx * (2 ^ (ex - ez) * u) + Zpos my * (2 ^ (ey - ez) * u)))
        with ((R - (X + Y)) * u) by (unfold R, X, Y; ring).
      replace (Zpos mx * (2 ^ (ex - ez) * u) + Zpos my * (2 ^ (ey - ez) * u))
        with ((X + Y) * u) by (unfold X, Y; ring).
      rewrite Z.abs_mul, (Z.abs_eq u) by lia.
      rewrite Z.mul_assoc. apply Z.mul_le_mono_nonneg_r; [lia | exact Hb'].
Qed.

Lemma of_int_1000 :
  of_int 1000 = S754_finite false 8796093022208000 (-43).
Proof. vm_compute. reflexivity. Qed.

(** The product by 1000 of a float below [2^13] is off the exact product
    by at most one part in [2^52]. *)
Lemma mul_rel (a : float) :
  within (-60) 60 a -> scaled a < 2 ^ 123 ->
  within (-110) 100 (mul a (of_int 1000)) /\
  2 ^ 52 * Z.abs (scaled (mul a (of_int 1000)) - 1000 * scaled a)
  <= 1000 * scaled a.
Proof.
  intros [-> | [ma [ea [-> Hea]]]] Hlt; rewrite of_int_1000.
  - split; [left; reflexivity | simpl; lia].
  - unfold mul, SFmul. cbn [xorb].
    set (mk := 8796093022208000%positive).
    assert (Hmk : Zpos mk = 1000 * 2 ^ 43) by reflexivity.
    unfold scaled in Hlt.
    assert (Hu : 0 < 2 ^ (ea + 110)) by (apply Z.pow_pos_nonneg; lia).
    assert (Hprod : Zpos (ma * mk) = Zpos ma * Zpos mk) by reflexivity.
    assert (Hlo : 2 ^ 52 <= Zpos (ma * mk)).
    { rewrite Hprod, Hmk. change (2 ^ 52) with (1 * (512 * 2 ^ 43)). nia. }
    assert (Hd1 : 53 <= Zpos (digits2_pos (ma * mk)))
      by (apply digits_lower; exact Hlo).
    assert (Hd2 : Zpos (digits2_pos (ma * mk)) + (ea + -43) <= 70).
    { pose proof (digits_bounds (ma * mk)) as [Dl _].
      assert (Hv : Zpos (ma * mk) * 2 ^ (ea + 67) < 2 ^ 133).
      { rewrite Hprod, Hmk.
        replace (ea + 110) with (43 + (ea + 67)) in Hlt, Hu by lia.
        rewrite Z.pow_add_r in Hlt, Hu by lia.
        change (2 ^ 133) with (1024 * 2 ^ 123). nia. }
      assert (Hcmp : 2 ^ (Zpos (digits2_pos (ma * mk)) - 1 + (ea + 67))
                     < 2 ^ 133).
      { rewrite Z.pow_add_r by lia.
        assert (0 < 2 ^ (ea + 67)) by (apply Z.pow_pos_nonneg; lia). nia. }
      apply Z.pow_lt_mono_r_iff in Hcmp; lia. }
    destruct (round_rel (ma * mk) (ea + -43)) as [m' [e' [Hr [He' Hb]]]];
      [lia | lia | lia |].
    rewrite Hr. split.
    + right. exists m', e'. split; [reflexivity | lia].
    + cbn [scaled].
      replace (e' + 110) with ((e' - (ea + -43)) + (ea + 67)) by lia.
      replace (ea + 110) with (43 + (ea + 67)) by lia.
      rewrite (Z.pow_add_r 2 (e' - (ea + -43)) (ea + 67)) by lia.
      rewrite (Z.pow_add_r 2 43 (ea + 67)) by lia.
      rewrite Hprod, Hmk in Hb.
      assert (Hw : 0 < 2 ^ (ea + 67)) by (apply Z.pow_pos_nonneg; lia).
      set (w := 2 ^ (ea + 67)) in *.
      set (R := Zpos m' * 2 ^ (e' - (ea + -43))) in *.
      set (X := Zpos ma * (1000 * 2 ^ 43)) in *.
      replace (Zpos m' * (2 ^ (e' - (ea + -43)) * w) -
               1000 * (Zpos ma * (2 ^ 43 * w)))
        with ((R - X) * w) by (unfold R, X; ring).
      replace (1000 * (Zpos ma * (2 ^ 43 * w))) with (X * w)
        by (unfold X; ring).
      rewrite Z.abs_mul, (Z.abs_eq w) by lia.
      rewrite Z.mul_assoc. apply Z.mul_le_mono_nonneg_r; [lia | exact Hb].
Qed.

(** [int] of a float that is not negative: its scaled value, divided
    back. *)
Lemma to_int_scaled (p : float) :
  within (-110) 100 p -> to_int p = Ok (scaled p / 2 ^ 110).
Proof.
  intros [-> | [m [e [-> He]]]]; [reflexivity |].
  unfold to_int, scaled. cbn [cond_Zopp]. f_equal.
  destruct e as [| q | k].
  - change (0 + 110) with 110. change (2 ^ 0) with 1.
    rewrite Z.mul_1_r, Z.div_mul by lia. reflexivity.
  - rewrite Z.pow_add_r by lia.
    rewrite Z.mul_assoc, Z.div_mul by lia. reflexivity.
  - rewrite Pos2Z.inj_pow.
    assert (Hk : 0 < 2 ^ Zpos k) by (apply Z.pow_pos_nonneg; lia).
    assert (Hc : 0 < 2 ^ (Zneg k + 110)) by (apply Z.pow_pos_nonneg; lia).
    assert (Hsplit : 2 ^ 110 = 2 ^ Zpos k * 2 ^ (Zneg k + 110)).
    { rewrite <- Z.pow_add_r by lia. f_equal. lia. }
    rewrite Hsplit, Z.div_mul_cancel_r by lia. reflexivity.
Qed.

(** The timestamp computed from the float of [60 * mm] and a float within
    one part in [2^52] of [cs / 100]: [60000 * mm + 10 * cs], or one
    less. *)
Lemma ms_bound (T D : float) (mm cs : Z) :
  0 <= mm < 100 -> 0 <= cs < 10000 ->
  canonical T = true -> canonical D = true ->
  scaled T = 60 * mm * 2 ^ 110 ->
  2 ^ 52 * Z.abs (100 * scaled D - cs * 2 ^ 110) <= cs * 2 ^ 110 ->
  exists v,
    to_int (mul (add T D) (of_int 1000)) = Ok v /\
    60000 * mm + 10 * cs - 1 <= v <= 60000 * mm + 10 * cs.
Proof.
  intros Hmm Hcs HT HD HTv HDv.
  destruct (add_rel T D HT HD) as [Hwa Ha].
  assert (Hlt : scaled (add T D) < 2 ^ 123).
  { rewrite HTv in Ha. change (2 ^ 123) with (8192 * 2 ^ 110).
    change (2 ^ 52) with 4503599627370496 in *.
    set (U := 2 ^ 110) in *. assert (0 < U) by (unfold U; lia).
    lia. }
  destruct (mul_rel (add T D) Hwa Hlt) as [Hwp Hp].
  rewrite (to_int_scaled _ Hwp). eexists. split; [reflexivity |].
  rewrite HTv in Ha.
  change (2 ^ 52) with 4503599627370496 in *.
  set (U := 2 ^ 110) in *. assert (HU : 0 < U) by (unfold U; lia).
  set (A := scaled (add T D)) in *.
  set (P := scaled (mul (add T D) (of_int 1000))) in *.
  set (Dv := scaled D) in *.
  split.
  - apply Z.div_le_lower_bound; [lia |]. lia.
  - apply Z.lt_succ_r. apply Z.div_lt_upper_bound; [lia |]. lia.
Qed.

End FloatFacts.

(** ** Time tags *)

Module TagFacts.

Import PyStr PyStrFacts Lyrics ParseFacts FloatFacts.

Lemma kept_times_app (before after : list string) :
  kept_times (before ++ after) = (kept_times before ++ kept_times after)%list.
Proof.
  unfold kept_times. rewrite map_app, filter_app. reflexivity.
Qed.

(** A tag whose timestamp is not positive leaves no trace in what the
    loop keeps. *)
Lemma kept_times_dropped (before after : list string) (body : string) :
  parse_lrc_time (tag_of body) <= 0 ->
  kept_times (before ++ body :: after) = kept_times (before ++ after).
Proof.
  intros Hle. rewrite !kept_times_app, kept_times_cons.
  destruct (Z.gtb_spec (parse_lrc_time (tag_of body)) 0); [lia | reflexivity].
Qed.

(** The timestamp of a tag whose two fields [float] accepts. *)
Lemma parse_lrc_time_fields (minutes seconds : string) (fm fs : PyFloat.float) :
  index_of ":" minutes = None -> index_of ":" seconds = None ->
  PyFloat.of_string minutes = Ok fm -> PyFloat.of_string seconds = Ok fs ->
  parse_lrc_time (tag_of (minutes ++ ":" ++ seconds)) = ms_of_floats fm fs.
Proof.
  intros Hm Hs Hfm Hfs.
  unfold parse_lrc_time, parse_lrc_time_try, tag_of.
  change ("[" ++ (minutes ++ ":" ++ seconds) ++ "]")
    with (String "[" ((minutes ++ String ":" seconds) ++ String "]" "")).
  rewrite slice_inner, (split_app minutes seconds ":" Hm).
  rewrite (split_none seconds ":" Hs), Hfm, Hfs. reflexivity.
Qed.

Lemma In_below (k : nat) (n : Z) : 0 <= n < Z.of_nat k -> In n (below k).
Proof.
  induction k as [| k IH]; intros Hn; simpl; [lia |].
  destruct (Z.eq_dec n (Z.of_nat k)) as [-> | Hne]; [left; reflexivity |].
  right. apply IH. lia.
Qed.

(** Every two-digit [[mm:ss]] has the timestamp [(mm * 60 + ss) * 1000]:
    the hundred times hundred tags, each run through the parser. *)
Lemma mm_ss_exact (mm ss : Z) :
  In mm (below 100) -> In ss (below 100) ->
  parse_lrc_time (tag_mm_ss mm ss) = (mm * 60 + ss) * 1000.
Proof.
  assert (Hall : forallb (fun m =>
                   forallb (fun s =>
                     parse_lrc_time (tag_mm_ss m s) =? (m * 60 + s) * 1000)
                     (below 100))
                   (below 100) = true)
    by (vm_compute; reflexivity).
  intros Hmm Hss.
  pose proof (proj1 (forallb_forall _ _) Hall mm Hmm) as Hrow.
  pose proof (proj1 (forallb_forall _ _) Hrow ss Hss) as Hcell.
  apply Z.eqb_eq. exact Hcell.
Qed.

Lemma all_minutes_ok : forallb minutes_ok (below 100) = true.
Proof. vm_compute. reflexivity. Qed.

Lemma all_seconds_ok :
  forallb (fun ss => forallb (seconds_ok ss) (below 100)) (below 100) = true.
Proof. vm_compute. reflexivity. Qed.

Lemma exact_ms_eq (mm ss xx : Z) :
  exact_ms mm ss xx = 60000 * mm + 10 * (100 * ss + xx).
Proof.
  unfold exact_ms.
  replace (((mm * 60 + ss) * 100 + xx) * 1000)
    with ((60000 * mm + 10 * (100 * ss + xx)) * 100) by ring.
  apply Z.div_mul. lia.
Qed.

(** Every two-digit [[mm:ss.xx]] has the exact timestamp or one
    millisecond less. *)
Lemma mm_ss_xx_bound (mm ss xx : Z) :
  0 <= mm < 100 -> 0 <= ss < 100 -> 0 <= xx < 100 ->
  exact_ms mm ss xx - 1 <= parse_lrc_time (tag_mm_ss_xx mm ss xx)
  <= exact_ms mm ss xx.
Proof.
  intros Hmm Hss Hxx.
  pose proof (proj1 (forallb_forall _ _) all_minutes_ok mm
                    (In_below 100 mm Hmm)) as Hm.
  pose proof (proj1 (forallb_forall _ _) all_seconds_ok ss
                    (In_below 100 ss Hss)) as Hrow.
  pose proof (proj1 (forallb_forall _ _) Hrow xx (In_below 100 xx Hxx)) as Hs.
  unfold minutes_ok in Hm. unfold seconds_ok in Hs.
  destruct (PyFloat.of_string (two_digits mm)) as [fm | ] eqn:Hfm;
    [| discriminate].
  destruct (PyFloat.of_string (seconds_field ss xx)) as [fs | ] eqn:Hfs;
    [| discriminate].
  apply andb_prop in Hm. destruct Hm as [Hm HTv].
  apply andb_prop in Hm. destruct Hm as [Hcm HT].
  apply andb_prop in Hs. destruct Hs as [Hs HDv].
  apply andb_prop in Hs. destruct Hs as [Hcs HD].
  apply Z.eqb_eq in HTv. apply Z.leb_le in HDv.
  unfold no_colon in Hcm, Hcs.
  destruct (index_of ":" (two_digits mm)) eqn:Hcm'; [discriminate |].
  destruct (index_of ":" (seconds_field ss xx)) eqn:Hcs'; [discriminate |].
  unfold tag_mm_ss_xx.
  rewrite (parse_lrc_time_fields (two_digits mm) (seconds_field ss xx) fm fs
             Hcm' Hcs' Hfm Hfs).
  destruct (ms_bound (PyFloat.mul fm (PyFloat.of_int 60)) fs mm (100 * ss + xx))
    as [v [Hv Hb]]; try assumption; try lia.
  unfold ms_of_floats. rewrite Hv, exact_ms_eq. exact Hb.
Qed.

(** C2, where the code departs from it. [[00:00.00]] is a well-formed
    tag, of timestamp 0, and the line [[00:00.00]Hello] gives no entry:
    the test [time_ms > 0], there to drop the 0 that [parse_lrc_time]
    returns for a tag it could not read, drops it too. *)
Theorem zero_tag_dropped (st : LyricsTile) :
  parse_lrc_time_try "[00:00.00]" = Ok 0 /\
  lyrics_lines (parse_lrc "[00:00.00]Hello" st) = [].
Proof.
  split.
  - vm_compute. reflexivity.
  - rewrite LyricsFacts.parse_lrc_lines. vm_compute. reflexivity.
Qed.

(** The two-tag line of the design document. *)
Example two_tags_hello (st : LyricsTile) :
  lyrics_lines (parse_lrc "[00:01.00][00:02.00]Hello" st) =
  [(1000, "Hello"); (2000, "Hello")].
Proof.
  rewrite LyricsFacts.parse_lrc_lines. vm_compute. reflexivity.
Qed.

(** A text of one line, closed tags then a text: one entry for each tag
    of positive timestamp, all with that text, in ascending order. *)
Lemma parse_lrc_one_line (bodies : list string) (text : string)
      (st : LyricsTile) :
  Forall (fun b => index_of "]" b = None) bodies ->
  strip text = text -> startswith text "[" = false -> nonempty text = true ->
  index_of LF (tags_of bodies ++ text) = None ->
  lyrics_lines (parse_lrc (tags_of bodies ++ text) st) =
  sort_by fst (map (fun time_ms => (time_ms, text)) (kept_times bodies)).
Proof.
  intros Hb Hs Hsw Hne Hlf.
  rewrite LyricsFacts.parse_lrc_lines, (collect_lines_one_line _ Hlf).
  rewrite (parse_line_tags bodies text Hb Hs Hsw), Hne. reflexivity.
Qed.

(** How [[00:02.01]] loses a millisecond: the double nearest to 2.01,
    its product by 1000, and the double of 2010 just above it. *)
Example float_2_01 :
  PyFloat.of_string "02.01" = Ok (S754_finite false 4526117625507348 (-51)) /\
  PyFloat.mul (S754_finite false 4526117625507348 (-51)) (PyFloat.of_int 1000)
  = S754_finite false 8840073487319039 (-42) /\
  PyFloat.of_int 2010 = S754_finite false 8840073487319040 (-42).
Proof. repeat split; vm_compute; reflexivity. Qed.

(** C3 as stated fails: the exact value of [[00:02.01]] is 2010 ms, and
    [parse_lrc_time] gives 2009. The nearest double to 2.01 is below
    2.01, its product by 1000 is rounded to the double just below 2010,
    and [int] truncates. *)
Lemma tag_00_02_01 :
  tag_mm_ss_xx 0 2 1 = "[00:02.01]" /\
  exact_ms 0 2 1 = 2010 /\
  parse_lrc_time "[00:02.01]" = 2009 /\
  parse_lrc_time (tag_mm_ss_xx 0 2 1) <> exact_ms 0 2 1.
Proof.
  repeat split; vm_compute; try reflexivity. discriminate.
Qed.

(** C3, amended. The timestamp of a tag [[minutes:seconds]] whose fields
    [float] accepts is [int((float(minutes) * 60 + float(seconds)) * 1000)]
    computed in double precision (0 when that product is not finite). For
    every two-digit [[mm:ss]] it is exactly [(mm * 60 + ss) * 1000]; for
    every two-digit [[mm:ss.xx]] it is the exact value or one millisecond
    less; [[01:02.50]] gives 62500 and [[00:02.01]] gives 2009. *)
Theorem parse_lrc_time_tag :
  (forall (minutes seconds : string) (fm fs : PyFloat.float),
      index_of ":" minutes = None -> index_of ":" seconds = None ->
      PyFloat.of_string minutes = Ok fm -> PyFloat.of_string seconds = Ok fs ->
      parse_lrc_time (tag_of (minutes ++ ":" ++ seconds)) = ms_of_floats fm fs) /\
  (forall mm ss : Z,
      0 <= mm < 100 -> 0 <= ss < 100 ->
      parse_lrc_time (tag_mm_ss mm ss) = (mm * 60 + ss) * 1000) /\
  (forall mm ss xx : Z,
      0 <= mm < 100 -> 0 <= ss < 100 -> 0 <= xx < 100 ->
      exact_ms mm ss xx - 1 <= parse_lrc_time (tag_mm_ss_xx mm ss xx)
      <= exact_ms mm ss xx) /\
  parse_lrc_time "[01:02.50]" = 62500 /\
  parse_lrc_time "[00:02.01]" = 2009.
Proof.
  split; [| split; [| split; [| split]]].
  - exact parse_lrc_time_fields.
  - intros mm ss Hmm Hss.
    apply mm_ss_exact; apply In_below; assumption.
  - exact mm_ss_xx_bound.
  - vm_compute. reflexivity.
  - vm_compute. reflexivity.
Qed.

Lemma parse_lrc_time_tag_witness :
  (index_of ":" "01" = None /\ index_of ":" "02.50" = None /\
   PyFloat.of_string "01" = Ok (PyFloat.of_int 1) /\
   PyFloat.of_string "02.50" = Ok (PyFloat.of_decimal false 250 (-2)) /\
   parse_lrc_time (tag_of ("01" ++ ":" ++ "02.50")) =
   ms_of_floats (PyFloat.of_int 1) (PyFloat.of_decimal false 250 (-2))) /\
  (0 <= 1 < 100 /\ 0 <= 2 < 100 /\
   parse_lrc_time (tag_mm_ss 1 2) = (1 * 60 + 2) * 1000) /\
  (0 <= 0 < 100 /\ 0 <= 2 < 100 /\ 0 <= 1 < 100 /\
   exact_ms 0 2 1 - 1 <= parse_lrc_time (tag_mm_ss_xx 0 2 1) <= exact_ms 0 2 1).
Proof.
  split; [| split].
  - split; [reflexivity |]. split; [reflexivity |].
    split; [vm_compute; reflexivity |]. split; [vm_compute; reflexivity |].
    apply (proj1 parse_lrc_time_tag); vm_compute; reflexivity.
  - split; [lia |]. split; [lia |].
    apply (proj1 (proj2 parse_lrc_time_tag)); lia.
  - split; [lia |]. split; [lia |]. split; [lia |].
    apply (proj1 (proj2 (proj2 parse_lrc_time_tag))); lia.
Defined.

(** C10 as stated fails: a tag with a negative field has a negative
    timestamp. *)
Lemma negative_tag :
  parse_lrc_time "[-1:00]" = -60000 /\ ~ 0 <= parse_lrc_time "[-1:00]".
Proof.
  assert (H : parse_lrc_time "[-1:00]" = -60000) by (vm_compute; reflexivity).
  split; [exact H | rewrite H; lia].
Qed.

(** C10, amended. [parse_lrc_time] returns an integer for every string
    and raises nothing: whatever its body raises is caught and gives 0,
    which is also what the well-formed tag [[00:00.00]] gives. The result
    can be negative. [parse_lrc] keeps the tags of timestamp above 0
    only: two closed tags whose timestamps are not positive, one
    unreadable and one of time zero for instance, give the same entries
    in the same place of a line, those of the line without them. *)
Theorem parse_lrc_time_sentinel :
  (forall (time_str : string) (e : exn),
      parse_lrc_time_try time_str = Raise e -> parse_lrc_time time_str = 0) /\
  (parse_lrc_time_try "[00:00.00]" = Ok 0 /\ parse_lrc_time "[00:00.00]" = 0) /\
  (forall (b1 b2 : string) (before after : list string) (text : string),
      Forall (fun b => index_of "]" b = None) (before ++ after) ->
      index_of "]" b1 = None -> index_of "]" b2 = None ->
      strip text = text -> startswith text "[" = false ->
      parse_lrc_time (tag_of b1) <= 0 -> parse_lrc_time (tag_of b2) <= 0 ->
      parse_line (tags_of (before ++ b1 :: after) ++ text) =
      parse_line (tags_of (before ++ b2 :: after) ++ text) /\
      parse_line (tags_of (before ++ b1 :: after) ++ text) =
      parse_line (tags_of (before ++ after) ++ text)).
Proof.
  split; [| split].
  - intros time_str e He. unfold parse_lrc_time. rewrite He. reflexivity.
  - split; vm_compute; reflexivity.
  - intros b1 b2 before after text Hb H1 H2 Hs Hsw Ht1 Ht2.
    assert (Hall : forall b, index_of "]" b = None ->
                     Forall (fun b => index_of "]" b = None)
                            (before ++ b :: after)).
    { intros b Hbb. apply Forall_app in Hb. destruct Hb as [Hbe Haf].
      apply Forall_app. split; [exact Hbe | constructor; assumption]. }
    rewrite (parse_line_tags _ text (Hall b1 H1) Hs Hsw).
    rewrite (parse_line_tags _ text (Hall b2 H2) Hs Hsw).
    rewrite (parse_line_tags _ text Hb Hs Hsw).
    rewrite (kept_times_dropped before after b1 Ht1).
    rewrite (kept_times_dropped before after b2 Ht2).
    split; reflexivity.
Qed.

Lemma parse_lrc_time_sentinel_witness :
  (parse_lrc_time_try "[bad]" = Raise ValueError /\ parse_lrc_time "[bad]" = 0) /\
  (Forall (fun b => index_of "]" b = None) (["00:01.00"] ++ ["00:02.00"]) /\
   index_of "]" "bad" = None /\ index_of "]" "00:00.00" = None /\
   strip "Hello" = "Hello" /\ startswith "Hello" "[" = false /\
   parse_lrc_time (tag_of "bad") <= 0 /\
   parse_lrc_time (tag_of "00:00.00") <= 0 /\
   parse_line (tags_of (["00:01.00"] ++ "bad" :: ["00:02.00"]) ++ "Hello") =
   parse_line (tags_of (["00:01.00"] ++ "00:00.00" :: ["00:02.00"]) ++ "Hello") /\
   parse_line (tags_of (["00:01.00"] ++ "bad" :: ["00:02.00"]) ++ "Hello") =
   parse_line (tags_of (["00:01.00"] ++ ["00:02.00"]) ++ "Hello")).
Proof.
  split.
  - split; [vm_compute; reflexivity |].
    apply (proj1 parse_lrc_time_sentinel "[bad]" ValueError).
    vm_compute. reflexivity.
  - assert (Hb : Forall (fun b => index_of "]" b = None)
                        (["00:01.00"] ++ ["00:02.00"]))
      by (repeat constructor).
    assert (H1 : parse_lrc_time (tag_of "bad") <= 0)
      by (vm_compute; discriminate).
    assert (H2 : parse_lrc_time (tag_of "00:00.00") <= 0)
      by (vm_compute; discriminate).
    repeat (split; [first [exact Hb | exact H1 | exact H2 | reflexivity] |]).
    apply (proj2 (proj2 parse_lrc_time_sentinel) "bad" "00:00.00"
                 ["00:01.00"] ["00:02.00"] "Hello" Hb);
      first [exact H1 | exact H2 | reflexivity].
Defined.

End TagFacts.

(** ** More on strings: [strip] twice, line ends, brackets *)

Module StripFacts.

Import PyStr PyStrFacts.

Lemma rstrip_cons (c : ascii) (s : string) :
  rstrip (String c s) =
  match rstrip s with
  | EmptyString => if isspace c then EmptyString else String c EmptyString
  | r => String c r
  end.
Proof. reflexivity. Qed.

Lemma rstrip_idem (s : string) : rstrip (rstrip s) = rstrip s.
Proof.
  induction s as [| c s IH]; [reflexivity |].
  rewrite rstrip_cons. destruct (rstrip s) as [| d r] eqn:Hr.
  - destruct (isspace c) eqn:Hc; [reflexivity |].
    rewrite rstrip_cons. simpl. rewrite Hc. reflexivity.
  - rewrite rstrip_cons, IH. reflexivity.
Qed.

Lemma lstrip_head (s : string) :
  lstrip s = s -> s = "" \/ exists c s', s = String c s' /\ isspace c = false.
Proof.
  destruct s as [| c s']; [left; reflexivity |]. intros H. right.
  exists c, s'. split; [reflexivity |].
  destruct (isspace c) eqn:Hc; [| reflexivity].
  simpl in H. rewrite Hc in H.
  pose proof (length_lstrip_le s') as Hle. rewrite H in Hle. simpl in Hle. lia.
Qed.

Lemma lstrip_idem (s : string) : lstrip (lstrip s) = lstrip s.
Proof.
  induction s as [| c s IH]; [reflexivity |]. simpl.
  destruct (isspace c) eqn:Hc; [exact IH |]. simpl. rewrite Hc. reflexivity.
Qed.

Lemma lstrip_rstrip (s : string) : lstrip s = s -> lstrip (rstrip s) = rstrip s.
Proof.
  intros H. destruct (lstrip_head s H) as [-> | [c [s' [-> Hc]]]];
    [reflexivity |].
  rewrite rstrip_cons. rewrite Hc.
  destruct (rstrip s'); simpl; rewrite Hc; reflexivity.
Qed.

(** Stripping a stripped string changes nothing. *)
Lemma strip_idem (s : string) : strip (strip s) = strip s.
Proof.
  unfold strip. rewrite lstrip_rstrip by apply lstrip_idem.
  apply rstrip_idem.
Qed.

Lemma rstrip_app_space (s : string) (c : ascii) :
  isspace c = true -> rstrip (s ++ String c "") = rstrip s.
Proof.
  intros Hc. induction s as [| a s IH].
  - simpl. rewrite Hc. reflexivity.
  - change (String a s ++ String c "") with (String a (s ++ String c "")).
    rewrite !rstrip_cons, IH. reflexivity.
Qed.

Lemma strip_app_space (s : string) (c : ascii) :
  isspace c = true -> strip (s ++ String c "") = strip s.
Proof.
  intros Hc. unfold strip. induction s as [| a s IH].
  - simpl. rewrite Hc. reflexivity.
  - change (String a s ++ String c "") with (String a (s ++ String c "")).
    simpl lstrip. destruct (isspace a); [exact IH |].
    apply (rstrip_app_space (String a s) c Hc).
Qed.

Lemma index_of_cons_none (c a : ascii) (s : string) :
  index_of c (String a s) = None <-> Ascii.eqb a c = false /\ index_of c s = None.
Proof.
  simpl. destruct (Ascii.eqb a c).
  - split; [discriminate | intros [H _]; discriminate].
  - destruct (index_of c s); simpl; split; try discriminate; auto.
    intros [_ H]. discriminate.
Qed.

Lemma index_of_lstrip (c : ascii) (s : string) :
  index_of c s = None -> index_of c (lstrip s) = None.
Proof.
  induction s as [| a s IH]; [auto |]. intros H. simpl.
  destruct (isspace a); [| exact H].
  apply IH. apply index_of_cons_none in H. apply H.
Qed.

Lemma index_of_rstrip (c : ascii) (s : string) :
  index_of c s = None -> index_of c (rstrip s) = None.
Proof.
  induction s as [| a s IH]; [auto |]. intros H.
  apply index_of_cons_none in H. destruct H as [Ha Hs].
  rewrite rstrip_cons. specialize (IH Hs).
  destruct (rstrip s) as [| d r].
  - destruct (isspace a); [reflexivity |].
    apply index_of_cons_none. split; [exact Ha | reflexivity].
  - apply index_of_cons_none. split; assumption.
Qed.

Lemma index_of_strip (c : ascii) (s : string) :
  index_of c s = None -> index_of c (strip s) = None.
Proof.
  intros H. unfold strip. apply index_of_rstrip, index_of_lstrip, H.
Qed.

Lemma split_nonempty (s : string) (c : ascii) : split s c <> [].
Proof.
  destruct s as [| a s]; simpl; [discriminate |].
  destruct (Ascii.eqb a c); [discriminate |].
  destruct (split s c); discriminate.
Qed.

Lemma split_cons_other (a c : ascii) (s : string) :
  Ascii.eqb a c = false ->
  exists h t, split s c = h :: t /\ split (String a s) c = String a h :: t.
Proof.
  intros Ha. simpl. rewrite Ha.
  destruct (split s c) as [| h t] eqn:Hs.
  - exfalso. exact (split_nonempty s c Hs).
  - exists h, t. split; reflexivity.
Qed.

(** The pieces of a text with a separator in the middle are the pieces of
    what stands before it, then those of what stands after it. *)
Lemma split_join (a b : string) (c : ascii) :
  split (a ++ String c b) c = (split a c ++ split b c)%list.
Proof.
  induction a as [| x a IH].
  - simpl. rewrite Ascii.eqb_refl. reflexivity.
  - change (String x a ++ String c b) with (String x (a ++ String c b)).
    destruct (Ascii.eqb x c) eqn:Hx.
    + simpl. rewrite Hx, IH. reflexivity.
    + destruct (split_cons_other x c a Hx) as [h [t [Hs Hs']]].
      rewrite Hs'. simpl. rewrite Hx, IH, Hs. reflexivity.
Qed.

Lemma split_pieces (s : string) (c : ascii) :
  Forall (fun p => index_of c p = None) (split s c).
Proof.
  induction s as [| a s IH].
  - simpl. constructor; [reflexivity | constructor].
  - destruct (Ascii.eqb a c) eqn:Ha.
    + simpl. rewrite Ha. constructor; [reflexivity | exact IH].
    + destruct (split_cons_other a c s Ha) as [h [t [Hs Hs']]].
      rewrite Hs'. rewrite Hs in IH. inversion IH as [| ? ? Hh Ht]; subst.
      constructor; [| exact Ht].
      apply index_of_cons_none. split; assumption.
Qed.

Lemma split_without (s : string) (c d : ascii) :
  index_of d s = None -> Forall (fun p => index_of d p = None) (split s c).
Proof.
  induction s as [| a s IH]; intros H.
  - simpl. constructor; [reflexivity | constructor].
  - apply index_of_cons_none in H. destruct H as [Ha Hs]. specialize (IH Hs).
    destruct (Ascii.eqb a c) eqn:Hac.
    + simpl. rewrite Hac. constructor; [reflexivity | exact IH].
    + destruct (split_cons_other a c s Hac) as [h [t [Hsp Hsp']]].
      rewrite Hsp'. rewrite Hsp in IH. inversion IH as [| ? ? Hh Ht]; subst.
      constructor; [| exact Ht].
      apply index_of_cons_none. split; assumption.
Qed.

Lemma startswith_index_of (s : string) (c : ascii) :
  index_of c s = None -> startswith s (String c "") = false.
Proof.
  destruct s as [| a s]; [reflexivity |]. intros H.
  apply index_of_cons_none in H. simpl. rewrite (proj1 H). reflexivity.
Qed.

Lemma length_split (s : string) (c : ascii) :
  List.length (split s c) = S (Calls.count c s).
Proof.
  induction s as [| a s IH]; [reflexivity |].
  destruct (Ascii.eqb a c) eqn:Ha.
  - simpl. rewrite Ha. simpl. rewrite IH. reflexivity.
  - destruct (split_cons_other a c s Ha) as [h [t [Hs Hs']]].
    rewrite Hs'. simpl Calls.count. rewrite Ha, <- IH, Hs. reflexivity.
Qed.

End StripFacts.

(** ** The lyric track as a whole *)

Module TrackFacts.

Import PyStr Lyrics Calls PyStrFacts ParseFacts LyricsFacts StripFacts.

Lemma scan_tags_kept (fuel : nat) :
  forall (text : string) (time_tags : list Z),
    strip text = text -> Forall (fun t => 0 < t) time_tags ->
    Forall (fun t => 0 < t) (fst (scan_tags fuel text time_tags)) /\
    strip (snd (scan_tags fuel text time_tags)) =
      snd (scan_tags fuel text time_tags).
Proof.
  induction fuel as [| fuel IH]; intros text time_tags Hs Ht;
    cbn [scan_tags].
  - split; assumption.
  - destruct (startswith text "["); [| split; assumption].
    destruct (find text "]" =? -1); [split; assumption |].
    apply IH; [apply strip_idem |].
    destruct (Z.gtb_spec
                (parse_lrc_time (slice text None (Some (find text "]" + 1))))
                0) as [Hpos | _]; [| exact Ht].
    apply Forall_app. split; [exact Ht |].
    constructor; [lia | constructor].
Qed.

Lemma parse_line_kept (line : string) (l : LyricLine) :
  In l (parse_line line) ->
  0 < fst l /\ snd l <> "" /\ strip (snd l) = snd l.
Proof.
  unfold parse_line.
  destruct (negb (nonempty (strip line))
            || negb (startswith (strip line) "[")); [intros [] |].
  pose proof (scan_tags_kept (S (String.length (strip line))) (strip line) []
                (strip_idem line) (Forall_nil _)) as [Ht Hs].
  destruct (scan_tags (S (String.length (strip line))) (strip line) [])
    as [time_tags text].
  cbn [fst snd] in Ht, Hs. intros Hin.
  apply in_flat_map in Hin. destruct Hin as [t [Hin Hl]].
  destruct text as [| c text]; simpl in Hl; [contradiction |].
  destruct Hl as [<- | []]. cbn [fst snd]. repeat split.
  - exact (proj1 (Forall_forall _ _) Ht t Hin).
  - discriminate.
  - exact Hs.
Qed.

(** X1. Every line that [parse_lrc] keeps has a timestamp above zero and
    a text that is not empty and carries no white space at either end. *)
Theorem parse_lrc_lines_kept (lrc_text : string) (st : LyricsTile)
        (l : LyricLine) :
  In l (lyrics_lines (parse_lrc lrc_text st)) ->
  0 < fst l /\ snd l <> "" /\ strip (snd l) = snd l.
Proof.
  rewrite parse_lrc_lines. intros Hin.
  apply (Permutation_in _ (sort_by_perm fst _)) in Hin.
  unfold collect_lines in Hin. apply in_flat_map in Hin.
  destruct Hin as [line [_ Hl]]. exact (parse_line_kept line l Hl).
Qed.

Lemma parse_lrc_lines_kept_witness :
  In (1000, "b") (lyrics_lines (parse_lrc two_lines init)) /\
  (0 < fst (1000, "b") /\ snd (1000, "b") <> "" /\
   strip (snd (1000, "b")) = snd (1000, "b")).
Proof.
  assert (H : In (1000, "b") (lyrics_lines (parse_lrc two_lines init))).
  { vm_compute. left. reflexivity. }
  split; [exact H |].
  exact (parse_lrc_lines_kept _ init (1000, "b") H).
Defined.

Lemma parse_line_plain (line : string) :
  startswith (strip line) "[" = false -> parse_line line = [].
Proof.
  intros H. unfold parse_line. rewrite H.
  rewrite orb_true_r. reflexivity.
Qed.

Lemma collect_lines_plain (lrc_text : string) :
  index_of "[" lrc_text = None -> collect_lines lrc_text = [].
Proof.
  intros H. unfold collect_lines.
  pose proof (split_without lrc_text LF "[" H) as Hall.
  induction Hall as [| p ps Hp _ IH]; [reflexivity |].
  simpl. rewrite parse_line_plain, IH; [reflexivity |].
  apply startswith_index_of, index_of_strip, Hp.
Qed.

(** X2. A text with no opening bracket gives a track with no line and
    the cursor at -1. When the text is not empty the panel shows the
    placeholder label alone; the empty text leaves the labels of the
    track before in place. *)
Theorem update_lyrics_plain (text : string) (st : LyricsTile) :
  index_of "[" text = None ->
  lyrics_lines (update_lyrics text st) = [] /\
  current_line (update_lyrics text st) = -1 /\
  (text <> "" ->
   lyrics_labels (update_lyrics text st) =
     [{| caption := no_lyrics; bold := false |}]) /\
  (text = "" -> lyrics_labels (update_lyrics text st) = lyrics_labels st).
Proof.
  intros H. unfold update_lyrics, parse_lrc.
  pose proof (collect_lines_plain text H) as Hc.
  destruct text as [| c text].
  - simpl. repeat split. intros Hne. contradiction.
  - cbn [nonempty negb]. cbv iota.
    unfold update_lyrics_display, set_lines. cbn [lyrics_lines current_line
      lyrics_labels player]. rewrite Hc. simpl. repeat split.
    intros Habs. discriminate.
Qed.

Lemma update_lyrics_plain_witness :
  index_of "[" "la la" = None /\
  lyrics_lines (update_lyrics "la la" abc_track) = [] /\
  current_line (update_lyrics "la la" abc_track) = -1 /\
  lyrics_labels (update_lyrics "la la" abc_track) =
    [{| caption := no_lyrics; bold := false |}] /\
  lyrics_labels (update_lyrics "" abc_track) = lyrics_labels abc_track.
Proof.
  split; [reflexivity |].
  destruct (update_lyrics_plain "la la" abc_track eq_refl)
    as [H1 [H2 [H3 _]]].
  destruct (update_lyrics_plain "" abc_track eq_refl) as [_ [_ [_ H4]]].
  split; [exact H1 |]. split; [exact H2 |].
  split; [apply H3; discriminate | apply H4; reflexivity].
Defined.

Lemma nth_error_highlight_from (labels : list Label) :
  forall (k current : Z) (i : nat),
    nth_error (highlight_from k current labels) i =
    option_map (fun l => {| caption := caption l;
                            bold := k + Z.of_nat i =? current |})
               (nth_error labels i).
Proof.
  induction labels as [| l labels IH]; intros k current i.
  - destruct i; reflexivity.
  - destruct i as [| i].
    + simpl. rewrite Z.add_0_r. reflexivity.
    + cbn [highlight_from nth_error]. rewrite IH.
      replace (k + 1 + Z.of_nat i) with (k + Z.of_nat (S i)) by lia.
      reflexivity.
Qed.

Lemma map_caption_highlight_from (labels : list Label) :
  forall k current,
    map caption (highlight_from k current labels) = map caption labels.
Proof.
  induction labels as [| l labels IH]; intros k current; [reflexivity |].
  simpl. rewrite IH. reflexivity.
Qed.

Lemma shows_length (st : LyricsTile) :
  shows st ->
  List.length (lyrics_labels st) = List.length (lyrics_lines st).
Proof.
  intros [Hc _]. apply (f_equal (@List.length string)) in Hc.
  rewrite !length_map in Hc. exact Hc.
Qed.

Lemma update_position_shows (position : Z) (st : LyricsTile) :
  lyrics_lines st <> [] -> shows st ->
  exists st',
    update_position position st = Ok st' /\
    lyrics_lines st' = lyrics_lines st /\
    current_line st' = locate (lyrics_lines st) position /\
    shows st'.
Proof.
  intros Hne Hshow.
  destruct (update_position_ok position st Hne (shows_length st Hshow))
    as [st' [Hupd [Hlines [Hcur Hlen]]]].
  exists st'. repeat split; try assumption.
  - rewrite Hlines. unfold update_position in Hupd.
    destruct (lyrics_lines st) as [| l0 rest] eqn:El; [contradiction |].
    destruct (negb (locate (l0 :: rest) position =? current_line st)).
    + destruct (if locate (l0 :: rest) position >=? 0
                then getitem (highlight_from 0 (locate (l0 :: rest) position)
                                             (lyrics_labels st))
                             (locate (l0 :: rest) position)
                else Ok {| caption := ""; bold := false |});
        simpl in Hupd; [| discriminate].
      injection Hupd as <-. cbn [lyrics_labels].
      rewrite map_caption_highlight_from. rewrite <- El. apply Hshow.
    + injection Hupd as <-. rewrite <- El. apply Hshow.
  - intros i l Hnth. unfold update_position in Hupd.
    destruct (lyrics_lines st) as [| l0 rest] eqn:El; [contradiction |].
    destruct (Z.eqb_spec (locate (l0 :: rest) position) (current_line st))
      as [Heq | Hneq]; cbn [negb] in Hupd.
    + injection Hupd as <-. apply (proj2 Hshow). exact Hnth.
    + destruct (if locate (l0 :: rest) position >=? 0
                then getitem (highlight_from 0 (locate (l0 :: rest) position)
                                             (lyrics_labels st))
                             (locate (l0 :: rest) position)
                else Ok {| caption := ""; bold := false |});
        simpl in Hupd; [| discriminate].
      injection Hupd as <-. cbn [lyrics_labels current_line] in *.
      rewrite nth_error_highlight_from in Hnth.
      destruct (nth_error (lyrics_labels st) i); simpl in Hnth;
        [| discriminate].
      injection Hnth as <-. reflexivity.
Qed.

Lemma update_lyrics_shows (text : string) (st : LyricsTile) :
  lyrics_lines (update_lyrics text st) <> [] -> shows (update_lyrics text st).
Proof.
  unfold update_lyrics, parse_lrc.
  destruct text as [| c text]; [intros H; contradiction H; reflexivity |].
  cbn [nonempty negb]. cbv iota.
  unfold update_lyrics_display, set_lines.
  cbn [lyrics_lines current_line lyrics_labels player].
  destruct (sort_by fst (collect_lines (String c text))) as [| l rest];
    [intros H; contradiction H; reflexivity |].
  intros _. split.
  - cbn [lyrics_labels lyrics_lines]. rewrite map_map. reflexivity.
  - cbn [lyrics_labels current_line]. intros i lab Hnth.
    rewrite nth_error_map in Hnth.
    match type of Hnth with
    | option_map _ ?x = _ => destruct x; simpl in Hnth; [| discriminate]
    end.
    injection Hnth as <-. simpl. symmetry. apply Z.eqb_neq. lia.
Qed.

Lemma last_default (l : list Z) (x d d' : Z) :
  last (x :: l) d = last (x :: l) d'.
Proof.
  revert x. induction l as [| a l IH]; intros x; [reflexivity |].
  change (last (a :: l) d = last (a :: l) d'). apply IH.
Qed.

Lemma update_positions_shows (positions : list Z) :
  forall st : LyricsTile,
    lyrics_lines st <> [] -> shows st ->
    exists st',
      update_positions positions st = Ok st' /\
      lyrics_lines st' = lyrics_lines st /\
      current_line st' =
        last (map (locate (lyrics_lines st)) positions) (current_line st) /\
      shows st'.
Proof.
  induction positions as [| p ps IH]; intros st Hne Hshow.
  - exists st. repeat split; try reflexivity; apply Hshow.
  - destruct (update_position_shows p st Hne Hshow)
      as [st1 [Hupd [Hlines [Hcur Hshow1]]]].
    destruct (IH st1) as [st2 [Hups [Hlines2 [Hcur2 Hshow2]]]];
      [rewrite Hlines; exact Hne | exact Hshow1 |].
    exists st2. cbn [update_positions]. rewrite Hupd. cbn [bind].
    split; [exact Hups |]. split; [congruence |]. split; [| exact Hshow2].
    rewrite Hcur2, Hlines, Hcur.
    destruct ps as [| q qs]; [reflexivity |].
    apply (last_default (map _ (q :: qs)) q).
Qed.

(** X3. Once a text with at least one timed line is loaded, no sequence
    of position updates raises. After each the labels still show the text
    of every line, in order, the label in bold is the one the cursor is
    on and no other is, and the cursor is where the last position puts
    it, whatever came before. *)
Theorem update_positions_highlight (text : string) (st : LyricsTile)
        (positions : list Z) :
  lyrics_lines (update_lyrics text st) <> [] ->
  exists st',
    update_positions positions (update_lyrics text st) = Ok st' /\
    lyrics_lines st' = lyrics_lines (update_lyrics text st) /\
    current_line st' =
      last (map (locate (lyrics_lines st')) positions) (-1) /\
    shows st'.
Proof.
  intros Hne.
  destruct (update_positions_shows positions (update_lyrics text st) Hne
              (update_lyrics_shows text st Hne))
    as [st' [Hups [Hlines [Hcur Hshow]]]].
  exists st'. repeat split; try assumption; try apply Hshow.
  rewrite Hcur, Hlines.
  replace (current_line (update_lyrics text st)) with (-1); [reflexivity |].
  unfold update_lyrics. rewrite parse_lrc_current_line. reflexivity.
Qed.

Lemma update_positions_highlight_witness :
  lyrics_lines (update_lyrics two_lines init) <> [] /\
  exists st',
    update_positions [6000; 200; 1500] (update_lyrics two_lines init)
      = Ok st' /\
    lyrics_lines st' = lyrics_lines (update_lyrics two_lines init) /\
    current_line st' =
      last (map (locate (lyrics_lines st')) [6000; 200; 1500]) (-1) /\
    shows st'.
Proof.
  assert (H : lyrics_lines (update_lyrics two_lines init) <> []).
  { vm_compute. discriminate. }
  split; [exact H |].
  exact (update_positions_highlight two_lines init [6000; 200; 1500] H).
Defined.







Lemma collect_lines_join (a b : string) :
  collect_lines (a ++ String LF b) = (collect_lines a ++ collect_lines b)%list.
Proof.
  unfold collect_lines. rewrite split_join. apply flat_map_app.
Qed.

(** X6. The track of two texts joined by a line feed has the lines of
    both, in ascending order of time, and among the lines of one
    timestamp those of the first text stand before those of the
    second. *)
Theorem parse_lrc_join (a b : string) (st : LyricsTile) :
  let joined := lyrics_lines (parse_lrc (a ++ String LF b) st) in
  sorted_by_time joined /\
  Permutation joined (lyrics_lines (parse_lrc a st) ++
                      lyrics_lines (parse_lrc b st)) /\
  forall t, at_time t joined =
            (at_time t (lyrics_lines (parse_lrc a st)) ++
             at_time t (lyrics_lines (parse_lrc b st)))%list.
Proof.
  cbv zeta. rewrite !parse_lrc_lines, collect_lines_join.
  split; [apply (sort_by_sorted (A := LyricLine)) |]. split.
  - eapply Permutation_trans; [apply sort_by_perm |].
    apply Permutation_app; apply Permutation_sym, sort_by_perm.
  - intros t. unfold at_time.
    rewrite !(sort_by_stable (A := LyricLine) fst t). apply filter_app.
Qed.

Lemma parse_line_cr (p q : string) :
  p = q \/ p = q ++ String CR "" -> parse_line p = parse_line q.
Proof.
  intros [-> | ->]; [reflexivity |].
  unfold parse_line. rewrite strip_app_space by reflexivity. reflexivity.
Qed.

Lemma split_to_crlf (text : string) :
  Forall2 (fun p q => p = q \/ p = q ++ String CR "")
          (split (to_crlf text) LF) (split text LF).
Proof.
  induction text as [| c text IH].
  - simpl. constructor; [left; reflexivity | constructor].
  - cbn [to_crlf]. destruct (Ascii.eqb c LF) eqn:Hc.
    + apply Ascii.eqb_eq in Hc. subst c.
      change (split (String CR (String LF (to_crlf text))) LF)
        with (String CR "" :: split (to_crlf text) LF).
      change (split (String LF text) LF) with ("" :: split text LF).
      constructor; [right; reflexivity | exact IH].
    + destruct (split_cons_other c LF (to_crlf text) Hc) as [h [t [H1 H1']]].
      destruct (split_cons_other c LF text Hc) as [h' [t' [H2 H2']]].
      rewrite H1', H2'. rewrite H1, H2 in IH.
      inversion IH as [| ? ? ? ? Hh Ht]; subst.
      constructor; [| exact Ht].
      destruct Hh as [-> | ->]; [left | right]; reflexivity.
Qed.

(** X7. A text whose lines end in carriage return and line feed gives
    the track, the cursor and the labels that the same text with bare
    line feeds gives. *)
Theorem parse_lrc_crlf (text : string) (st : LyricsTile) :
  parse_lrc (to_crlf text) st = parse_lrc text st.
Proof.
  assert (Hc : collect_lines (to_crlf text) = collect_lines text).
  { unfold collect_lines.
    pose proof (split_to_crlf text) as H.
    induction H as [| p q ps qs Hpq _ IH]; [reflexivity |].
    simpl. rewrite (parse_line_cr p q Hpq), IH. reflexivity. }
  unfold parse_lrc. rewrite Hc.
  destruct text as [| c text]; [reflexivity |].
  cbn [to_crlf]. destruct (Ascii.eqb c LF); reflexivity.
Qed.

(** X8. A tag whose body holds no colon, or more than one (a tag with an
    hour field, [[h:mm:ss]]), has the timestamp 0, and a line that
    carries only such a tag gives no lyric line. *)
Theorem parse_lrc_time_colons (body text : string) :
  count ":" body <> 1%nat ->
  parse_lrc_time (tag_of body) = 0 /\
  (index_of "]" body = None -> strip text = text ->
   startswith text "[" = false ->
   parse_line (tag_of body ++ text) = []).
Proof.
  intros Hcount.
  assert (H0 : parse_lrc_time (tag_of body) = 0).
  { unfold parse_lrc_time, parse_lrc_time_try.
    change (tag_of body) with (String "[" (body ++ String "]" "")).
    rewrite slice_inner.
    pose proof (length_split body ":") as Hlen.
    destruct (split body ":") as [| m [| s [| x rest]]]; try reflexivity.
    simpl in Hlen. exfalso. apply Hcount. lia. }
  split; [exact H0 |]. intros Hb Hs Ht.
  pose proof (parse_line_tags [body] text) as Hp.
  rewrite tags_of_cons in Hp. cbn [tags_of fold_right] in Hp.
  rewrite PyStrFacts.app_empty_r in Hp.
  rewrite Hp; try assumption; [| constructor; [exact Hb | constructor]].
  rewrite kept_times_cons, H0. simpl.
  destruct (nonempty text); reflexivity.
Qed.

Lemma parse_lrc_time_colons_witness :
  count ":" "1:02:03" <> 1%nat /\
  parse_lrc_time (tag_of "1:02:03") = 0 /\
  parse_line (tag_of "1:02:03" ++ "la") = [].
Proof.
  assert (H : count ":" "1:02:03" <> 1%nat) by (vm_compute; discriminate).
  split; [exact H |].
  destruct (parse_lrc_time_colons "1:02:03" "la" H) as [H0 Hl].
  split; [exact H0 |]. apply Hl; reflexivity.
Defined.

End TrackFacts.

(** ** The carousel under sequences of calls *)

Module CarouselRuns.

Import Carousel Calls CarouselFacts.

Lemma show_tiles_same (a b : ScrollableAlbumArea) (columns : list Z) :
  tiles a = tiles b -> current_index a = current_index b ->
  forall grid, show_tiles a columns grid = show_tiles b columns grid.
Proof.
  intros Ht Hi. induction columns as [| i columns IH]; intros grid;
    [reflexivity |].
  cbn [show_tiles]. unfold len. rewrite Ht, Hi.
  destruct (py_mod (current_index b + i) (Z.of_nat (List.length (tiles b))))
    as [idx | e]; [| reflexivity].
  cbn [bind]. destruct (idx <? Z.of_nat (List.length (tiles b))); [| apply IH].
  destruct (getitem (tiles b) idx) as [tile | e]; [| reflexivity].
  cbn [bind]. apply IH.
Qed.

(** What [update_visible_tiles] makes of a carousel depends on its tiles
    and on its index, not on what the grid showed before. *)
Lemma update_visible_tiles_same (a b : ScrollableAlbumArea) :
  tiles a = tiles b -> current_index a = current_index b ->
  update_visible_tiles a = update_visible_tiles b.
Proof.
  intros Ht Hi. unfold update_visible_tiles.
  rewrite (show_tiles_same a b _ Ht Hi), Ht, Hi. reflexivity.
Qed.

Lemma update_visible_tiles_again (a b : ScrollableAlbumArea) :
  update_visible_tiles a = Ok b ->
  tiles b = tiles a /\ current_index b = current_index a /\
  update_visible_tiles b = Ok b.
Proof.
  intros H. assert (Hb : tiles b = tiles a /\ current_index b = current_index a).
  { unfold update_visible_tiles in H.
    destruct (show_tiles a [0; 1; 2] []); [| discriminate].
    injection H as <-. split; reflexivity. }
  destruct Hb as [Ht Hi]. repeat split; try assumption.
  rewrite (update_visible_tiles_same b a Ht Hi). exact H.
Qed.

Lemma scroll_step (a : ScrollableAlbumArea) (d : Z) :
  3 < len a ->
  exists b,
    (i <- py_mod (current_index a + d) (len a) ;;
     update_visible_tiles (set_index a i)) = Ok b /\
    tiles b = tiles a /\
    current_index b = (current_index a + d) mod len a /\
    update_visible_tiles b = Ok b.
Proof.
  intros Hlen. rewrite py_mod_pos by lia. cbn [bind].
  destruct (scroll_to a ((current_index a + d) mod len a) Hlen)
    as [b [Hb [Ht [Hi _]]]].
  exists b. repeat split; try assumption.
  apply (update_visible_tiles_again _ b Hb).
Qed.

Lemma scroll_right_step (a : ScrollableAlbumArea) :
  3 < len a ->
  exists b,
    scroll_right a = Ok b /\ tiles b = tiles a /\
    current_index b = (current_index a + 1) mod len a /\
    update_visible_tiles b = Ok b.
Proof.
  intros Hlen. unfold scroll_right.
  destruct (Z.leb_spec (len a) 3); [lia |]. apply scroll_step. exact Hlen.
Qed.

Lemma scroll_left_step (a : ScrollableAlbumArea) :
  3 < len a ->
  exists b,
    scroll_left a = Ok b /\ tiles b = tiles a /\
    current_index b = (current_index a - 1) mod len a /\
    update_visible_tiles b = Ok b.
Proof.
  intros Hlen. unfold scroll_left.
  destruct (Z.leb_spec (len a) 3); [lia |].
  apply (scroll_step a (-1)). exact Hlen.
Qed.

Lemma len_same (a b : ScrollableAlbumArea) : tiles b = tiles a -> len b = len a.
Proof. intros H. unfold len. rewrite H. reflexivity. Qed.

(** X9. With more than three tiles and the index on a tile, a step to
    the right followed by a step to the left, or the other way round,
    brings the carousel back to the tile it was on, the grid showing what
    a redraw of the carousel shows. *)
Theorem scroll_there_and_back (a : ScrollableAlbumArea) :
  3 < len a -> 0 <= current_index a < len a ->
  exists r c l c',
    scroll_right a = Ok r /\ scroll_left r = Ok c /\
    scroll_left a = Ok l /\ scroll_right l = Ok c' /\
    c' = c /\ update_visible_tiles a = Ok c /\
    tiles c = tiles a /\ current_index c = current_index a.
Proof.
  intros Hlen Hidx.
  destruct (scroll_right_step a Hlen) as [r [Hr [Htr [Hir _]]]].
  destruct (scroll_left_step a Hlen) as [l [Hl [Htl [Hil _]]]].
  pose proof (len_same a r Htr) as Hlr. pose proof (len_same a l Htl) as Hll.
  destruct (scroll_left_step r) as [c [Hc [Htc [Hic Hcc]]]]; [lia |].
  destruct (scroll_right_step l) as [c' [Hc' [Htc' [Hic' Hcc']]]]; [lia |].
  assert (Hback : current_index c = current_index a).
  { rewrite Hic, Hir, Hlr, Zminus_mod_idemp_l.
    replace (current_index a + 1 - 1) with (current_index a) by lia.
    apply Z.mod_small. exact Hidx. }
  assert (Hback' : current_index c' = current_index a).
  { rewrite Hic', Hil, Hll, Zplus_mod_idemp_l.
    replace (current_index a - 1 + 1) with (current_index a) by lia.
    apply Z.mod_small. exact Hidx. }
  assert (Hca : update_visible_tiles a = Ok c).
  { rewrite <- Hcc. apply update_visible_tiles_same; congruence. }
  assert (Hca' : update_visible_tiles a = Ok c').
  { rewrite <- Hcc'. apply update_visible_tiles_same; congruence. }
  exists r, c, l, c'. repeat split; try assumption; congruence.
Qed.

Lemma scroll_there_and_back_witness :
  3 < len (holding [item0; item1; item2; item3]) /\
  0 <= current_index (holding [item0; item1; item2; item3])
    < len (holding [item0; item1; item2; item3]) /\
  exists r c l c',
    scroll_right (holding [item0; item1; item2; item3]) = Ok r /\
    scroll_left r = Ok c /\
    scroll_left (holding [item0; item1; item2; item3]) = Ok l /\
    scroll_right l = Ok c' /\
    c' = c /\
    update_visible_tiles (holding [item0; item1; item2; item3]) = Ok c /\
    tiles c = tiles (holding [item0; item1; item2; item3]) /\
    current_index c = current_index (holding [item0; item1; item2; item3]).
Proof.
  assert (Hlen : 3 < len (holding [item0; item1; item2; item3]))
    by reflexivity.
  assert (Hidx : 0 <= current_index (holding [item0; item1; item2; item3])
                 < len (holding [item0; item1; item2; item3]))
    by (vm_compute; split; [discriminate | reflexivity]).
  split; [exact Hlen |]. split; [exact Hidx |].
  exact (scroll_there_and_back _ Hlen Hidx).
Defined.

Lemma scroll_right_times_any (k : nat) :
  forall a : ScrollableAlbumArea,
    3 < len a ->
    exists b,
      times (S k) scroll_right a = Ok b /\ tiles b = tiles a /\
      current_index b = (current_index a + Z.of_nat (S k)) mod len a.
Proof.
  induction k as [| k IH]; intros a Hlen.
  - destruct (scroll_right_step a Hlen) as [b [Hb [Ht [Hi _]]]].
    exists b. cbn [times]. rewrite Hb. cbn [bind]. repeat split; assumption.
  - destruct (scroll_right_step a Hlen) as [b [Hb [Ht [Hi _]]]].
    pose proof (len_same a b Ht) as Hlb.
    destruct (IH b) as [c [Hc [Htc Hic]]]; [lia |].
    exists c. change (times (S (S k)) scroll_right a)
      with (a' <- scroll_right a ;; times (S k) scroll_right a').
    rewrite Hb. cbn [bind]. split; [exact Hc |]. split; [congruence |].
    rewrite Hic, Hi, Hlb, Zplus_mod_idemp_l. f_equal. lia.
Qed.

Lemma scroll_left_times_any (k : nat) :
  forall a : ScrollableAlbumArea,
    3 < len a ->
    exists b,
      times (S k) scroll_left a = Ok b /\ tiles b = tiles a /\
      current_index b = (current_index a - Z.of_nat (S k)) mod len a.
Proof.
  induction k as [| k IH]; intros a Hlen.
  - destruct (scroll_left_step a Hlen) as [b [Hb [Ht [Hi _]]]].
    exists b. cbn [times]. rewrite Hb. cbn [bind]. repeat split; assumption.
  - destruct (scroll_left_step a Hlen) as [b [Hb [Ht [Hi _]]]].
    pose proof (len_same a b Ht) as Hlb.
    destruct (IH b) as [c [Hc [Htc Hic]]]; [lia |].
    exists c. change (times (S (S k)) scroll_left a)
      with (a' <- scroll_left a ;; times (S k) scroll_left a').
    rewrite Hb. cbn [bind]. split; [exact Hc |]. split; [congruence |].
    rewrite Hic, Hi, Hlb, Zminus_mod_idemp_l. f_equal. lia.
Qed.

(** X10. With more than three tiles and the index on a tile, [k] steps
    to the right move the index [k] places forward round the list, [k]
    steps to the left [k] places back; as many steps as there are tiles,
    either way, end on the tile they started from. *)
Theorem scroll_times (k : nat) (a : ScrollableAlbumArea) :
  3 < len a -> 0 <= current_index a < len a ->
  exists r l,
    times k scroll_right a = Ok r /\ times k scroll_left a = Ok l /\
    tiles r = tiles a /\ tiles l = tiles a /\
    current_index r = (current_index a + Z.of_nat k) mod len a /\
    current_index l = (current_index a - Z.of_nat k) mod len a /\
    (Z.of_nat k = len a ->
     current_index r = current_index a /\ current_index l = current_index a).
Proof.
  intros Hlen Hidx. destruct k as [| k].
  - exists a, a. cbn [times]. rewrite Z.add_0_r, Z.sub_0_r.
    rewrite Z.mod_small by exact Hidx. repeat split; try reflexivity; lia.
  - destruct (scroll_right_times_any k a Hlen) as [r [Hr [Htr Hir]]].
    destruct (scroll_left_times_any k a Hlen) as [l [Hl [Htl Hil]]].
    exists r, l. repeat split; try assumption.
    + rewrite Hir, H.
      replace (current_index a + len a) with (current_index a + 1 * len a)
        by lia.
      rewrite Z.mod_add by lia. apply Z.mod_small. exact Hidx.
    + rewrite Hil, H.
      replace (current_index a - len a)
        with (current_index a + (-1) * len a) by lia.
      rewrite Z.mod_add by lia. apply Z.mod_small. exact Hidx.
Qed.

Lemma scroll_times_witness :
  3 < len (holding [item0; item1; item2; item3; item4]) /\
  0 <= current_index (holding [item0; item1; item2; item3; item4])
    < len (holding [item0; item1; item2; item3; item4]) /\
  exists r l,
    times 7 scroll_right (holding [item0; item1; item2; item3; item4])
      = Ok r /\
    times 7 scroll_left (holding [item0; item1; item2; item3; item4])
      = Ok l /\
    current_index r = (0 + 7) mod 5 /\ current_index l = (0 - 7) mod 5.
Proof.
  assert (Hlen : 3 < len (holding [item0; item1; item2; item3; item4]))
    by reflexivity.
  assert (Hidx : 0 <= current_index
                        (holding [item0; item1; item2; item3; item4])
                 < len (holding [item0; item1; item2; item3; item4]))
    by (vm_compute; split; [discriminate | reflexivity]).
  split; [exact Hlen |]. split; [exact Hidx |].
  destruct (scroll_times 7 _ Hlen Hidx)
    as [r [l [Hr [Hl [_ [_ [Hir [Hil _]]]]]]]].
  exists r, l. repeat split; assumption.
Defined.

Lemma play_current_ok (a : ScrollableAlbumArea) :
  exists signals, play_current a = Ok signals.
Proof.
  unfold play_current, center_tile.
  destruct (Z.leb_spec (len a) 3) as [Hle | Hgt].
  - exists []. reflexivity.
  - rewrite py_mod_pos by lia. cbn [bind].
    destruct (item_defined a 1) as [t [_ Hget]]; [lia |].
    rewrite Hget. cbn [bind].
    destruct t as [ti [[| ch p] |]]; eexists; reflexivity.
Qed.

(** [add_tile] raises nothing, whatever the carousel: it appends the
    tile, keeps the index and redraws the grid. *)
Lemma add_tile_step (tile : AlbumTile) (a : ScrollableAlbumArea) :
  exists b,
    add_tile tile a = Ok b /\
    tiles b = (tiles a ++ [tile])%list /\
    current_index b = current_index a /\
    update_visible_tiles b = Ok b.
Proof.
  unfold add_tile.
  set (a' := {| tiles := (tiles a ++ [tile])%list;
                current_index := current_index a; layout := layout a |}).
  assert (Hlen' : len a' = len a + 1).
  { unfold len, a'. cbn [tiles]. rewrite length_app. simpl. lia. }
  assert (Hpos : 0 <= len a) by (unfold len; lia).
  destruct (update_visible_tiles_window a')
    as [t0 [t1 [t2 [_ [_ [_ Hupd]]]]]]; [lia |].
  destruct (update_visible_tiles_again a' _ Hupd) as [Ht [Hi Hagain]].
  eexists. split; [exact Hupd |]. repeat split; assumption.
Qed.

(** What the calls keep true of the carousel: the index is on a tile
    when there is one, it is 0 as long as there are no more than three,
    and the grid shows what a redraw would show. *)
Lemma call_keeps (c : Call) (a : ScrollableAlbumArea) :
  0 <= current_index a ->
  (tiles a <> [] ->
   current_index a < len a /\ update_visible_tiles a = Ok a) ->
  (len a <= 3 -> current_index a = 0) ->
  exists b,
    call c a = Ok b /\
    tiles b = (tiles a ++ added [c])%list /\
    0 <= current_index b /\
    (tiles b <> [] ->
     current_index b < len b /\ update_visible_tiles b = Ok b) /\
    (len b <= 3 -> current_index b = 0).
Proof.
  intros H0 Hin H3.
  assert (Hsame : exists b, Ok a = Ok b /\
            tiles b = (tiles a ++ [])%list /\ 0 <= current_index b /\
            (tiles b <> [] ->
             current_index b < len b /\ update_visible_tiles b = Ok b) /\
            (len b <= 3 -> current_index b = 0)).
  { exists a. rewrite app_nil_r. repeat split; try assumption; apply Hin;
      assumption. }
  destruct c as [tile | | |]; cbn [call added].
  - unfold add_tile.
    set (a' := {| tiles := (tiles a ++ [tile])%list;
                  current_index := current_index a; layout := layout a |}).
    assert (Hlen' : len a' = len a + 1).
    { unfold len, a'. cbn [tiles]. rewrite length_app. simpl. lia. }
    assert (Hpos : 0 <= len a) by (unfold len; lia).
    destruct (update_visible_tiles_window a')
      as [t0 [t1 [t2 [_ [_ [_ Hupd]]]]]]; [lia |].
    remember {| tiles := tiles a'; current_index := current_index a';
                layout := [(0, t0); (1, t1); (2, t2)] |} as b eqn:Eb.
    destruct (update_visible_tiles_again a' b Hupd) as [Ht [Hi Hagain]].
    pose proof (len_same a' b Ht) as Hlb.
    exists b. split; [exact Hupd |]. split; [exact Ht |].
    rewrite Hi, Hlb, Hlen'. cbn [a' current_index].
    split; [exact H0 |]. split.
    + intros _. split; [| exact Hagain].
      destruct (tiles a) as [| x xs] eqn:Ea.
      * assert (len a = 0) by (unfold len; rewrite Ea; reflexivity).
        rewrite H3 by lia. lia.
      * assert (current_index a < len a) by (apply Hin; discriminate). lia.
    + intros Hle. apply H3. lia.
  - unfold scroll_left. destruct (Z.leb_spec (len a) 3) as [Hle | Hgt];
      [exact Hsame |].
    destruct (scroll_step a (-1) Hgt) as [b [Hb [Ht [Hi Hagain]]]].
    exists b. pose proof (len_same a b Ht) as Hlb.
    pose proof (Z.mod_pos_bound (current_index a + -1) (len a)) as Hm.
    split; [exact Hb |]. rewrite app_nil_r. repeat split; try assumption;
      try lia.
  - unfold scroll_right. destruct (Z.leb_spec (len a) 3) as [Hle | Hgt];
      [exact Hsame |].
    destruct (scroll_step a 1 Hgt) as [b [Hb [Ht [Hi Hagain]]]].
    exists b. pose proof (len_same a b Ht) as Hlb.
    pose proof (Z.mod_pos_bound (current_index a + 1) (len a)) as Hm.
    split; [exact Hb |]. rewrite app_nil_r. repeat split; try assumption;
      try lia.
  - destruct (play_current_ok a) as [signals Hp]. rewrite Hp. cbn [bind].
    exact Hsame.
Qed.

Lemma calls_keep (cs : list Call) :
  forall a : ScrollableAlbumArea,
    0 <= current_index a ->
    (tiles a <> [] ->
     current_index a < len a /\ update_visible_tiles a = Ok a) ->
    (len a <= 3 -> current_index a = 0) ->
    exists b,
      calls cs a = Ok b /\
      tiles b = (tiles a ++ added cs)%list /\
      0 <= current_index b /\
      (tiles b <> [] ->
       current_index b < len b /\ update_visible_tiles b = Ok b) /\
      (len b <= 3 -> current_index b = 0).
Proof.
  induction cs as [| c cs IH]; intros a H0 Hin H3.
  - exists a. cbn [calls added]. rewrite app_nil_r.
    repeat split; try assumption; apply Hin; assumption.
  - destruct (call_keeps c a H0 Hin H3) as [b [Hb [Ht [H0b [Hinb H3b]]]]].
    destruct (IH b H0b Hinb H3b) as [d [Hd [Htd Hrest]]].
    exists d. cbn [calls]. rewrite Hb. cbn [bind]. split; [exact Hd |].
    split; [| exact Hrest].
    rewrite Htd, Ht, <- List.app_assoc. f_equal.
    destruct c; reflexivity.
Qed.

(** X11. Whatever tiles are added to a new carousel and whatever buttons
    are pressed, in any order, no call raises: the division by zero of
    [update_visible_tiles] is out of reach. The carousel holds the tiles
    added, in order; its index is on a tile as soon as there is one, and
    stays 0 as long as there are no more than three; the grid shows what
    a redraw would show. *)
Theorem calls_from_init (cs : list Call) :
  exists a,
    calls cs init = Ok a /\
    tiles a = added cs /\
    0 <= current_index a /\
    (tiles a <> [] ->
     current_index a < len a /\ update_visible_tiles a = Ok a) /\
    (len a <= 3 -> current_index a = 0).
Proof.
  destruct (calls_keep cs init) as [a Ha].
  - reflexivity.
  - intros H. contradiction H. reflexivity.
  - reflexivity.
  - exists a. exact Ha.
Qed.

End CarouselRuns.

(** ** The audio player *)

Module AudioFacts.

Import Audio Calls.

Lemma step_song (a : AudioPlayer) (d : Z) :
  playlist a <> [] ->
  exists p,
    song a ((current_index a + d) mod len a) = Some p /\
    0 <= (current_index a + d) mod len a < len a /\
    (i <- py_mod (current_index a + d) (len a) ;;
     load_current_song (set_index a i)) =
    Ok {| playlist := playlist a;
          current_index := (current_index a + d) mod len a;
          loaded := p :: loaded a |}.
Proof.
  intros Hne.
  assert (Hlen : 0 < len a).
  { unfold len. destruct (playlist a); [contradiction | simpl; lia]. }
  pose proof (Z.mod_pos_bound (current_index a + d) (len a) Hlen) as Hb.
  destruct (getitem_in_range (playlist a) ((current_index a + d) mod len a) Hb)
    as [p [Hget Hnth]].
  exists p. split; [exact Hnth |]. split; [exact Hb |].
  rewrite py_mod_pos by exact Hlen. cbn [bind].
  unfold load_current_song. cbn [set_index current_index playlist loaded].
  change (len (set_index a ((current_index a + d) mod len a))) with (len a).
  destruct (Z.leb_spec 0 ((current_index a + d) mod len a)); [| lia].
  destruct (Z.ltb_spec ((current_index a + d) mod len a) (len a)); [| lia].
  cbn [andb]. rewrite Hget. reflexivity.
Qed.

Lemma next_song_step (a : AudioPlayer) :
  playlist a <> [] ->
  exists p,
    song a ((current_index a + 1) mod len a) = Some p /\
    0 <= (current_index a + 1) mod len a < len a /\
    next_song a =
      Ok {| playlist := playlist a;
            current_index := (current_index a + 1) mod len a;
            loaded := p :: loaded a |}.
Proof.
  intros Hne. destruct (step_song a 1 Hne) as [p Hp]. exists p.
  unfold next_song. destruct (playlist a) eqn:El; [contradiction |].
  exact Hp.
Qed.

Lemma prev_song_step (a : AudioPlayer) :
  playlist a <> [] ->
  exists p,
    song a ((current_index a - 1) mod len a) = Some p /\
    0 <= (current_index a - 1) mod len a < len a /\
    prev_song a =
      Ok {| playlist := playlist a;
            current_index := (current_index a - 1) mod len a;
            loaded := p :: loaded a |}.
Proof.
  intros Hne. destruct (step_song a (-1) Hne) as [p Hp]. exists p.
  change (current_index a + -1) with (current_index a - 1) in Hp.
  unfold prev_song. destruct (playlist a) eqn:El; [contradiction |].
  exact Hp.
Qed.

(** X12. [next_song] and [prev_song] raise nothing. On an empty playlist
    they change nothing; otherwise, wherever the index was, they put it on
    the song one place forward, one place back, counting round the
    playlist, and hand that song to the media player. *)
Theorem next_prev_song (a : AudioPlayer) :
  (playlist a = [] -> next_song a = Ok a /\ prev_song a = Ok a) /\
  (playlist a <> [] ->
   exists p q,
     song a ((current_index a + 1) mod len a) = Some p /\
     song a ((current_index a - 1) mod len a) = Some q /\
     0 <= (current_index a + 1) mod len a < len a /\
     0 <= (current_index a - 1) mod len a < len a /\
     next_song a =
       Ok {| playlist := playlist a;
             current_index := (current_index a + 1) mod len a;
             loaded := p :: loaded a |} /\
     prev_song a =
       Ok {| playlist := playlist a;
             current_index := (current_index a - 1) mod len a;
             loaded := q :: loaded a |}).
Proof.
  split.
  - intros Hnil. unfold next_song, prev_song. rewrite Hnil. split; reflexivity.
  - intros Hne.
    destruct (next_song_step a Hne) as [p [Hp [Hbp Hnext]]].
    destruct (prev_song_step a Hne) as [q [Hq [Hbq Hprev]]].
    exists p, q. repeat split; try assumption; lia.
Qed.

Lemma next_prev_song_witness :
  (playlist init = [] /\ next_song init = Ok init /\ prev_song init = Ok init)
  /\
  (playlist (fresh ["a"; "b"; "c"]) <> [] /\
   exists p q,
     song (fresh ["a"; "b"; "c"]) ((-1 + 1) mod 3) = Some p /\
     song (fresh ["a"; "b"; "c"]) ((-1 - 1) mod 3) = Some q /\
     next_song (fresh ["a"; "b"; "c"]) =
       Ok {| playlist := ["a"; "b"; "c"]; current_index := (-1 + 1) mod 3;
             loaded := [p] |} /\
     prev_song (fresh ["a"; "b"; "c"]) =
       Ok {| playlist := ["a"; "b"; "c"]; current_index := (-1 - 1) mod 3;
             loaded := [q] |}).
Proof.
  split.
  - split; [reflexivity |].
    exact (proj1 (next_prev_song init) eq_refl).
  - assert (Hne : playlist (fresh ["a"; "b"; "c"]) <> [])
      by (vm_compute; discriminate).
    split; [exact Hne |].
    destruct (proj2 (next_prev_song (fresh ["a"; "b"; "c"])) Hne)
      as [p [q [Hp [Hq [_ [_ [Hn Hv]]]]]]].
    exists p, q. repeat split; assumption.
Defined.

Lemma nonempty_len (a : AudioPlayer) : playlist a <> [] <-> 0 < len a.
Proof.
  unfold len. destruct (playlist a) as [| s l]; cbn [List.length]; split.
  - intros H. contradiction.
  - lia.
  - intros _. lia.
  - intros _. discriminate.
Qed.

(** X13. With the index on a song, [next_song] followed by [prev_song],
    or [prev_song] followed by [next_song], ends on the song it started
    from, which is the one handed last to the media player. *)
Theorem next_prev_back (a : AudioPlayer) :
  0 <= current_index a < len a ->
  exists n b p b',
    next_song a = Ok n /\ prev_song n = Ok b /\
    prev_song a = Ok p /\ next_song p = Ok b' /\
    playlist b = playlist a /\ playlist b' = playlist a /\
    current_index b = current_index a /\
    current_index b' = current_index a /\
    now_playing b = song a (current_index a) /\
    now_playing b' = song a (current_index a).
Proof.
  intros Hidx.
  assert (Hne : playlist a <> []) by (apply nonempty_len; lia).
  destruct (next_song_step a Hne) as [s1 [_ [_ Hn]]].
  destruct (prev_song_step a Hne) as [s2 [_ [_ Hp]]].
  set (n := {| playlist := playlist a;
               current_index := (current_index a + 1) mod len a;
               loaded := s1 :: loaded a |}) in *.
  set (p := {| playlist := playlist a;
               current_index := (current_index a - 1) mod len a;
               loaded := s2 :: loaded a |}) in *.
  destruct (prev_song_step n Hne) as [s3 [Hs3 [_ Hb]]].
  destruct (next_song_step p Hne) as [s4 [Hs4 [_ Hb']]].
  change (len n) with (len a) in *. change (len p) with (len a) in *.
  change (playlist n) with (playlist a) in *.
  change (playlist p) with (playlist a) in *.
  cbn [n p current_index] in Hs3, Hs4, Hb, Hb'.
  assert (E1 : ((current_index a + 1) mod len a - 1) mod len a
               = current_index a).
  { rewrite Zminus_mod_idemp_l.
    replace (current_index a + 1 - 1) with (current_index a) by lia.
    apply Z.mod_small. exact Hidx. }
  assert (E2 : ((current_index a - 1) mod len a + 1) mod len a
               = current_index a).
  { rewrite Zplus_mod_idemp_l.
    replace (current_index a - 1 + 1) with (current_index a) by lia.
    apply Z.mod_small. exact Hidx. }
  rewrite E1 in Hs3, Hb. rewrite E2 in Hs4, Hb'.
  unfold song in *. subst n p. cbn [playlist] in Hs3, Hs4.
  eexists _, _, _, _.
  split; [exact Hn |]. split; [exact Hb |].
  split; [exact Hp |]. split; [exact Hb' |].
  unfold now_playing. cbn [playlist current_index loaded hd_error].
  repeat split; congruence.
Qed.

Lemma next_prev_back_witness :
  0 <= current_index (set_index (fresh ["a"; "b"; "c"]) 2)
    < len (set_index (fresh ["a"; "b"; "c"]) 2) /\
  exists n b,
    next_song (set_index (fresh ["a"; "b"; "c"]) 2) = Ok n /\
    prev_song n = Ok b /\ current_index b = 2 /\ now_playing b = Some "c".
Proof.
  assert (H : 0 <= current_index (set_index (fresh ["a"; "b"; "c"]) 2)
              < len (set_index (fresh ["a"; "b"; "c"]) 2))
    by (vm_compute; split; [discriminate | reflexivity]).
  split; [exact H |].
  destruct (next_prev_back _ H)
    as [n [b [p [b' [Hn [Hb [_ [_ [_ [_ [Hi [_ [Hs _]]]]]]]]]]]]].
  exists n, b. repeat split; assumption.
Defined.

Lemma fresh_from (songs : list string) :
  forall a : AudioPlayer,
    playlist (fold_left (fun a path => add_song path a) songs a)
      = (playlist a ++ songs)%list /\
    current_index (fold_left (fun a path => add_song path a) songs a)
      = current_index a /\
    loaded (fold_left (fun a path => add_song path a) songs a) = loaded a.
Proof.
  induction songs as [| s songs IH]; intros a; cbn [fold_left].
  - rewrite app_nil_r. repeat split.
  - destruct (IH (add_song s a)) as [Hp [Hi Hl]].
    rewrite Hp, Hi, Hl. cbn [add_song playlist current_index loaded].
    rewrite <- List.app_assoc. repeat split.
Qed.

(** X14. A player that was given songs and has not played yet has its
    index at -1. [next_song] then starts the first song; [prev_song]
    starts the song two places before the end of the playlist counting
    round it, which with two songs or more is the last but one, not the
    last. *)
Theorem fresh_player (first : string) (rest : list string) :
  playlist (fresh (first :: rest)) = first :: rest /\
  current_index (fresh (first :: rest)) = -1 /\
  exists n p s,
    next_song (fresh (first :: rest)) = Ok n /\
    current_index n = 0 /\ now_playing n = Some first /\
    prev_song (fresh (first :: rest)) = Ok p /\
    current_index p
      = (Z.of_nat (List.length rest) - 1) mod (Z.of_nat (List.length rest) + 1)
    /\
    (rest <> [] -> current_index p = Z.of_nat (List.length rest) - 1) /\
    nth_error (first :: rest) (Z.to_nat (current_index p)) = Some s /\
    now_playing p = Some s.
Proof.
  destruct (fresh_from (first :: rest) init) as [Hp [Hi Hl]].
  fold (fresh (first :: rest)) in Hp, Hi, Hl.
  cbn [init playlist current_index loaded app] in Hp, Hi, Hl.
  split; [exact Hp |]. split; [exact Hi |].
  assert (Hne : playlist (fresh (first :: rest)) <> [])
    by (rewrite Hp; discriminate).
  assert (Hlen : len (fresh (first :: rest)) = Z.of_nat (List.length rest) + 1).
  { unfold len. rewrite Hp. cbn [List.length]. lia. }
  destruct (next_song_step _ Hne) as [s1 [Hs1 [_ Hn]]].
  destruct (prev_song_step _ Hne) as [s2 [Hs2 [_ Hv]]].
  rewrite Hi, Hlen, Hp, Hl in Hn, Hv. unfold song in Hs1, Hs2.
  rewrite Hi, Hlen, Hp in Hs1, Hs2.
  replace (-1 + 1) with 0 in Hs1, Hn by lia.
  rewrite Z.mod_0_l in Hs1, Hn by lia. cbn in Hs1. injection Hs1 as <-.
  replace (-1 - 1)
    with (Z.of_nat (List.length rest) - 1
          + (-1) * (Z.of_nat (List.length rest) + 1)) in Hs2, Hv by lia.
  rewrite Z.mod_add in Hs2, Hv by lia.
  eexists _, _, s2. split; [exact Hn |]. split; [reflexivity |].
  split; [reflexivity |]. split; [exact Hv |].
  cbn [current_index now_playing loaded hd_error].
  split; [reflexivity |]. split; [| split; [exact Hs2 | reflexivity]].
  intros Hrest. apply Z.mod_small.
  destruct rest; [contradiction | cbn [List.length]; lia].
Qed.

Lemma next_song_times_any (k : nat) :
  forall a : AudioPlayer,
    playlist a <> [] ->
    exists b,
      times (S k) next_song a = Ok b /\ playlist b = playlist a /\
      current_index b = (current_index a + Z.of_nat (S k)) mod len a /\
      List.length (loaded b) = (S k + List.length (loaded a))%nat /\
      now_playing b = song a (current_index b).
Proof.
  induction k as [| k IH]; intros a Hne.
  - destruct (next_song_step a Hne) as [p [Hp [_ Hn]]].
    eexists. cbn [times]. rewrite Hn. cbn [bind].
    split; [reflexivity |]. cbn [playlist current_index loaded].
    repeat split. unfold now_playing. cbn [loaded hd_error current_index].
    symmetry. exact Hp.
  - destruct (next_song_step a Hne) as [p [Hp [_ Hn]]].
    set (n := {| playlist := playlist a;
                 current_index := (current_index a + 1) mod len a;
                 loaded := p :: loaded a |}) in *.
    destruct (IH n Hne) as [b [Hb [Hpb [Hib [Hlb Hsb]]]]].
    exists b. change (times (S (S k)) next_song a)
      with (a' <- next_song a ;; times (S k) next_song a').
    rewrite Hn. cbn [bind]. split; [exact Hb |]. split; [exact Hpb |].
    change (len n) with (len a) in Hib. cbn [n current_index loaded] in Hib, Hlb.
    split; [| split].
    + rewrite Hib, Zplus_mod_idemp_l. f_equal. lia.
    + rewrite Hlb. cbn [List.length]. lia.
    + exact Hsb.
Qed.

(** X15. With the index on a song, [k] calls of [next_song] raise
    nothing, hand [k] songs to the media player and leave the index [k]
    places forward counting round the playlist: as many calls as the
    playlist has songs end on the song they started from. *)
Theorem next_song_times (k : nat) (a : AudioPlayer) :
  0 <= current_index a < len a ->
  exists b,
    times k next_song a = Ok b /\ playlist b = playlist a /\
    current_index b = (current_index a + Z.of_nat k) mod len a /\
    List.length (loaded b) = (k + List.length (loaded a))%nat /\
    (Z.of_nat k = len a ->
     current_index b = current_index a /\
     now_playing b = song a (current_index a)).
Proof.
  intros Hidx. destruct k as [| k].
  - exists a. cbn [times]. rewrite Z.add_0_r, Z.mod_small by exact Hidx.
    repeat split; lia.
  - assert (Hne : playlist a <> []) by (apply nonempty_len; lia).
    destruct (next_song_times_any k a Hne) as [b [Hb [Hp [Hi [Hl Hs]]]]].
    exists b. repeat split; try assumption.
    + rewrite Hi, H.
      replace (current_index a + len a) with (current_index a + 1 * len a)
        by lia.
      rewrite Z.mod_add by lia. apply Z.mod_small. exact Hidx.
    + rewrite Hs, Hi, H.
      replace (current_index a + len a) with (current_index a + 1 * len a)
        by lia.
      rewrite Z.mod_add by lia. rewrite Z.mod_small by exact Hidx.
      reflexivity.
Qed.

Lemma next_song_times_witness :
  0 <= current_index (set_index (fresh ["a"; "b"; "c"]) 1)
    < len (set_index (fresh ["a"; "b"; "c"]) 1) /\
  exists b,
    times 3 next_song (set_index (fresh ["a"; "b"; "c"]) 1) = Ok b /\
    current_index b = 1 /\ now_playing b = Some "b".
Proof.
  assert (H : 0 <= current_index (set_index (fresh ["a"; "b"; "c"]) 1)
              < len (set_index (fresh ["a"; "b"; "c"]) 1))
    by (vm_compute; split; [discriminate | reflexivity]).
  split; [exact H |].
  destruct (next_song_times 3 _ H) as [b [Hb [_ [_ [_ Hback]]]]].
  destruct (Hback eq_refl) as [Hi Hs].
  exists b. repeat split; assumption.
Defined.

End AudioFacts.

(** ** File names *)

Module FileNameFacts.

Import PyStr FileName PyStrFacts StripFacts.

Lemma getitem_last {A : Type} (front : list A) (x : A) :
  getitem (front ++ [x]) (-1) = Ok x.
Proof.
  unfold getitem. rewrite List.length_app. cbn [List.length].
  change (-1 <? 0) with true. cbv iota.
  replace (-1 + Z.of_nat (List.length front + 1))
    with (Z.of_nat (List.length front)) by lia.
  destruct (Z.leb_spec 0 (Z.of_nat (List.length front))); [| lia].
  destruct (Z.ltb_spec (Z.of_nat (List.length front))
                       (Z.of_nat (List.length front + 1))); [| lia].
  cbn [andb]. rewrite Nat2Z.id, nth_error_app2 by lia.
  rewrite Nat.sub_diag. reflexivity.
Qed.

(** The last piece of a split holds no separator; it is the whole text
    when there is one piece, and what follows the last separator
    otherwise. *)
Lemma split_last (s : string) (c : ascii) :
  exists front p,
    split s c = (front ++ [p])%list /\ index_of c p = None /\
    ((front = [] /\ s = p) \/
     (front <> [] /\ exists dir, s = dir ++ String c p)).
Proof.
  induction s as [| a s IH].
  - exists [], "". repeat split. left. split; reflexivity.
  - destruct IH as [front [p [Hs [Hp Hcase]]]].
    destruct (Ascii.eqb a c) eqn:Ha.
    + apply Ascii.eqb_eq in Ha. subst a.
      exists ("" :: front), p. simpl. rewrite Ascii.eqb_refl, Hs.
      split; [reflexivity |]. split; [exact Hp |]. right.
      split; [discriminate |].
      destruct Hcase as [[_ ->] | [_ [dir ->]]].
      * exists "". reflexivity.
      * exists (String c dir). reflexivity.
    + destruct (split_cons_other a c s Ha) as [h [t [H1 H2]]].
      rewrite H2. rewrite H1 in Hs.
      destruct front as [| f front].
      * injection Hs as -> ->. exists [], (String a p).
        split; [reflexivity |]. split.
        -- apply index_of_cons_none. split; assumption.
        -- left. split; [reflexivity |].
           destruct Hcase as [[_ ->] | [Hne _]]; [reflexivity |].
           contradiction Hne. reflexivity.
      * injection Hs as -> ->. exists (String a f :: front), p.
        split; [reflexivity |]. split; [exact Hp |]. right.
        split; [discriminate |].
        destruct Hcase as [[Habs _] | [_ [dir ->]]]; [discriminate |].
        exists (String a dir). reflexivity.
Qed.

(** [path.split('/')[-1]] raises nothing: it is the path itself when the
    path holds no slash, and what follows its last slash otherwise. *)
Lemma last_part_ok (path : string) :
  exists name,
    last_part path = Ok name /\ no_slash name /\
    (path = name \/ exists dir, path = dir ++ "/" ++ name).
Proof.
  destruct (split_last path "/") as [front [p [Hs [Hp Hcase]]]].
  exists p. unfold last_part. rewrite Hs, getitem_last.
  split; [reflexivity |]. split; [exact Hp |].
  destruct Hcase as [[_ H] | [_ [dir H]]]; [left; exact H |].
  right. exists dir. exact H.
Qed.

Lemma lower_app (a b : string) : lower (a ++ b) = lower a ++ lower b.
Proof.
  induction a as [| c a IH]; [reflexivity |]. simpl. rewrite IH. reflexivity.
Qed.

Lemma eqb_length (a b : string) :
  String.eqb a b = true -> String.length a = String.length b.
Proof. intros H. apply String.eqb_eq in H. rewrite H. reflexivity. Qed.

Lemma endswith_cons (a : ascii) (s suffix : string) :
  endswith (String a s) suffix =
  endswith s suffix || String.eqb (String a s) suffix.
Proof.
  unfold endswith. cbn [String.length].
  destruct (Nat.leb_spec (String.length suffix) (String.length s)) as [H1 | H1].
  - destruct (Nat.leb_spec (String.length suffix) (S (String.length s)));
      [| lia].
    replace (S (String.length s) - String.length suffix)%nat
      with (S (String.length s - String.length suffix)) by lia.
    cbn [drop andb].
    destruct (String.eqb (String a s) suffix) eqn:E;
      [| rewrite orb_false_r; reflexivity].
    apply eqb_length in E. cbn [String.length] in E. lia.
  - cbn [andb orb].
    destruct (Nat.leb_spec (String.length suffix) (S (String.length s)))
      as [H2 | H2].
    + replace (S (String.length s) - String.length suffix)%nat with O by lia.
      reflexivity.
    + cbn [andb]. destruct (String.eqb (String a s) suffix) eqn:E;
        [| reflexivity].
      apply eqb_length in E. cbn [String.length] in E. lia.
Qed.

Lemma index_of_app_some (a b : string) (c : ascii) :
  index_of c (a ++ String c b) <> None.
Proof.
  induction a as [| x a IH]; simpl.
  - rewrite Ascii.eqb_refl. discriminate.
  - destruct (Ascii.eqb x c); [discriminate |].
    destruct (index_of c (a ++ String c b)); [discriminate | contradiction].
Qed.

Lemma endswith_after_slash (dir name suffix : string) :
  no_slash suffix ->
  endswith (dir ++ String "/" name) suffix = endswith name suffix.
Proof.
  intros Hs.
  assert (Hneq : forall d, String.eqb (d ++ String "/" name) suffix = false).
  { intros d. destruct (String.eqb (d ++ String "/" name) suffix) eqn:E;
      [| reflexivity].
    apply String.eqb_eq in E. unfold no_slash in Hs. rewrite <- E in Hs.
    exfalso. exact (index_of_app_some d name "/" Hs). }
  induction dir as [| a dir IH].
  - change ("" ++ String "/" name) with (String "/" name).
    pose proof (Hneq "") as H0. cbn [append] in H0.
    rewrite endswith_cons, H0. apply orb_false_r.
  - change (String a dir ++ String "/" name)
      with (String a (dir ++ String "/" name)).
    pose proof (Hneq (String a dir)) as H0. cbn [append] in H0.
    rewrite endswith_cons, IH, H0. apply orb_false_r.
Qed.

(** Whether a path is of a supported format shows in what follows its
    last slash. *)
Lemma supported_after_slash (dir name : string) :
  supported (dir ++ "/" ++ name) = supported name.
Proof.
  unfold supported. change (dir ++ "/" ++ name) with (dir ++ String "/" name).
  rewrite lower_app. change (lower (String "/" name)) with (String "/" (lower name)).
  unfold endswith_any, supported_formats. cbn [existsb].
  rewrite !endswith_after_slash by reflexivity. reflexivity.
Qed.

End FileNameFacts.

(** ** A file dropped on a tile *)

Module AlbumFacts.

Import Carousel FileName Album FileNameFacts.

(** X16. [dropEvent] raises nothing. Without a file, or when the first
    file is not of a supported format, the tile stays as it is; otherwise
    the tile takes the path of the first file, and its label what follows
    the last slash of the path: a name that is not empty, holds no slash
    and is itself of a supported format. *)
Theorem dropEvent_label (files : list string) (t : AlbumTile) :
  exists t',
    dropEvent files t = Ok t' /\
    (files = [] -> t' = t) /\
    forall (file_path : string) (others : list string),
      files = file_path :: others ->
      (supported file_path = false -> t' = t) /\
      (supported file_path = true ->
       music_path t' = Some file_path /\
       no_slash (title t') /\
       (file_path = title t' \/
        exists dir, file_path = dir ++ "/" ++ title t') /\
       supported (title t') = true /\ title t' <> "").
Proof.
  destruct files as [| file_path others].
  - exists t. split; [reflexivity |]. split; [reflexivity |].
    intros f o H. discriminate.
  - cbn [dropEvent]. destruct (supported file_path) eqn:Hsup.
    + destruct (last_part_ok file_path) as [name [Hname [Hslash Hpath]]].
      rewrite Hname. cbn [bind]. eexists. split; [reflexivity |].
      split; [intros H; discriminate |].
      intros f o H. injection H as <- <-. rewrite Hsup.
      split; [intros H; discriminate |]. intros _.
      cbn [music_path title].
      assert (Hn : supported name = true).
      { destruct Hpath as [<- | [dir ->]]; [exact Hsup |].
        rewrite supported_after_slash in Hsup. exact Hsup. }
      repeat split; try assumption.
      intros ->. discriminate.
    + exists t. split; [reflexivity |]. split; [intros H; discriminate |].
      intros f o H. injection H as <- <-. rewrite Hsup.
      split; [reflexivity | intros H; discriminate].
Qed.

Lemma dropEvent_label_witness :
  exists t',
    dropEvent ["/home/me/Music/Song.MP3"; "b.txt"] App.empty_tile = Ok t' /\
    music_path t' = Some "/home/me/Music/Song.MP3" /\
    title t' = "Song.MP3".
Proof.
  destruct (dropEvent_label ["/home/me/Music/Song.MP3"; "b.txt"]
                            App.empty_tile) as [t' [Hd [_ Hf]]].
  destruct (Hf _ _ eq_refl) as [_ Hs].
  destruct (Hs eq_refl) as [Hp _].
  exists t'. split; [exact Hd |]. split; [exact Hp |].
  vm_compute in Hd. injection Hd as <-. reflexivity.
Defined.

End AlbumFacts.

(** ** The main window *)

Module AppFacts.

Import App FileNameFacts.

Lemma load_one (music_path : string) (before : list string) :
  Audio.load_current_song
    {| Audio.playlist := [music_path]; Audio.current_index := 0;
       Audio.loaded := before |} =
  Ok {| Audio.playlist := [music_path]; Audio.current_index := 0;
        Audio.loaded := music_path :: before |}.
Proof. reflexivity. Qed.

Lemma lyrics_update_ok (m : Metadata) (st : Lyrics.LyricsTile) :
  list_lyrics m = false ->
  exists st',
    lyrics_update_lyrics
      match md_lyrics m with
      | Some l => l
      | None => LyricsStr Lyrics.no_lyrics
      end st = Ok st' /\
    Lyrics.current_line st' = -1 /\
    (Lyrics.lyrics_lines st' <> [] ->
     List.length (Lyrics.lyrics_labels st')
     = List.length (Lyrics.lyrics_lines st')) /\
    (forall text, md_lyrics m = Some (LyricsStr text) ->
                  st' = Lyrics.update_lyrics text st) /\
    (md_lyrics m = Some (LyricsList []) ->
     Lyrics.lyrics_lines st' = [] /\
     Lyrics.lyrics_labels st' = Lyrics.lyrics_labels st) /\
    (md_lyrics m = None ->
     Lyrics.lyrics_lines st' = [] /\
     Lyrics.lyrics_labels st' =
       [{| Lyrics.caption := Lyrics.no_lyrics; Lyrics.bold := false |}]).
Proof.
  unfold list_lyrics. intros Hm.
  assert (Hstr : forall text,
             Lyrics.current_line (Lyrics.update_lyrics text st) = -1 /\
             (Lyrics.lyrics_lines (Lyrics.update_lyrics text st) <> [] ->
              List.length (Lyrics.lyrics_labels (Lyrics.update_lyrics text st))
              = List.length
                  (Lyrics.lyrics_lines (Lyrics.update_lyrics text st)))).
  { intros text. split.
    - unfold Lyrics.update_lyrics.
      rewrite LyricsFacts.parse_lrc_current_line. reflexivity.
    - apply (LyricsFacts.update_lyrics_track_ok text st). }
  destruct (md_lyrics m) as [[text | [| entry entries]] |];
    cbn [lyrics_update_lyrics]; try discriminate; eexists;
    (split; [reflexivity |]).
  - destruct (Hstr text) as [Hc Hl]. split; [exact Hc |]. split; [exact Hl |].
    split; [intros text' H; injection H as <-; reflexivity |].
    split; intros H; discriminate.
  - cbn [Lyrics.current_line Lyrics.lyrics_lines Lyrics.lyrics_labels].
    split; [reflexivity |].
    split; [intros H; contradiction H; reflexivity |].
    split; [intros text' H; discriminate |].
    split; [intros _; split; reflexivity | intros H; discriminate].
  - destruct (Hstr Lyrics.no_lyrics) as [Hc Hl].
    split; [exact Hc |]. split; [exact Hl |].
    split; [intros text' H; discriminate |].
    split; [intros H; discriminate | intros _; split; reflexivity].
Qed.

Lemma lyrics_update_raises (m : Metadata) (st : Lyrics.LyricsTile) :
  list_lyrics m = true ->
  lyrics_update_lyrics
    match md_lyrics m with
    | Some l => l
    | None => LyricsStr Lyrics.no_lyrics
    end st = Raise AttributeError.
Proof.
  unfold list_lyrics.
  destruct (md_lyrics m) as [[text | [| entry entries]] |];
    try discriminate. reflexivity.
Qed.

Lemma play_album_eq (music_path : string) (tp : TilesPlayer) :
  exists name,
    FileName.last_part music_path = Ok name /\
    FileName.no_slash name /\
    (music_path = name \/ exists dir, music_path = dir ++ "/" ++ name) /\
    play_album music_path tp =
    match find_tile music_path tp with
    | Some (_, d) =>
        match lyrics_update_lyrics
                match md_lyrics (metadata d) with
                | Some l => l
                | None => LyricsStr Lyrics.no_lyrics
                end (lyrics tp) with
        | Ok st =>
            Ok {| scroll_area := scroll_area tp;
                  tile_data := tile_data tp;
                  lyrics := st;
                  current_album :=
                    {| playing := Some music_path;
                       label :=
                         match md_cover (metadata d) with
                         | Some data => Pixmap data
                         | None =>
                             Text match md_title (metadata d) with
                                  | Some t => t
                                  | None => name
                                  end
                         end |};
                  audio_player :=
                    {| Audio.playlist := [music_path];
                       Audio.current_index := 0;
                       Audio.loaded :=
                         music_path :: Audio.loaded (audio_player tp) |} |}
        | Raise e => Raise e
        end
    | None =>
        Ok {| scroll_area := scroll_area tp;
              tile_data := tile_data tp;
              lyrics := lyrics tp;
              current_album := current_album tp;
              audio_player :=
                {| Audio.playlist := [music_path]; Audio.current_index := 0;
                   Audio.loaded :=
                     music_path :: Audio.loaded (audio_player tp) |} |}
    end.
Proof.
  destruct (last_part_ok music_path) as [name [Hname [Hslash Hpath]]].
  exists name. split; [exact Hname |]. split; [exact Hslash |].
  split; [exact Hpath |].
  unfold play_album. rewrite load_one.
  destruct (find_tile music_path tp) as [[t d] |]; [| reflexivity].
  rewrite Hname. cbn [bind].
  destruct (lyrics_update_lyrics _ (lyrics tp)); reflexivity.
Qed.

(** X17. [play_album] starts the file it is given, whether or not a
    tile of the carousel has its path: the playlist becomes that one
    file, at index 0, handed to the media player; when no tile has the
    path, the current album tile and the lyric panel stay as they were.
    The one case where it does not is a first tile with the path whose
    lyrics are a list with an entry, as a synchronised lyrics frame
    gives: [parse_lrc] calls [split] on the list, the call raises
    [AttributeError], and the file is not started. *)
Theorem play_album_starts (music_path : string) (tp : TilesPlayer) :
  (forall (t : Carousel.AlbumTile) (d : TileData),
      find_tile music_path tp = Some (t, d) ->
      list_lyrics (metadata d) = true ->
      play_album music_path tp = Raise AttributeError) /\
  ((forall (t : Carousel.AlbumTile) (d : TileData),
       find_tile music_path tp = Some (t, d) ->
       list_lyrics (metadata d) = false) ->
   exists tp',
     play_album music_path tp = Ok tp' /\
     scroll_area tp' = scroll_area tp /\
     Audio.playlist (audio_player tp') = [music_path] /\
     Audio.current_index (audio_player tp') = 0 /\
     Audio.loaded (audio_player tp')
       = music_path :: Audio.loaded (audio_player tp) /\
     (find_tile music_path tp = None ->
      current_album tp' = current_album tp /\ lyrics tp' = lyrics tp)).
Proof.
  destruct (play_album_eq music_path tp) as [name [_ [_ [_ H]]]].
  split.
  - intros t d Hfind Hlist. rewrite H, Hfind.
    rewrite (lyrics_update_raises (metadata d) (lyrics tp) Hlist).
    reflexivity.
  - intros Hstr. destruct (find_tile music_path tp) as [[t d] |].
    + destruct (lyrics_update_ok (metadata d) (lyrics tp)
                  (Hstr t d eq_refl)) as [st [Hst _]].
      rewrite Hst in H. eexists. split; [exact H |].
      cbn [scroll_area audio_player Audio.playlist Audio.current_index
           Audio.loaded].
      do 4 (split; [reflexivity |]). intros Hnone. discriminate.
    + eexists. split; [exact H |].
      cbn [scroll_area audio_player current_album lyrics Audio.playlist
           Audio.current_index Audio.loaded].
      do 4 (split; [reflexivity |]). intros _. split; reflexivity.
Qed.

Lemma play_album_starts_witness :
  play_album "data/a.mp3"
             (one_tile {| md_title := Some "A"; md_cover := None;
                          md_lyrics := Some (LyricsList [("la", 1000)]) |})
    = Raise AttributeError /\
  exists tp',
    play_album "data/a.mp3" init = Ok tp' /\
    Audio.loaded (audio_player tp') = ["data/a.mp3"] /\
    current_album tp' = current_album init /\ lyrics tp' = lyrics init.
Proof.
  split.
  - apply (proj1 (play_album_starts "data/a.mp3"
                    (one_tile {| md_title := Some "A"; md_cover := None;
                                 md_lyrics :=
                                   Some (LyricsList [("la", 1000)]) |}))
                 Carousel.item0
                 {| metadata :=
                      {| md_title := Some "A"; md_cover := None;
                         md_lyrics := Some (LyricsList [("la", 1000)]) |};
                    connected := true |});
      reflexivity.
  - destruct (proj2 (play_album_starts "data/a.mp3" init))
      as [tp' [H [_ [_ [_ [Hl Hnone]]]]]].
    + intros t d Hfind. discriminate.
    + destruct (Hnone eq_refl) as [Hc Hy].
      exists tp'. repeat split; assumption.
Defined.

(** X18. When a tile has the path and the lyrics of the first such tile
    are not a list with an entry, [play_album] raises nothing and uses
    that tile: the current album tile gets the path and shows the cover
    of the tile when its metadata has one, else its title, else what
    follows the last slash of the path. The lyric panel has its cursor at
    -1; it loads the lyrics when they are a string, shows no line and the
    placeholder label when the metadata has none, and shows no line and
    keeps the labels it had when they are the empty list. *)
Theorem play_album_shows (music_path : string) (tp : TilesPlayer)
        (t : Carousel.AlbumTile) (d : TileData) :
  find_tile music_path tp = Some (t, d) ->
  list_lyrics (metadata d) = false ->
  exists tp',
    play_album music_path tp = Ok tp' /\
    Carousel.music_path t = Some music_path /\
    playing (current_album tp') = Some music_path /\
    (forall data, md_cover (metadata d) = Some data ->
                  label (current_album tp') = Pixmap data) /\
    (forall title, md_cover (metadata d) = None ->
                   md_title (metadata d) = Some title ->
                   label (current_album tp') = Text title) /\
    (md_cover (metadata d) = None -> md_title (metadata d) = None ->
     exists name,
       label (current_album tp') = Text name /\ FileName.no_slash name /\
       (music_path = name \/ exists dir, music_path = dir ++ "/" ++ name)) /\
    Lyrics.current_line (lyrics tp') = -1 /\
    (forall text, md_lyrics (metadata d) = Some (LyricsStr text) ->
                  lyrics tp' = Lyrics.update_lyrics text (lyrics tp)) /\
    (md_lyrics (metadata d) = None ->
     Lyrics.lyrics_lines (lyrics tp') = [] /\
     Lyrics.lyrics_labels (lyrics tp') =
       [{| Lyrics.caption := Lyrics.no_lyrics; Lyrics.bold := false |}]) /\
    (md_lyrics (metadata d) = Some (LyricsList []) ->
     Lyrics.lyrics_lines (lyrics tp') = [] /\
     Lyrics.lyrics_labels (lyrics tp') = Lyrics.lyrics_labels (lyrics tp)).
Proof.
  intros Hfind Hlist.
  destruct (play_album_eq music_path tp) as [name [_ [Hslash [Hpath H]]]].
  rewrite Hfind in H.
  destruct (lyrics_update_ok (metadata d) (lyrics tp) Hlist)
    as [st [Hst [Hcur [_ [Hstr [Hempty Hnone]]]]]].
  rewrite Hst in H. eexists. split; [exact H |].
  cbn [current_album lyrics playing label].
  split.
  { unfold find_tile in Hfind. apply find_some in Hfind.
    destruct Hfind as [_ Hsame]. cbn [fst] in Hsame. unfold same_path in Hsame.
    destruct (Carousel.music_path t) as [p |]; [| discriminate].
    apply String.eqb_eq in Hsame. rewrite Hsame. reflexivity. }
  split; [reflexivity |].
  split; [intros data ->; reflexivity |].
  split; [intros title -> ->; reflexivity |].
  split; [intros -> ->; exists name; repeat split; assumption |].
  split; [exact Hcur |]. split; [exact Hstr |].
  split; [exact Hnone | exact Hempty].
Qed.

Lemma play_album_shows_witness :
  find_tile "data/a.mp3"
            (one_tile {| md_title := Some "A"; md_cover := None;
                         md_lyrics := Some (LyricsStr Calls.two_lines) |})
  = Some (Carousel.item0,
          {| metadata := {| md_title := Some "A"; md_cover := None;
                            md_lyrics := Some (LyricsStr Calls.two_lines) |};
             connected := true |}) /\
  exists tp',
    play_album "data/a.mp3"
               (one_tile {| md_title := Some "A"; md_cover := None;
                            md_lyrics := Some (LyricsStr Calls.two_lines) |})
      = Ok tp' /\
    playing (current_album tp') = Some "data/a.mp3" /\
    label (current_album tp') = Text "A" /\
    Lyrics.lyrics_lines (lyrics tp') = [(1000, "b"); (5000, "c")].
Proof.
  split; [reflexivity |].
  destruct (play_album_shows "data/a.mp3" _ _ _
              (eq_refl : find_tile "data/a.mp3"
                 (one_tile {| md_title := Some "A"; md_cover := None;
                              md_lyrics :=
                                Some (LyricsStr Calls.two_lines) |})
                         = Some _) eq_refl)
    as [tp' [H [_ [Hp [_ [Ht [_ [_ [Hl _]]]]]]]]].
  exists tp'. split; [exact H |]. split; [exact Hp |].
  split; [exact (Ht "A" eq_refl eq_refl) |].
  rewrite (Hl _ eq_refl). vm_compute. reflexivity.
Defined.

Lemma single_song (p : string) (before : list string) :
  Audio.next_song {| Audio.playlist := [p]; Audio.current_index := 0;
                     Audio.loaded := before |} =
    Ok {| Audio.playlist := [p]; Audio.current_index := 0;
          Audio.loaded := p :: before |} /\
  Audio.prev_song {| Audio.playlist := [p]; Audio.current_index := 0;
                     Audio.loaded := before |} =
    Ok {| Audio.playlist := [p]; Audio.current_index := 0;
          Audio.loaded := p :: before |}.
Proof. split; reflexivity. Qed.

(** X19. After [play_album] the previous button, the next button and
    the end of the song each start the same file again: the playlist
    holds that one file, so the index comes back to it. They leave the
    tiles and the lyric panel alone. *)
Theorem play_album_repeats (music_path : string) (tp tp1 : TilesPlayer)
        (e : Event) :
  play_album music_path tp = Ok tp1 ->
  e = PrevSong \/ e = NextSong \/ e = StatusChanged EndOfMedia ->
  exists tp2,
    handle e tp1 = Ok tp2 /\
    Audio.playlist (audio_player tp2) = [music_path] /\
    Audio.current_index (audio_player tp2) = 0 /\
    Audio.loaded (audio_player tp2)
      = music_path :: music_path :: Audio.loaded (audio_player tp) /\
    scroll_area tp2 = scroll_area tp1 /\
    current_album tp2 = current_album tp1 /\ lyrics tp2 = lyrics tp1.
Proof.
  intros Hplay He.
  destruct (play_album_eq music_path tp) as [name [_ [_ [_ H]]]].
  rewrite H in Hplay.
  assert (Haudio : audio_player tp1 =
                   {| Audio.playlist := [music_path];
                      Audio.current_index := 0;
                      Audio.loaded :=
                        music_path :: Audio.loaded (audio_player tp) |}).
  { destruct (find_tile music_path tp) as [[t d] |].
    - destruct (lyrics_update_lyrics _ (lyrics tp)); [| discriminate].
      injection Hplay as <-. reflexivity.
    - injection Hplay as <-. reflexivity. }
  clear Hplay H. destruct tp1 as [sa td ly ca au].
  cbn [audio_player] in Haudio. subst au.
  destruct (single_song music_path
              (music_path :: Audio.loaded (audio_player tp))) as [Hn Hp].
  destruct He as [-> | [-> | ->]]; cbn [handle on_status_changed audio_player];
    rewrite ?Hn, ?Hp; cbn [bind]; eexists; (split; [reflexivity |]);
    repeat split.
Qed.

Lemma play_album_repeats_witness :
  exists tp1,
    play_album "data/a.mp3" init = Ok tp1 /\
    exists tp2,
      handle (StatusChanged EndOfMedia) tp1 = Ok tp2 /\
      Audio.loaded (audio_player tp2) = ["data/a.mp3"; "data/a.mp3"].
Proof.
  eexists. split; [reflexivity |].
  destruct (play_album_repeats "data/a.mp3" init _ (StatusChanged EndOfMedia)
              eq_refl (or_intror (or_intror eq_refl)))
    as [tp2 [H [_ [_ [Hl _]]]]].
  exists tp2. split; [exact H | exact Hl].
Defined.

Lemma play_current_signal (a : Carousel.ScrollableAlbumArea) (p : string)
      (others : list string) :
  Carousel.play_current a = Ok (p :: others) ->
  In (Some p) (map Carousel.music_path (Carousel.tiles a)).
Proof.
  unfold Carousel.play_current, Carousel.center_tile.
  destruct (Z.leb_spec (Carousel.len a) 3) as [Hle | Hgt];
    [cbn [bind]; discriminate |].
  rewrite py_mod_pos by lia. cbn [bind].
  destruct (CarouselFacts.item_defined a 1) as [t [Hitem Hget]]; [lia |].
  rewrite Hget. cbn [bind]. unfold Carousel.item in Hitem.
  apply nth_error_In in Hitem.
  destruct t as [ti [[| ch q] |]]; try discriminate.
  intros H. injection H as <- _.
  apply in_map_iff. eexists. split; [| exact Hitem]. reflexivity.
Qed.

(** X20. The play button of the carousel does nothing with three tiles
    or fewer. With more it looks at the tile one place after the index,
    counting round the list: when that tile has a path that is not empty
    and its signal is connected, the press is [play_album] on that path;
    when the tile has no path, an empty one, or no connection, nothing
    changes. *)
Theorem play_button (tp : TilesPlayer) :
  (Carousel.len (scroll_area tp) <= 3 -> handle PlayCurrent tp = Ok tp) /\
  (3 < Carousel.len (scroll_area tp) ->
   exists t,
     Carousel.item (scroll_area tp) 1 = Some t /\
     (forall p, Carousel.music_path t = Some p -> p <> "" ->
                center_connected tp = true ->
                handle PlayCurrent tp = play_album p tp) /\
     (Carousel.music_path t = None \/ Carousel.music_path t = Some "" \/
      center_connected tp = false ->
      handle PlayCurrent tp = Ok tp)).
Proof.
  split; intros Hlen; cbn [handle];
    unfold Carousel.play_current, Carousel.center_tile.
  - destruct (Z.leb_spec (Carousel.len (scroll_area tp)) 3); [| lia].
    reflexivity.
  - destruct (Z.leb_spec (Carousel.len (scroll_area tp)) 3); [lia |].
    rewrite py_mod_pos by lia. cbn [bind].
    destruct (CarouselFacts.item_defined (scroll_area tp) 1)
      as [t [Hitem Hget]]; [lia |].
    rewrite Hget. cbn [bind]. exists t. split; [exact Hitem |]. split.
    + intros p Hp Hne Hc. destruct t as [ti mp]. cbn [Carousel.music_path] in Hp.
      subst mp. destruct p as [| ch p]; [contradiction Hne; reflexivity |].
      cbn [bind]. rewrite Hc. reflexivity.
    + intros Hcase. destruct t as [ti [[| ch p] |]]; try reflexivity.
      cbn [bind]. destruct Hcase as [Hx | [Hx | Hx]]; try discriminate.
      rewrite Hx. reflexivity.
Qed.

Lemma add_tile_ok (t : Carousel.AlbumTile) (d : TileData) (tp : TilesPlayer) :
  exists a,
    Carousel.tiles a = (Carousel.tiles (scroll_area tp) ++ [t])%list /\
    Carousel.current_index a = Carousel.current_index (scroll_area tp) /\
    Carousel.update_visible_tiles a = Ok a /\
    add_tile t d tp =
      Ok {| scroll_area := a;
            tile_data := (tile_data tp ++ [d])%list;
            lyrics := lyrics tp; current_album := current_album tp;
            audio_player := audio_player tp |}.
Proof.
  destruct (CarouselRuns.add_tile_step t (scroll_area tp))
    as [a [Ha [Ht [Hi Hagain]]]].
  exists a. repeat split; try assumption.
  unfold add_tile. rewrite Ha. reflexivity.
Qed.

Lemma add_library_ok (load_metadata : string -> Metadata)
      (files : list string) :
  forall tp : TilesPlayer,
    playing (current_album tp) = None ->
    exists tp',
      add_library load_metadata files tp = Ok tp' /\
      Carousel.tiles (scroll_area tp')
        = (Carousel.tiles (scroll_area tp) ++ library files)%list /\
      Carousel.current_index (scroll_area tp')
        = Carousel.current_index (scroll_area tp) /\
      tile_data tp' =
        (tile_data tp ++
         map (fun file =>
                {| metadata := load_metadata (FileName.join music_dir file);
                   connected := true |})
             (filter FileName.supported files))%list /\
      lyrics tp' = lyrics tp /\ current_album tp' = current_album tp /\
      audio_player tp' = audio_player tp.
Proof.
  induction files as [| file files IH]; intros tp Hnone.
  - exists tp. cbn [add_library library filter map]. rewrite !app_nil_r.
    repeat split.
  - cbn [add_library]. unfold library. cbn [filter].
    destruct (FileName.supported file) eqn:Hsup.
    + unfold other_path. rewrite Hnone.
      destruct (add_tile_ok
                  {| Carousel.title := file;
                     Carousel.music_path :=
                       Some (FileName.join music_dir file) |}
                  {| metadata := load_metadata (FileName.join music_dir file);
                     connected := true |} tp)
        as [a [Ht [Hi [_ Hadd]]]].
      rewrite Hadd. cbn [bind].
      match goal with
      | |- context [add_library _ _ ?x] =>
          destruct (IH x Hnone) as [tp' [H [Ht' [Hi' [Hd [Hl [Hc Ha]]]]]]]
      end.
      exists tp'. split; [exact H |].
      cbn [scroll_area tile_data lyrics current_album audio_player] in *.
      rewrite Ht', Hi', Hd, Ht, Hi. cbn [map]. rewrite <- !List.app_assoc.
      repeat split; assumption.
    + destruct (IH tp Hnone) as [tp' [H Hrest]]. exists tp'.
      split; [exact H | exact Hrest].
Qed.

Lemma start_ok (load_metadata : string -> Metadata) (files : list string) :
  exists tp,
    start load_metadata files = Ok tp /\
    Carousel.tiles (scroll_area tp) = (library files ++ [empty_tile])%list /\
    Carousel.current_index (scroll_area tp) = 0 /\
    Carousel.update_visible_tiles (scroll_area tp) = Ok (scroll_area tp) /\
    tile_data tp =
      (map (fun file =>
              {| metadata := load_metadata (FileName.join music_dir file);
                 connected := true |})
           (filter FileName.supported files)
       ++ [{| metadata := no_metadata; connected := false |}])%list /\
    lyrics tp = Lyrics.attached /\
    current_album tp = current_album init /\
    audio_player tp = Audio.init.
Proof.
  unfold start, load_music_library.
  destruct (add_library_ok load_metadata files init eq_refl)
    as [tp' [H [Ht [Hi [Hd [Hl [Hc Ha]]]]]]].
  rewrite H. cbn [bind].
  destruct (add_tile_ok empty_tile
              {| metadata := no_metadata; connected := false |} tp')
    as [a [Hta [Hia [Hagain Hadd]]]].
  rewrite Hadd. eexists. split; [reflexivity |].
  cbn [scroll_area tile_data lyrics current_album audio_player].
  rewrite Hta, Hia, Ht, Hi, Hd.
  repeat split; assumption.
Qed.

(** X21. Whatever the music directory lists, building the window raises
    nothing. The carousel then holds one tile for each listed file of a
    supported format, in the order of the listing, its path the
    directory joined to the file name and its signal connected, and after
    them the drop tile, with no path and no connection; the index is 0
    and the grid shows what a redraw would show. Nothing is playing. *)
Theorem start_library (load_metadata : string -> Metadata)
        (files : list string) :
  exists tp,
    start load_metadata files = Ok tp /\
    Carousel.tiles (scroll_area tp) = (library files ++ [empty_tile])%list /\
    Carousel.current_index (scroll_area tp) = 0 /\
    Carousel.update_visible_tiles (scroll_area tp) = Ok (scroll_area tp) /\
    map connected (tile_data tp) =
      (map (fun _ => true) (library files) ++ [false])%list /\
    audio_player tp = Audio.init /\
    lyrics tp = Lyrics.attached.
Proof.
  destruct (start_ok load_metadata files)
    as [tp [H [Ht [Hi [Hagain [Hd [Hl [_ Ha]]]]]]]].
  exists tp. repeat split; try assumption.
  rewrite Hd, map_app. unfold library. rewrite !map_map. reflexivity.
Qed.

Lemma on_lyrics_click_ok (hit : nat -> bool) (st : Lyrics.LyricsTile) :
  exists st',
    Lyrics.on_lyrics_click hit st = Ok st' /\
    Lyrics.lyrics_lines st' = Lyrics.lyrics_lines st /\
    Lyrics.lyrics_labels st' = Lyrics.lyrics_labels st.
Proof.
  unfold Lyrics.on_lyrics_click.
  destruct (Lyrics.first_hit hit 0 (Lyrics.lyrics_labels st)) as [i |];
    [| exists st; repeat split].
  destruct (nth_error (Lyrics.lyrics_lines st) i) as [l |] eqn:Hnth.
  - rewrite (LyricsFacts.seek_line_in_range i st l Hnth).
    eexists. split; [reflexivity |]. destruct (Lyrics.player st); split;
      reflexivity.
  - unfold Lyrics.seek_line. apply nth_error_None in Hnth.
    destruct (Nat.ltb_spec i (List.length (Lyrics.lyrics_lines st))); [lia |].
    exists st. repeat split.
Qed.

Lemma update_position_keeps (position : Z) (st : Lyrics.LyricsTile) :
  (Lyrics.lyrics_lines st <> [] ->
   List.length (Lyrics.lyrics_labels st)
   = List.length (Lyrics.lyrics_lines st)) ->
  exists st',
    Lyrics.update_position position st = Ok st' /\
    (Lyrics.lyrics_lines st' <> [] ->
     List.length (Lyrics.lyrics_labels st')
     = List.length (Lyrics.lyrics_lines st')).
Proof.
  intros Hlab. destruct (Lyrics.lyrics_lines st) as [| l rest] eqn:El.
  - exists st. rewrite LyricsFacts.update_position_no_line by exact El.
    split; [reflexivity |]. rewrite El. exact Hlab.
  - destruct (LyricsFacts.update_position_ok position st)
      as [st' [H [Hl [_ Hn]]]].
    + rewrite El. discriminate.
    + rewrite El. apply Hlab. discriminate.
    + exists st'. split; [exact H |]. intros _.
      rewrite Hn, Hl, El. apply Hlab. discriminate.
Qed.

Lemma steady_audio (files : list string) (tp : TilesPlayer)
      (player : Audio.AudioPlayer) :
  steady files tp ->
  (Audio.playlist player = [] \/
   exists p, Audio.playlist player = [p] /\ Audio.current_index player = 0) ->
  Forall (fun p => In (Some p) (map Carousel.music_path (library files)))
         (Audio.playlist player ++ Audio.loaded player) ->
  steady files (with_audio tp player).
Proof.
  intros [Ht [Hd [Hi [Hl _]]]] Hp Hf. unfold steady.
  cbn [with_audio scroll_area tile_data lyrics audio_player].
  repeat split; try assumption; apply Hi.
Qed.

Lemma next_prev_keep (files : list string) (tp : TilesPlayer) :
  steady files tp ->
  exists n p,
    Audio.next_song (audio_player tp) = Ok n /\
    Audio.prev_song (audio_player tp) = Ok p /\
    steady files (with_audio tp n) /\ steady files (with_audio tp p).
Proof.
  intros Hs. pose proof Hs as [_ [_ [_ [_ [Hp Hf]]]]].
  destruct (audio_player tp) as [pl ci ld] eqn:Ea.
  cbn [Audio.playlist Audio.current_index Audio.loaded] in Hp, Hf.
  destruct Hp as [-> | [s [-> ->]]].
  - exists (Audio.Build_AudioPlayer [] ci ld), (Audio.Build_AudioPlayer [] ci ld).
    split; [reflexivity |]. split; [reflexivity |].
    assert (H : steady files (with_audio tp (Audio.Build_AudioPlayer [] ci ld))).
    { apply steady_audio; [exact Hs | left; reflexivity | exact Hf]. }
    split; exact H.
  - destruct (single_song s ld) as [Hn Hv].
    eexists _, _. split; [exact Hn |]. split; [exact Hv |].
    assert (H : steady files
                  (with_audio tp (Audio.Build_AudioPlayer [s] 0 (s :: ld)))).
    { apply steady_audio; [exact Hs | right; exists s; split; reflexivity |].
      cbn [Audio.playlist Audio.loaded app]. cbn [app] in Hf.
      inversion Hf as [| ? ? Hs0 Hrest]; subst.
      constructor; [exact Hs0 |]. constructor; assumption. }
    split; exact H.
Qed.

Lemma handle_keeps (files : list string) (e : Event) (tp : TilesPlayer) :
  steady files tp -> exists tp', handle e tp = Ok tp' /\ steady files tp'.
Proof.
  intros Hs. pose proof Hs as [Ht [Hd [Hi [Hl [Hp Hf]]]]].
  destruct e as [| | | | | position | status | hit]; cbn [handle].
  - unfold Carousel.scroll_left.
    destruct (Z.leb_spec (Carousel.len (scroll_area tp)) 3) as [Hle | Hgt].
    + cbn [bind]. eexists. split; [reflexivity |]. exact Hs.
    + destruct (CarouselRuns.scroll_step (scroll_area tp) (-1) Hgt)
        as [b [Hb [Htb [Hib _]]]].
      change (Carousel.current_index (scroll_area tp) + -1)
        with (Carousel.current_index (scroll_area tp) - 1) in Hb.
      rewrite Hb. cbn [bind]. eexists. split; [reflexivity |].
      unfold steady.
      cbn [with_scroll_area scroll_area tile_data lyrics audio_player].
      rewrite Htb, (CarouselRuns.len_same _ b Htb), Hib.
      repeat split; try assumption; apply Z.mod_pos_bound; lia.
  - unfold Carousel.scroll_right.
    destruct (Z.leb_spec (Carousel.len (scroll_area tp)) 3) as [Hle | Hgt].
    + cbn [bind]. eexists. split; [reflexivity |]. exact Hs.
    + destruct (CarouselRuns.scroll_step (scroll_area tp) 1 Hgt)
        as [b [Hb [Htb [Hib _]]]].
      rewrite Hb. cbn [bind]. eexists. split; [reflexivity |].
      unfold steady.
      cbn [with_scroll_area scroll_area tile_data lyrics audio_player].
      rewrite Htb, (CarouselRuns.len_same _ b Htb), Hib.
      repeat split; try assumption; apply Z.mod_pos_bound; lia.
  - destruct (CarouselRuns.play_current_ok (scroll_area tp))
      as [signals Hsig].
    rewrite Hsig. cbn [bind].
    destruct signals as [| p others]; [exists tp; split; [reflexivity | exact Hs] |].
    destruct (center_connected tp); [| exists tp; split; [reflexivity | exact Hs]].
    apply play_current_signal in Hsig. rewrite Ht, map_app in Hsig.
    apply in_app_or in Hsig. destruct Hsig as [Hin | [Habs | []]];
      [| discriminate].
    destruct (play_album_eq p tp) as [name [_ [_ [_ H]]]].
    assert (Hrest :
              Forall (fun q => In (Some q)
                                  (map Carousel.music_path (library files)))
                     (p :: p :: Audio.loaded (audio_player tp))).
    { constructor; [exact Hin |]. constructor; [exact Hin |].
      apply Forall_app in Hf. apply Hf. }
    destruct (find_tile p tp) as [[t d] |] eqn:Hfind.
    + assert (Hlist : list_lyrics (metadata d) = false).
      { unfold find_tile in Hfind. apply find_some in Hfind.
        destruct Hfind as [Hcomb _]. apply in_combine_r in Hcomb.
        exact (proj1 (Forall_forall _ _) Hd d Hcomb). }
      destruct (lyrics_update_ok (metadata d) (lyrics tp) Hlist)
        as [st [Hst [_ [Hlab _]]]].
      rewrite Hst in H. eexists. split; [exact H |]. unfold steady.
      cbn [scroll_area tile_data lyrics audio_player Audio.playlist
           Audio.current_index Audio.loaded app].
      split; [exact Ht |]. split; [exact Hd |]. split; [exact Hi |].
      split; [exact Hlab |]. split; [| exact Hrest].
      right. exists p. split; reflexivity.
    + eexists. split; [exact H |]. unfold steady.
      cbn [scroll_area tile_data lyrics audio_player Audio.playlist
           Audio.current_index Audio.loaded app].
      split; [exact Ht |]. split; [exact Hd |]. split; [exact Hi |].
      split; [exact Hl |]. split; [| exact Hrest].
      right. exists p. split; reflexivity.
  - destruct (next_prev_keep files tp Hs) as [n [p [_ [Hv [_ Hsp]]]]].
    rewrite Hv. cbn [bind]. exists (with_audio tp p).
    split; [reflexivity | exact Hsp].
  - destruct (next_prev_keep files tp Hs) as [n [p [Hn [_ [Hsn _]]]]].
    rewrite Hn. cbn [bind]. exists (with_audio tp n).
    split; [reflexivity | exact Hsn].
  - destruct (update_position_keeps position (lyrics tp) Hl) as [st' [H Hl']].
    rewrite H. cbn [bind]. eexists. split; [reflexivity |].
    unfold steady.
    cbn [with_lyrics scroll_area tile_data lyrics audio_player].
    repeat split; try assumption; apply Hi.
  - destruct status; cbn [on_status_changed];
      try (exists tp; split; [reflexivity | exact Hs]).
    destruct (next_prev_keep files tp Hs) as [n [p [Hn [_ [Hsn _]]]]].
    rewrite Hn. cbn [bind]. exists (with_audio tp n).
    split; [reflexivity | exact Hsn].
  - destruct (on_lyrics_click_ok hit (lyrics tp)) as [st' [H [Hl1 Hl2]]].
    rewrite H. cbn [bind]. eexists. split; [reflexivity |].
    unfold steady.
    cbn [with_lyrics scroll_area tile_data lyrics audio_player].
    rewrite Hl1, Hl2. repeat split; try assumption; apply Hi.
Qed.

Lemma run_keeps (files : list string) (events : list Event) :
  forall tp : TilesPlayer,
    steady files tp -> exists tp', run events tp = Ok tp' /\ steady files tp'.
Proof.
  induction events as [| e events IH]; intros tp Hs.
  - exists tp. split; [reflexivity | exact Hs].
  - destruct (handle_keeps files e tp Hs) as [tp1 [H1 Hs1]].
    destruct (IH tp1 Hs1) as [tp2 [H2 Hs2]].
    exists tp2. cbn [run]. rewrite H1. cbn [bind]. split; assumption.
Qed.

Lemma start_steady (load_metadata : string -> Metadata)
      (files : list string) :
  (forall file, In file files -> FileName.supported file = true ->
                list_lyrics (load_metadata (FileName.join music_dir file))
                = false) ->
  exists tp, start load_metadata files = Ok tp /\ steady files tp.
Proof.
  intros Hmeta.
  destruct (start_ok load_metadata files)
    as [tp [H [Ht [Hi [_ [Hd [Hl [_ Ha]]]]]]]].
  exists tp. split; [exact H |]. unfold steady.
  rewrite Ht, Hd, Hl, Ha. unfold Carousel.len. rewrite Hi, Ht, length_app.
  cbn [List.length Lyrics.attached Lyrics.lyrics_lines Audio.init
       Audio.playlist Audio.loaded app].
  split; [reflexivity |]. split; [| split; [lia | split; [| split]]].
  - apply Forall_app. split; [| constructor; [reflexivity | constructor]].
    apply Forall_forall. intros d Hin. apply in_map_iff in Hin.
    destruct Hin as [file [<- Hfile]]. apply filter_In in Hfile.
    cbn [metadata]. apply Hmeta; apply Hfile.
  - intros H0. contradiction H0. reflexivity.
  - left. reflexivity.
  - constructor.
Qed.

(** X22. When no listed file of a supported format carries lyrics that
    are a list with an entry, then from the window as built no sequence
    of button presses, position updates, status changes and clicks on the
    lyrics raises. After any of them the carousel still holds the tiles
    of the library and the drop tile, its index on one of them; the
    playlist is empty or holds one file, at index 0; and every file that
    was handed to the media player is the path of a listed file of a
    supported format. *)
Theorem session_keeps (load_metadata : string -> Metadata)
        (files : list string) (events : list Event) :
  (forall file, In file files -> FileName.supported file = true ->
                list_lyrics (load_metadata (FileName.join music_dir file))
                = false) ->
  exists tp,
    (tp0 <- start load_metadata files ;; run events tp0) = Ok tp /\
    Carousel.tiles (scroll_area tp) = (library files ++ [empty_tile])%list /\
    0 <= Carousel.current_index (scroll_area tp)
      < Carousel.len (scroll_area tp) /\
    (Audio.playlist (audio_player tp) = [] \/
     exists p, Audio.playlist (audio_player tp) = [p] /\
               Audio.current_index (audio_player tp) = 0) /\
    Forall (fun p => exists file,
                In file files /\ FileName.supported file = true /\
                p = FileName.join music_dir file)
           (Audio.loaded (audio_player tp)).
Proof.
  intros Hmeta.
  destruct (start_steady load_metadata files Hmeta) as [tp0 [H0 Hs0]].
  destruct (run_keeps files events tp0 Hs0)
    as [tp [H [Ht [_ [Hi [_ [Hp Hf]]]]]]].
  exists tp. rewrite H0. cbn [bind]. split; [exact H |].
  split; [exact Ht |]. split; [exact Hi |]. split; [exact Hp |].
  apply Forall_app in Hf. destruct Hf as [_ Hf].
  eapply Forall_impl; [| exact Hf]. intros p Hin. cbv beta in Hin.
  unfold library in Hin. rewrite map_map in Hin. cbn [Carousel.music_path] in Hin.
  apply in_map_iff in Hin. destruct Hin as [file [Hfile Hin]].
  apply filter_In in Hin. destruct Hin as [Hin Hsup].
  exists file. repeat split; try assumption. congruence.
Qed.

Lemma session_keeps_witness :
  (forall file,
      In file ["a.mp3"; "b.wav"; "notes.txt"; "c.flac"] ->
      FileName.supported file = true ->
      list_lyrics
        ((fun _ => {| md_title := None; md_cover := None;
                      md_lyrics := Some (LyricsStr Calls.two_lines) |})
           (FileName.join music_dir file)) = false) /\
  exists tp,
    (tp0 <- start (fun _ => {| md_title := None; md_cover := None;
                               md_lyrics := Some (LyricsStr Calls.two_lines) |})
                  ["a.mp3"; "b.wav"; "notes.txt"; "c.flac"] ;;
     run [PlayCurrent; PositionChanged 1500; ScrollRight; PlayCurrent;
          StatusChanged EndOfMedia] tp0) = Ok tp /\
    Audio.loaded (audio_player tp)
      = ["data/c.flac"; "data/c.flac"; "data/b.wav"].
Proof.
  assert (Hmeta : forall file,
             In file ["a.mp3"; "b.wav"; "notes.txt"; "c.flac"] ->
             FileName.supported file = true ->
             list_lyrics
               ((fun _ => {| md_title := None; md_cover := None;
                             md_lyrics := Some (LyricsStr Calls.two_lines) |})
                  (FileName.join music_dir file)) = false).
  { intros file _ _. reflexivity. }
  split; [exact Hmeta |].
  destruct (session_keeps _ ["a.mp3"; "b.wav"; "notes.txt"; "c.flac"]
              [PlayCurrent; PositionChanged 1500; ScrollRight; PlayCurrent;
               StatusChanged EndOfMedia] Hmeta) as [tp [H _]].
  exists tp. split; [exact H |].
  vm_compute in H. injection H as <-. reflexivity.
Defined.

Lemma handle_quiet (e : Event) (tp : TilesPlayer) :
  Carousel.len (scroll_area tp) <= 3 ->
  lyrics tp = Lyrics.attached ->
  Audio.playlist (audio_player tp) = [] ->
  handle e tp = Ok tp.
Proof.
  intros Hlen Hl Hp. destruct tp as [sa td ly ca au].
  cbn [scroll_area lyrics audio_player] in Hlen, Hl, Hp. subst ly.
  destruct e as [| | | | | position | status | hit];
    cbn [handle scroll_area lyrics audio_player].
  - unfold Carousel.scroll_left.
    destruct (Z.leb_spec (Carousel.len sa) 3); [reflexivity | lia].
  - unfold Carousel.scroll_right.
    destruct (Z.leb_spec (Carousel.len sa) 3); [reflexivity | lia].
  - unfold Carousel.play_current, Carousel.center_tile.
    destruct (Z.leb_spec (Carousel.len sa) 3); [reflexivity | lia].
  - unfold Audio.prev_song. rewrite Hp. destruct au; reflexivity.
  - unfold Audio.next_song. rewrite Hp. destruct au; reflexivity.
  - reflexivity.
  - destruct status; try reflexivity. cbn [on_status_changed audio_player].
    unfold Audio.next_song. rewrite Hp. destruct au; reflexivity.
  - reflexivity.
Qed.

(** X23. When the music directory lists no more than two files of a
    supported format, the carousel has three tiles or fewer, and then no
    event changes anything in the window: no file is ever handed to the
    media player. *)
Theorem small_library_silent (load_metadata : string -> Metadata)
        (files : list string) :
  (List.length (filter FileName.supported files) <= 2)%nat ->
  exists tp,
    start load_metadata files = Ok tp /\
    Audio.loaded (audio_player tp) = [] /\
    forall events, run events tp = Ok tp.
Proof.
  intros Hfew.
  destruct (start_ok load_metadata files)
    as [tp [H [Ht [_ [_ [_ [Hl [_ Ha]]]]]]]].
  exists tp. split; [exact H |]. split; [rewrite Ha; reflexivity |].
  assert (Hlen : Carousel.len (scroll_area tp) <= 3).
  { unfold Carousel.len. rewrite Ht, length_app. unfold library.
    rewrite length_map. cbn [List.length]. lia. }
  assert (Hp : Audio.playlist (audio_player tp) = [])
    by (rewrite Ha; reflexivity).
  intros events. induction events as [| e events IH]; [reflexivity |].
  cbn [run]. rewrite (handle_quiet e tp Hlen Hl Hp). cbn [bind]. exact IH.
Qed.

Lemma small_library_silent_witness :
  (List.length (filter FileName.supported ["a.mp3"; "notes.txt"; "b.FLAC"])
   <= 2)%nat /\
  exists tp,
    start (fun _ => no_metadata) ["a.mp3"; "notes.txt"; "b.FLAC"] = Ok tp /\
    run [PlayCurrent; ScrollRight; PlayCurrent; NextSong] tp = Ok tp.
Proof.
  assert (H : (List.length
                 (filter FileName.supported ["a.mp3"; "notes.txt"; "b.FLAC"])
               <= 2)%nat) by (vm_compute; lia).
  split; [exact H |].
  destruct (small_library_silent (fun _ => no_metadata)
              ["a.mp3"; "notes.txt"; "b.FLAC"] H) as [tp [Hs [_ Hr]]].
  exists tp. split; [exact Hs | apply Hr].
Defined.

End AppFacts.
